(** * The procedural module builder of [amaranth/hdl/_dsl.py]

    A shallow embedding of class [Module]: the control stack of open
    [If]/[Switch]/[FSM] frames, the per-domain statement accumulator, the
    driver registry, the lowering done by [_pop_ctrl], and [elaborate].

    Python mutates dictionaries that several objects hold at once (a frame
    is on [_ctrl_stack], in the local variable of the context manager that
    opened it, inside the [FSM] object and inside every [FSMNextStatement]).
    The frames therefore live in a store and are named by their allocation
    index; everything else is explicit state passing in a state-and-error
    monad.  Source locations ([tracer], [src_loc], [case_src_locs]) and the
    [_MustUse__used] flag carry no behaviour and are left out.  The
    submodule and clock-domain registries ([_add_submodule], [_add_domain]),
    which never touch the control stack, have a state of their own. *)

From Stdlib Require Import ZArith Ascii String.
From stdpp Require Import gmap strings list.

#[local] Set Warnings "-register-all".

(** ** Insertion-ordered dictionaries

    [dict] and [OrderedDict] iterate in insertion order and assigning to a
    key that is present keeps its position. *)

Section OrderedDict.
Context {K V : Type} `{EqDecision K}.

Fixpoint od_get (k : K) (d : list (K * V)) : option V :=
  match d with
  | [] => None
  | (k', v) :: d' => if decide (k = k') then Some v else od_get k d'
  end.

Fixpoint od_set (k : K) (v : V) (d : list (K * V)) : list (K * V) :=
  match d with
  | [] => [(k, v)]
  | (k', v') :: d' =>
      if decide (k = k') then (k, v) :: d' else (k', v') :: od_set k v d'
  end.

Definition od_mem (k : K) (d : list (K * V)) : bool :=
  match od_get k d with Some _ => true | None => false end.

Definition od_keys (d : list (K * V)) : list K := map fst d.

(** [OrderedDict(pairs)] and [d.update(pairs)]. *)
Definition od_update (pairs : list (K * V)) (d : list (K * V)) : list (K * V) :=
  foldl (fun acc kv => od_set (fst kv) (snd kv) acc) d pairs.
End OrderedDict.

(** [domains[domain] = None] on a dict used as an ordered set. *)
Definition key_add (k : string) (ks : list string) : list string :=
  if decide (k ∈ ks) then ks else ks ++ [k].

(** ** Python string helpers *)

Fixpoint str_repeat (c : ascii) (n : nat) : string :=
  match n with
  | O => EmptyString
  | S n' => String c (str_repeat c n')
  end.

(** [s.rjust(width, fill)] *)
Definition rjust (s : string) (width : nat) (fill : ascii) : string :=
  str_repeat fill (width - String.length s) +:+ s.

Fixpoint str_all (p : ascii -> bool) (s : string) : bool :=
  match s with
  | EmptyString => true
  | String c s' => p c && str_all p s'
  end.

Fixpoint str_count (p : ascii -> bool) (s : string) : nat :=
  match s with
  | EmptyString => 0
  | String c s' => (if p c then 1 else 0) + str_count p s'
  end.

(** [bit in "01- \t"] *)
Definition pattern_char (c : ascii) : bool :=
  bool_decide (c = "0"%char) || bool_decide (c = "1"%char)
  || bool_decide (c = "-"%char) || bool_decide (c = " "%char)
  || bool_decide (c = "009"%char).

(** The characters [str.split()] treats as separators. *)
Definition py_isspace (c : ascii) : bool :=
  let n := nat_of_ascii c in
  ((9 <=? n) && (n <=? 13)) || ((28 <=? n) && (n <=? 32)).

(** [len("".join(pattern.split()))] *)
Definition stripped_len (s : string) : nat :=
  str_count (fun c => negb (py_isspace c)) s.

(** ** The expression and statement algebra *)

Module Ast.

(** Modelled from the spec: [bits_for] of [amaranth.utils], the minimal
    bit-width of an integer (the module is imported by [_dsl.py] and not
    part of it).  [Z.log2_up n] is [ceil_log2 n]. *)
Definition bits_for (n : Z) : nat :=
  Z.to_nat (if (0 <? n)%Z then Z.log2_up (n + 1) else Z.log2_up (- n) + 1).

(** Signals are compared by object identity.  A signal made by the user
    carries a number of the user's choice; the two kinds of signal the
    builder makes are named by the FSM frame that made them. *)
Inductive SigId :=
| UserSig (n : nat)
| OngoingSig (fsm : nat) (state : string)
| StateSig (fsm : nat).

Inductive Shape :=
| unsigned (width : nat)
| range (n : nat).

Definition shape_width (s : Shape) : nat :=
  match s with
  | unsigned w => w
  | range n => if n <=? 1 then 0 else bits_for (Z.of_nat (n - 1))
  end.

Record Signal := mkSignal {
  sig_id : SigId;
  sig_name : string;
  sig_shape : Shape;
  sig_init : nat
}.

Inductive BoolOp := OpBool | OpEq.

(** Modelled from the spec: the part of the value algebra of [_ast.py]
    the builder consumes (bit-width, boolean reduction, concatenation,
    equality, constants, signals). *)
Inductive Value :=
| Const (value : Z) (width : nat)
| Sig (s : Signal)
| Operator (op : BoolOp) (operands : list Value)
| Cat (parts : list Value).

Fixpoint len (v : Value) : nat :=
  match v with
  | Const _ w => w
  | Sig s => shape_width (sig_shape s)
  | Operator _ _ => 1
  | Cat parts => list_sum (map len parts)
  end.

(** [v.bool()] *)
Definition bool_ (v : Value) : Value := Operator OpBool [v].

(** [Const.cast(n)] of a Python integer. *)
Definition Const_of (n : Z) : Value := Const n (bits_for n).

Fixpoint value_lhs_signals (v : Value) : list Signal :=
  match v with
  | Sig s => [s]
  | Cat parts => concat (map value_lhs_signals parts)
  | _ => []
  end.

(** An entry of a registered pattern tuple. *)
Inductive Pat :=
| PatStr (s : string)
| PatInt (v : Z).

(** The keys [_pop_ctrl] gives to [Switch]: [None], a string, a tuple
    of patterns, or a state encoding. *)
Inductive CaseKey :=
| KeyNone
| KeyStr (s : string)
| KeyPatterns (ps : list Pat)
| KeyInt (n : nat).

(** Modelled from the spec: the statement variants of [_ast.py].
    [FSMNextStatement] is defined in [_dsl.py]; its [ctrl_data] is the
    FSM frame it points to. *)
Inductive Statement :=
| Assign (lhs rhs : Value)
| Property (kind : string) (test : Value)
| FSMNextStatement (ctrl_data : nat) (state : string)
| Switch (test : Value) (cases : list (CaseKey * list Statement)).

(** [sig.eq(rhs)] *)
Definition eq_ (s : Signal) (rhs : Value) : Statement := Assign (Sig s) rhs.

Fixpoint stmt_lhs_signals (s : Statement) : list Signal :=
  match s with
  | Assign lhs _ => value_lhs_signals lhs
  | Switch _ cases =>
      concat (map (fun c => concat (map stmt_lhs_signals (snd c))) cases)
  | _ => []
  end.

(** [_StatementList._lhs_signals] *)
Definition lhs_signals (stmts : list Statement) : list Signal :=
  concat (map stmt_lhs_signals stmts).

#[global] Instance SigId_eq_dec : EqDecision SigId.
Proof. solve_decision. Defined.

#[global] Instance Pat_eq_dec : EqDecision Pat.
Proof. solve_decision. Defined.

#[global] Instance CaseKey_eq_dec : EqDecision CaseKey.
Proof. solve_decision. Defined.

Definition SigId_enc (s : SigId) : nat + (nat * string) + nat :=
  match s with
  | UserSig n => inl (inl n)
  | OngoingSig f st => inl (inr (f, st))
  | StateSig f => inr f
  end.

Definition SigId_dec (x : nat + (nat * string) + nat) : SigId :=
  match x with
  | inl (inl n) => UserSig n
  | inl (inr (f, st)) => OngoingSig f st
  | inr f => StateSig f
  end.

#[global] Instance SigId_countable : Countable SigId.
Proof.
  apply (inj_countable' SigId_enc SigId_dec).
  intros []; reflexivity.
Defined.

End Ast.
Import Ast.

(** A per-domain accumulator: [self._statements] and every captured body. *)
Abbreviation Stmts := (list (string * list Statement)).

(** [stmts.setdefault(domain, []).append(stmt)] *)
Definition stmts_add (domain : string) (stmt : Statement) (stmts : Stmts) : Stmts :=
  od_set domain (default [] (od_get domain stmts) ++ [stmt]) stmts.

(** [body.get(domain, [])] *)
Definition stmts_get (domain : string) (stmts : Stmts) : list Statement :=
  default [] (od_get domain stmts).

(** ** Control frames

    The dictionaries pushed by [_set_ctrl].  [fsm_signal] is the key
    ["signal"], which an FSM frame only gets when it is popped. *)

Record IfData := mkIfData {
  if_depth : nat;
  if_tests : list Value;
  if_bodies : list Stmts
}.

Record SwitchData := mkSwitchData {
  switch_test : Value;
  switch_cases : list (list Pat * Stmts)
}.

Record FSMData := mkFSMData {
  fsm_name : string;
  fsm_init : option string;
  fsm_domain : string;
  fsm_encoding : list (string * nat);
  fsm_decoding : list (nat * string);
  fsm_ongoing : list (string * Signal);
  fsm_states : list (string * Stmts);
  fsm_signal : option Signal
}.

Inductive CtrlName := NameIf | NameSwitch | NameFSM.

(** The values of [_ctrl_context] other than [None]. *)
Inductive Context := CtxSwitch | CtxFSM.

#[global] Instance CtrlName_eq_dec : EqDecision CtrlName.
Proof. solve_decision. Defined.

#[global] Instance Context_eq_dec : EqDecision Context.
Proof. solve_decision. Defined.

(** ** Errors and warnings *)

Inductive SyntaxMsg :=
| NotPermittedOutside (construct : string) (context : option Context)
| NotPermittedInside (construct : string) (context : Context)
| ElifWithoutIf
| ElseWithoutIf
| CasePatternChars (pattern : string)
| CasePatternWidth (pattern : string) (width : nat)
| CasePatternNotCastable
| NextOutsideState
| OnlyAssignments (domain : string)
| DriverConflict (signal : Signal) (domain cd_curr : string).

Inductive NameMsg :=
| StateReferencedNotDefined (state_name : string)
| StateAlreadyDefined (name : string).

Inductive ValueMsg :=
| FSMDomain (domain : string)
| ResetAndInit.

(** [KeyError], [TypeError] and [IndexError] are what Python raises when a
    frame dictionary lacks a key, when [_get_ctrl] returned [None] and is
    subscripted, and when an empty [_ctrl_stack] is popped.  [StoreFault]
    is a frame reference outside the store, which no run produces.
    [UserException] is an exception raised by the caller's own code inside
    a [with] body. *)
Inductive Error :=
| SyntaxError (msg : SyntaxMsg)
| NameError (msg : NameMsg)
| ValueError (msg : ValueMsg)
| KeyError
| TypeError
| IndexError
| StoreFault
| UserException (tag : nat).

Inductive Warning :=
| CaseAfterDefault
| CasePatternTooWide (value : Z) (pattern_len width : nat)
| ResetDeprecated.

(** ** The builder state

    The attributes of a [Module] instance ([Module] is a reserved word
    here, so the record is called [Builder]) together with the store of
    frames. *)

Record Builder := mkBuilder {
  _statements : Stmts;
  _ctrl_context : option Context;
  _ctrl_stack : list (CtrlName * nat);   (* top first *)
  _top_comb_statements : list Statement;
  _driving : gmap SigId string;
  _generated : list (string * nat);
  _depth : nat;                          (* self.domain._depth *)
  if_store : list IfData;
  switch_store : list SwitchData;
  fsm_store : list FSMData;
  warnings : list Warning
}.

(** [Module.__init__] *)
Definition Module_init : Builder :=
  mkBuilder [] None [] [] ∅ [] 0 [] [] [] [].

Definition set_statements (v : Stmts) (m : Builder) : Builder :=
  mkBuilder v (_ctrl_context m) (_ctrl_stack m) (_top_comb_statements m)
    (_driving m) (_generated m) (_depth m) (if_store m) (switch_store m)
    (fsm_store m) (warnings m).

Definition set_ctrl_context (v : option Context) (m : Builder) : Builder :=
  mkBuilder (_statements m) v (_ctrl_stack m) (_top_comb_statements m)
    (_driving m) (_generated m) (_depth m) (if_store m) (switch_store m)
    (fsm_store m) (warnings m).

Definition set_ctrl_stack (v : list (CtrlName * nat)) (m : Builder) : Builder :=
  mkBuilder (_statements m) (_ctrl_context m) v (_top_comb_statements m)
    (_driving m) (_generated m) (_depth m) (if_store m) (switch_store m)
    (fsm_store m) (warnings m).

Definition set_top_comb_statements (v : list Statement) (m : Builder) : Builder :=
  mkBuilder (_statements m) (_ctrl_context m) (_ctrl_stack m) v
    (_driving m) (_generated m) (_depth m) (if_store m) (switch_store m)
    (fsm_store m) (warnings m).

Definition set_driving (v : gmap SigId string) (m : Builder) : Builder :=
  mkBuilder (_statements m) (_ctrl_context m) (_ctrl_stack m)
    (_top_comb_statements m) v (_generated m) (_depth m) (if_store m)
    (switch_store m) (fsm_store m) (warnings m).

Definition set_generated (v : list (string * nat)) (m : Builder) : Builder :=
  mkBuilder (_statements m) (_ctrl_context m) (_ctrl_stack m)
    (_top_comb_statements m) (_driving m) v (_depth m) (if_store m)
    (switch_store m) (fsm_store m) (warnings m).

Definition set_depth (v : nat) (m : Builder) : Builder :=
  mkBuilder (_statements m) (_ctrl_context m) (_ctrl_stack m)
    (_top_comb_statements m) (_driving m) (_generated m) v (if_store m)
    (switch_store m) (fsm_store m) (warnings m).

Definition set_if_store (v : list IfData) (m : Builder) : Builder :=
  mkBuilder (_statements m) (_ctrl_context m) (_ctrl_stack m)
    (_top_comb_statements m) (_driving m) (_generated m) (_depth m) v
    (switch_store m) (fsm_store m) (warnings m).

Definition set_switch_store (v : list SwitchData) (m : Builder) : Builder :=
  mkBuilder (_statements m) (_ctrl_context m) (_ctrl_stack m)
    (_top_comb_statements m) (_driving m) (_generated m) (_depth m)
    (if_store m) v (fsm_store m) (warnings m).

Definition set_fsm_store (v : list FSMData) (m : Builder) : Builder :=
  mkBuilder (_statements m) (_ctrl_context m) (_ctrl_stack m)
    (_top_comb_statements m) (_driving m) (_generated m) (_depth m)
    (if_store m) (switch_store m) v (warnings m).

Definition set_warnings (v : list Warning) (m : Builder) : Builder :=
  mkBuilder (_statements m) (_ctrl_context m) (_ctrl_stack m)
    (_top_comb_statements m) (_driving m) (_generated m) (_depth m)
    (if_store m) (switch_store m) (fsm_store m) v.

(** ** The state-and-error monad

    An exception leaves every mutation made before it in place, so a
    failing computation still returns a state. *)

Inductive Result (A : Type) :=
| Ok (a : A)
| Err (e : Error).
Arguments Ok {A} a.
Arguments Err {A} e.

Definition M (A : Type) : Type := Builder -> Result A * Builder.

Definition ret {A} (a : A) : M A := fun m => (Ok a, m).

Definition bind {A B} (c : M A) (k : A -> M B) : M B :=
  fun m =>
    match c m with
    | (Ok a, m') => k a m'
    | (Err e, m') => (Err e, m')
    end.

Definition raise {A} (e : Error) : M A := fun m => (Err e, m).

Definition gets {A} (f : Builder -> A) : M A := fun m => (Ok (f m), m).

Definition modify (f : Builder -> Builder) : M unit := fun m => (Ok tt, f m).

(** [warnings.warn(...)] *)
Definition warn (w : Warning) : M unit :=
  modify (fun m => set_warnings (warnings m ++ [w]) m).

Declare Scope m_scope.
Delimit Scope m_scope with M.
Bind Scope m_scope with M.
Notation "x <- c ;; k" := (bind c (fun x => k))
  (at level 100, c at next level, k at level 200, right associativity) : m_scope.
Notation "c ;; k" := (bind c (fun _ => k))
  (at level 100, k at level 200, right associativity) : m_scope.
Local Open Scope m_scope.

(** [try: body finally: fin] *)
Definition try_finally (body fin : M unit) : M unit :=
  fun m =>
    match body m with
    | (r, m1) =>
        match fin m1 with
        | (Ok _, m2) => (r, m2)
        | (Err e, m2) => (Err e, m2)
        end
    end.

(** [try: body except Exception: pass] in the caller's code. *)
Definition try_except_pass (body : M unit) : M unit :=
  fun m => (Ok tt, snd (body m)).

Definition for_each {A} (f : A -> M unit) : list A -> M unit :=
  fix go (l : list A) : M unit :=
    match l with
    | [] => ret tt
    | x :: l' => f x ;; go l'
    end.

(** [while cond: body], with the number of iterations bounded by [fuel]. *)
Fixpoint while_ (fuel : nat) (cond : Builder -> bool) (body : M unit) : M unit :=
  match fuel with
  | O => ret tt
  | S fuel' =>
      fun m => if cond m then (body ;; while_ fuel' cond body) m else (Ok tt, m)
  end.

(** [d[k]], raising [KeyError]. *)
Definition od_index {K V} `{EqDecision K} (k : K) (d : list (K * V)) : M V :=
  match od_get k d with
  | Some v => ret v
  | None => raise KeyError
  end.

(** Reading and writing the frame a reference points to. *)
Definition load {A} (store : Builder -> list A) (r : nat) : M A :=
  fun m =>
    match store m !! r with
    | Some d => (Ok d, m)
    | None => (Err StoreFault, m)
    end.

Definition if_write (r : nat) (d : IfData) : M unit :=
  modify (fun m => set_if_store (<[r := d]> (if_store m)) m).

Definition switch_write (r : nat) (d : SwitchData) : M unit :=
  modify (fun m => set_switch_store (<[r := d]> (switch_store m)) m).

Definition fsm_write (r : nat) (d : FSMData) : M unit :=
  modify (fun m => set_fsm_store (<[r := d]> (fsm_store m)) m).

(** ** Lowering: [_pop_ctrl] *)

(** The ordered set of domains keyed in any of the bodies:
    [for body in bodies: for domain in body: domains[domain] = None]. *)
Definition touched (bodies : list Stmts) : list string :=
  foldl (fun domains body =>
           foldl (fun domains kv => key_add (fst kv) domains) domains body)
        [] bodies.

(** The priority pattern of the branch whose test was appended last:
    [("1" + "-" * (len(tests) - 1)).rjust(len(if_tests), "-")]. *)
Definition if_match (n_tests n_if_tests : nat) : string :=
  rjust (String "1"%char (str_repeat "-"%char (n_tests - 1))) n_if_tests "-"%char.

(** The loop over [zip(if_tests + [None], if_bodies)] for one domain. *)
Fixpoint if_cases (n_if_tests : nat) (domain : string)
    (pairs : list (option Value * Stmts))
    (tests : list Value) (cases : list (CaseKey * list Statement))
    : list Value * list (CaseKey * list Statement) :=
  match pairs with
  | [] => (tests, cases)
  | (if_test, if_case) :: pairs' =>
      let tests :=
        match if_test with
        | Some t => tests ++ [if decide (len t = 1) then t else bool_ t]
        | None => tests
        end in
      let match_ :=
        match if_test with
        | Some _ => KeyStr (if_match (length tests) n_if_tests)
        | None => KeyNone
        end in
      if_cases n_if_tests domain pairs' tests
        (od_set match_ (stmts_get domain if_case) cases)
  end.

Definition if_switch (data : IfData) (domain : string) : Statement :=
  let '(tests, cases) :=
    if_cases (length (if_tests data)) domain
      (combine (map Some (if_tests data) ++ [None]) (if_bodies data)) [] [] in
  Ast.Switch (Cat tests) cases.

Definition pop_If (r : nat) : M unit :=
  data <- load if_store r ;;
  for_each (fun domain =>
     modify (fun m =>
       set_statements (stmts_add domain (if_switch data domain) (_statements m)) m))
    (touched (if_bodies data)).

Definition switch_switch (data : SwitchData) (domain : string) : Statement :=
  Ast.Switch (switch_test data)
    (foldl (fun domain_cases ps =>
              od_set (KeyPatterns (fst ps)) (stmts_get domain (snd ps)) domain_cases)
           [] (switch_cases data)).

Definition pop_Switch (r : nat) : M unit :=
  data <- load switch_store r ;;
  for_each (fun domain =>
     modify (fun m =>
       set_statements (stmts_add domain (switch_switch data domain) (_statements m)) m))
    (touched (map snd (switch_cases data))).

(** [OrderedDict((fsm_encoding[name], stmts) for name, stmts in ...)] *)
Fixpoint encode_cases (encoding : list (string * nat))
    (domain_states : list (string * list Statement))
    (cases : list (CaseKey * list Statement))
    : M (list (CaseKey * list Statement)) :=
  match domain_states with
  | [] => ret cases
  | (name, stmts) :: rest =>
      n <- od_index name encoding ;;
      encode_cases encoding rest (od_set (KeyInt n) stmts cases)
  end.

Definition state_signal (r : nat) (data : FSMData) (shape : Shape) (init : nat) : Signal :=
  mkSignal (StateSig r) (fsm_name data +:+ "_state") shape init.

Definition with_signal (data : FSMData) (decoding : list (nat * string))
    (signal : Signal) : FSMData :=
  mkFSMData (fsm_name data) (fsm_init data) (fsm_domain data) (fsm_encoding data)
    decoding (fsm_ongoing data) (fsm_states data) (Some signal).

(** The statement driving one ongoing indicator:
    [sig.eq(Operator("==", [fsm_signal, fsm_encoding[name]]))]. *)
Definition ongoing_stmt (fsm_signal sig : Signal) (n : nat) : Statement :=
  eq_ sig (Operator OpEq [Sig fsm_signal; Const_of (Z.of_nat n)]).

Definition pop_FSM (r : nat) : M unit :=
  data <- load fsm_store r ;;
  match fsm_states data with
  | [] =>
      fsm_write r (with_signal data (fsm_decoding data)
                     (state_signal r data (unsigned 0) 0))
  | (first, _) :: _ =>
      init <- od_index (default first (fsm_init data)) (fsm_encoding data) ;;
      let fsm_decoding :=
        od_update (map (fun sn => (snd sn, fst sn)) (fsm_encoding data))
          (fsm_decoding data) in
      let fsm_signal :=
        state_signal r data (range (length (fsm_encoding data))) init in
      fsm_write r (with_signal data fsm_decoding fsm_signal) ;;
      for_each (fun ns =>
         n <- od_index (fst ns) (fsm_encoding data) ;;
         modify (fun m =>
           set_top_comb_statements
             (_top_comb_statements m ++ [ongoing_stmt fsm_signal (snd ns) n]) m))
        (fsm_ongoing data) ;;
      for_each (fun domain =>
         cases <- encode_cases (fsm_encoding data)
                    (od_update (map (fun ss => (fst ss, stmts_get domain (snd ss)))
                                    (fsm_states data)) []) [] ;;
         modify (fun m =>
           set_statements
             (stmts_add domain (Ast.Switch (Sig fsm_signal) cases) (_statements m)) m))
        (touched (map snd (fsm_states data)))
  end.

Definition _pop_ctrl : M unit :=
  fun m =>
    match _ctrl_stack m with
    | [] => (Err IndexError, m)
    | (name, data) :: rest =>
        (modify (set_ctrl_stack rest) ;;
         match name with
         | NameIf => pop_If data
         | NameSwitch => pop_Switch data
         | NameFSM => pop_FSM data
         end) m
    end.

(** ** The control stack *)

Definition _check_context (construct : string) (context : option Context) : M unit :=
  fun m =>
    if decide (_ctrl_context m = context) then (Ok tt, m)
    else
      match _ctrl_context m with
      | None => (Err (SyntaxError (NotPermittedOutside construct context)), m)
      | Some c => (Err (SyntaxError (NotPermittedInside construct c)), m)
      end.

Definition _get_ctrl (name : CtrlName) : M (option nat) :=
  gets (fun m =>
    match _ctrl_stack m with
    | (top_name, top_data) :: _ =>
        if decide (top_name = name) then Some top_data else None
    | [] => None
    end).

(** [while len(self._ctrl_stack) > self.domain._depth: self._pop_ctrl()].
    Each turn pops one frame, so the length of the stack is fuel enough. *)
Definition _flush_ctrl : M unit :=
  fun m =>
    while_ (length (_ctrl_stack m))
      (fun m => _depth m <? length (_ctrl_stack m)) _pop_ctrl m.

Definition _set_ctrl (name : CtrlName) (data : nat) : M unit :=
  _flush_ctrl ;;
  modify (fun m => set_ctrl_stack ((name, data) :: _ctrl_stack m) m).

(** On Python 3.12 and later the warning of [_check_signed_cond] is dead
    code and the method is [Value.cast]; the embedding takes that
    interpreter. *)
Definition _check_signed_cond (cond : Value) : M Value := ret cond.

Definition incr_depth : M unit := modify (fun m => set_depth (S (_depth m)) m).
Definition decr_depth : M unit := modify (fun m => set_depth (pred (_depth m)) m).

(** Allocation of a frame dictionary: the dict display evaluated as the
    argument of [_set_ctrl]. *)
Definition new_if (d : IfData) : M nat :=
  fun m => (Ok (length (if_store m)), set_if_store (if_store m ++ [d]) m).

Definition new_switch (d : SwitchData) : M nat :=
  fun m => (Ok (length (switch_store m)), set_switch_store (switch_store m ++ [d]) m).

Definition new_fsm (d : FSMData) : M nat :=
  fun m => (Ok (length (fsm_store m)), set_fsm_store (fsm_store m ++ [d]) m).

(** ** [_add_statement] and the driver registry *)

(** The body of [for signal in stmt._lhs_signals()]. *)
Definition drive (domain : string) (signal : Signal) : M unit :=
  fun m =>
    match _driving m !! sig_id signal with
    | None => (Ok tt, set_driving (<[sig_id signal := domain]> (_driving m)) m)
    | Some cd_curr =>
        if decide (cd_curr = domain) then (Ok tt, m)
        else (Err (SyntaxError (DriverConflict signal domain cd_curr)), m)
    end.

Definition append_stmt (domain : string) (stmt : Statement) : M unit :=
  modify (fun m => set_statements (stmts_add domain stmt (_statements m)) m).

(** The body of [for stmt in Statement.cast(assigns)]. *)
Definition add_one (domain : string) (stmt : Statement) : M unit :=
  match stmt with
  | Ast.Switch _ _ => raise (SyntaxError (OnlyAssignments domain))
  | Assign lhs _ =>
      for_each (drive domain) (value_lhs_signals lhs) ;;
      append_stmt domain stmt
  | _ => append_stmt domain stmt
  end.

(** The parameter [depth] is not used by the source either: the loop
    compares against [self.domain._depth]. *)
Definition _add_statement (assigns : list Statement) (domain : string)
    (depth : nat) : M unit :=
  _flush_ctrl ;;
  for_each (add_one domain) assigns.

(** ** The scoped constructs

    A method decorated with [contextmanager] is a generator of the form
    [pre; try: (...; yield; leave) finally: fin] followed by [post].  The
    [with] statement runs it up to the [yield], runs its own body there
    (an exception of the body is raised at the [yield]), and resumes it.
    The statements between [try:] and [yield] are assignments that cannot
    fail, so they are counted with the part before the [try]. *)

(** The local variables a generator keeps across its [yield]. *)
Record Locals := mkLocals {
  ctrl_data : nat;              (* if_data, switch_data or fsm_data *)
  new_patterns : list Pat;      (* of Case *)
  _outer_case : Stmts
}.

Definition with_ (enter : M Locals) (leave fin post : Locals -> M unit)
    (body : Locals -> M unit) : M unit :=
  l <- enter ;;
  try_finally (body l ;; leave l) (fin l) ;;
  post l.

Definition no_post (l : Locals) : M unit := ret tt.

(** [_outer_case, self._statements = self._statements, {}] *)
Definition capture (data : nat) (patterns : list Pat) : M Locals :=
  _outer_case <- gets _statements ;;
  modify (set_statements []) ;;
  ret (mkLocals data patterns _outer_case).

(** [if_data["tests"].append(cond); if_data["bodies"].append(self._statements)]
    ([Else] appends no test). *)
Definition if_record (if_data : nat) (test : option Value) : M unit :=
  data <- load if_store if_data ;;
  stmts <- gets _statements ;;
  if_write if_data
    (mkIfData (if_depth data) (if_tests data ++ option_list test)
       (if_bodies data ++ [stmts])).

Definition If_enter (cond : Value) : M Locals :=
  _check_context "If" None ;;
  cond <- _check_signed_cond cond ;;
  depth <- gets _depth ;;
  if_data <- new_if (mkIfData depth [] []) ;;
  _set_ctrl NameIf if_data ;;
  l <- capture if_data [] ;;
  incr_depth ;;
  ret l.

Definition If_leave (test : option Value) (l : Locals) : M unit :=
  _flush_ctrl ;;
  if_record (ctrl_data l) test.

Definition If_finally (l : Locals) : M unit :=
  decr_depth ;;
  modify (set_statements (_outer_case l)).

Definition If (cond : Value) (body : M unit) : M unit :=
  with_ (If_enter cond) (If_leave (Some cond)) If_finally no_post (fun _ => body).

(** [if if_data is None or if_data["depth"] != self.domain._depth: raise] *)
Definition preceding_if (e : SyntaxMsg) : M nat :=
  if_data <- _get_ctrl NameIf ;;
  match if_data with
  | None => raise (SyntaxError e)
  | Some if_data =>
      data <- load if_store if_data ;;
      depth <- gets _depth ;;
      if decide (if_depth data = depth) then ret if_data
      else raise (SyntaxError e)
  end.

Definition Elif_enter (cond : Value) : M Locals :=
  _check_context "Elif" None ;;
  cond <- _check_signed_cond cond ;;
  if_data <- preceding_if ElifWithoutIf ;;
  l <- capture if_data [] ;;
  incr_depth ;;
  ret l.

Definition Elif (cond : Value) (body : M unit) : M unit :=
  with_ (Elif_enter cond) (If_leave (Some cond)) If_finally no_post (fun _ => body).

Definition Else_enter : M Locals :=
  _check_context "Else" None ;;
  if_data <- preceding_if ElseWithoutIf ;;
  l <- capture if_data [] ;;
  incr_depth ;;
  ret l.

Definition Else (body : M unit) : M unit :=
  with_ Else_enter (If_leave None) If_finally (fun _ => _pop_ctrl) (fun _ => body).

Definition Switch_enter (test : Value) : M Locals :=
  _check_context "Switch" None ;;
  switch_data <- new_switch (mkSwitchData test []) ;;
  _set_ctrl NameSwitch switch_data ;;
  modify (set_ctrl_context (Some CtxSwitch)) ;;
  incr_depth ;;
  ret (mkLocals switch_data [] []).

(** [Switch] and [FSM] keep no [_outer_case]; the field of their [Locals]
    is left empty and never read. *)
Definition Switch_finally (l : Locals) : M unit :=
  decr_depth ;;
  modify (set_ctrl_context None).

Definition Switch (test : Value) (body : M unit) : M unit :=
  with_ (Switch_enter test) no_post Switch_finally (fun _ => _pop_ctrl)
    (fun _ => body).

(** What a caller may pass to [Case]: a string, something [Const.cast]
    accepts (given by its value), or anything else. *)
Inductive Pattern :=
| PStr (s : string)
| PConst (v : Z)
| PObject.

(** [pattern_len = bits_for(pattern.value)], and [0] for the value [0]. *)
Definition pattern_len (v : Z) : nat :=
  if decide (v = 0%Z) then 0 else bits_for v.

(** The loop [for pattern in patterns] of [Case]. *)
Fixpoint case_patterns (width : nat) (patterns : list Pattern)
    (new_patterns : list Pat) : M (list Pat) :=
  match patterns with
  | [] => ret new_patterns
  | PStr s :: rest =>
      if negb (str_all pattern_char s) then
        raise (SyntaxError (CasePatternChars s))
      else if negb (stripped_len s =? width) then
        raise (SyntaxError (CasePatternWidth s width))
      else case_patterns width rest (new_patterns ++ [PatStr s])
  | PConst v :: rest =>
      if width <? pattern_len v then
        warn (CasePatternTooWide v (pattern_len v) width) ;;
        case_patterns width rest new_patterns
      else case_patterns width rest (new_patterns ++ [PatInt v])
  | PObject :: rest => raise (SyntaxError CasePatternNotCastable)
  end.

(** [if new_patterns and new_patterns not in switch_data["cases"]:
       switch_data["cases"][new_patterns] = self._statements] *)
Definition case_record (switch_data : nat) (new_patterns : list Pat) : M unit :=
  data <- load switch_store switch_data ;;
  stmts <- gets _statements ;;
  if negb (bool_decide (new_patterns = []))
     && negb (od_mem new_patterns (switch_cases data))
  then switch_write switch_data
         (mkSwitchData (switch_test data)
            (od_set new_patterns stmts (switch_cases data)))
  else ret tt.

(** [switch_data = self._get_ctrl("Switch")] followed by a subscript of
    it, which is a [TypeError] when [_get_ctrl] returned [None]. *)
Definition subscript (data : option nat) : M nat :=
  match data with
  | Some r => ret r
  | None => raise TypeError
  end.

Definition warn_after_default (switch_data : nat) : M unit :=
  data <- load switch_store switch_data ;;
  if od_mem [] (switch_cases data) then warn CaseAfterDefault else ret tt.

Definition Case_enter (patterns : list Pattern) : M Locals :=
  _check_context "Case" (Some CtxSwitch) ;;
  switch_data <- _get_ctrl NameSwitch ;;
  switch_data <- subscript switch_data ;;
  warn_after_default switch_data ;;
  data <- load switch_store switch_data ;;
  new_patterns <- case_patterns (len (switch_test data)) patterns [] ;;
  l <- capture switch_data new_patterns ;;
  modify (set_ctrl_context None) ;;
  ret l.

Definition Case_leave (l : Locals) : M unit :=
  _flush_ctrl ;;
  case_record (ctrl_data l) (new_patterns l).

Definition Case_finally (l : Locals) : M unit :=
  modify (set_ctrl_context (Some CtxSwitch)) ;;
  modify (set_statements (_outer_case l)).

Definition Case (patterns : list Pattern) (body : M unit) : M unit :=
  with_ (Case_enter patterns) Case_leave Case_finally no_post (fun _ => body).

(** [if () not in switch_data["cases"]: switch_data["cases"][()] = self._statements] *)
Definition default_record (switch_data : nat) : M unit :=
  data <- load switch_store switch_data ;;
  stmts <- gets _statements ;;
  if negb (od_mem [] (switch_cases data))
  then switch_write switch_data
         (mkSwitchData (switch_test data) (od_set [] stmts (switch_cases data)))
  else ret tt.

Definition Default_enter : M Locals :=
  _check_context "Default" (Some CtxSwitch) ;;
  switch_data <- _get_ctrl NameSwitch ;;
  switch_data <- subscript switch_data ;;
  warn_after_default switch_data ;;
  l <- capture switch_data [] ;;
  modify (set_ctrl_context None) ;;
  ret l.

Definition Default_leave (l : Locals) : M unit :=
  _flush_ctrl ;;
  default_record (ctrl_data l).

Definition Default (body : M unit) : M unit :=
  with_ Default_enter Default_leave Case_finally no_post (fun _ => body).

(** The block shared by [State], the setter of [next] and [FSM.ongoing]:
    [if name not in encoding: encoding[name] = len(encoding);
     ongoing[name] = Signal(name=f"{fsm_name}_ongoing_{name}")]. *)
Definition reference_state (fsm_data : nat) (name : string) : M unit :=
  data <- load fsm_store fsm_data ;;
  if od_mem name (fsm_encoding data) then ret tt
  else
    fsm_write fsm_data
      (mkFSMData (fsm_name data) (fsm_init data) (fsm_domain data)
         (od_set name (length (fsm_encoding data)) (fsm_encoding data))
         (fsm_decoding data)
         (od_set name
            (mkSignal (OngoingSig fsm_data name)
               (fsm_name data +:+ "_ongoing_" +:+ name) (unsigned 1) 0)
            (fsm_ongoing data))
         (fsm_states data) (fsm_signal data)).

(** [FSM.ongoing] of the FSM object whose [_data] is [fsm]. *)
Definition ongoing (fsm : nat) (name : string) : M Signal :=
  reference_state fsm name ;;
  data <- load fsm_store fsm ;;
  od_index name (fsm_ongoing data).

(** [for state_name in fsm_data["encoding"]:
       if state_name not in fsm_data["states"]: raise NameError(...)] *)
Definition check_defined (fsm_data : nat) : M unit :=
  data <- load fsm_store fsm_data ;;
  for_each (fun state_name =>
     if od_mem state_name (fsm_states data) then ret tt
     else raise (NameError (StateReferencedNotDefined state_name)))
    (od_keys (fsm_encoding data)).

(** [fsm.state = fsm_data["signal"]] *)
Definition bind_state (fsm_data : nat) : M unit :=
  data <- load fsm_store fsm_data ;;
  match fsm_signal data with
  | Some _ => ret tt
  | None => raise KeyError
  end.

Definition FSM_enter (init : option string) (domain name : string)
    (reset : option string) : M Locals :=
  _check_context "FSM" None ;;
  (if decide (domain = "comb"%string) then raise (ValueError (FSMDomain domain))
   else ret tt) ;;
  init <- match reset with
          | Some r =>
              match init with
              | Some _ => raise (ValueError ResetAndInit)
              | None => warn ResetDeprecated ;; ret (Some r)
              end
          | None => ret init
          end ;;
  fsm_data <- new_fsm (mkFSMData name init domain [] [] [] [] None) ;;
  _set_ctrl NameFSM fsm_data ;;
  modify (fun m => set_generated (od_set name fsm_data (_generated m)) m) ;;
  modify (set_ctrl_context (Some CtxFSM)) ;;
  incr_depth ;;
  ret (mkLocals fsm_data [] []).

Definition FSM_leave (l : Locals) : M unit := check_defined (ctrl_data l).

Definition FSM_post (l : Locals) : M unit :=
  _pop_ctrl ;;
  bind_state (ctrl_data l).

(** The body receives the [FSM] object, given by the frame it wraps. *)
Definition FSM (init : option string) (domain name : string)
    (reset : option string) (body : nat -> M unit) : M unit :=
  with_ (FSM_enter init domain name reset) FSM_leave Switch_finally FSM_post
    (fun l => body (ctrl_data l)).

(** [fsm_data["states"][name] = self._statements] *)
Definition state_record (fsm_data : nat) (name : string) : M unit :=
  data <- load fsm_store fsm_data ;;
  stmts <- gets _statements ;;
  fsm_write fsm_data
    (mkFSMData (fsm_name data) (fsm_init data) (fsm_domain data)
       (fsm_encoding data) (fsm_decoding data) (fsm_ongoing data)
       (od_set name stmts (fsm_states data)) (fsm_signal data)).

Definition State_enter (name : string) : M Locals :=
  _check_context "FSM State" (Some CtxFSM) ;;
  fsm_data <- _get_ctrl NameFSM ;;
  fsm_data <- subscript fsm_data ;;
  data <- load fsm_store fsm_data ;;
  (if od_mem name (fsm_states data) then raise (NameError (StateAlreadyDefined name))
   else ret tt) ;;
  reference_state fsm_data name ;;
  l <- capture fsm_data [] ;;
  modify (set_ctrl_context None) ;;
  ret l.

Definition State_leave (name : string) (l : Locals) : M unit :=
  _flush_ctrl ;;
  state_record (ctrl_data l) name.

Definition State_finally (l : Locals) : M unit :=
  modify (set_ctrl_context (Some CtxFSM)) ;;
  modify (set_statements (_outer_case l)).

Definition State (name : string) (body : M unit) : M unit :=
  with_ (State_enter name) (State_leave name) State_finally no_post (fun _ => body).

(** The first FSM frame from the top:
    [for level, (ctrl_name, ctrl_data) in enumerate(reversed(self._ctrl_stack))]. *)
Fixpoint innermost_fsm (stack : list (CtrlName * nat)) : option nat :=
  match stack with
  | [] => None
  | (NameFSM, ctrl_data) :: _ => Some ctrl_data
  | _ :: stack' => innermost_fsm stack'
  end.

(** The setter of the property [next]: [m.next = name]. *)
Definition next (name : string) : M unit :=
  context <- gets _ctrl_context ;;
  stack <- gets _ctrl_stack ;;
  if decide (context = Some CtxFSM) then raise (SyntaxError NextOutsideState)
  else
    match innermost_fsm stack with
    | Some ctrl_data =>
        reference_state ctrl_data name ;;
        data <- load fsm_store ctrl_data ;;
        _add_statement [FSMNextStatement ctrl_data name] (fsm_domain data)
          (length stack)
    | None => raise (SyntaxError NextOutsideState)
    end.

(** ** Elaboration *)

Module Ir.

(** Modelled from the spec: the IR container of [_ir.py], reduced to the
    three things [elaborate] hands it: statement lists filed under a
    domain, the signals registered as driven by a domain, and the
    generated artifacts. *)
Record Fragment := mkFragment {
  statements : Stmts;
  drivers : list (string * list SigId);
  generated : list (string * nat)
}.

Definition empty : Fragment := mkFragment [] [] [].

Definition add_statements (domain : string) (stmts : list Statement)
    (f : Fragment) : Fragment :=
  mkFragment (foldl (fun acc s => stmts_add domain s acc) (statements f) stmts)
    (drivers f) (generated f).

Definition add_driver (signal : Signal) (domain : string) (f : Fragment) : Fragment :=
  let driven := default [] (od_get domain (drivers f)) in
  mkFragment (statements f)
    (od_set domain
       (if decide (sig_id signal ∈ driven) then driven
        else driven ++ [sig_id signal])
       (drivers f))
    (generated f).

Definition add_drivers (signals : list Signal) (domain : string)
    (f : Fragment) : Fragment :=
  foldl (fun f signal => add_driver signal domain f) f signals.


End Ir.

(** [resolve_statement] with [FSMNextStatement.resolve]; [None] stands for
    the [KeyError] of a frame without ["signal"] or without the state. *)
Fixpoint resolve_statement (store : list FSMData) (stmt : Statement)
    : option Statement :=
  match stmt with
  | FSMNextStatement ctrl_data state =>
      data ← store !! ctrl_data;
      signal ← fsm_signal data;
      n ← od_get state (fsm_encoding data);
      Some (eq_ signal (Const_of (Z.of_nat n)))
  | Ast.Switch test cases =>
      cases' ← mapM (fun c =>
                  stmts ← mapM (resolve_statement store) (snd c);
                  Some (fst c, stmts)) cases;
      Some (Ast.Switch test cases')
  | Assign _ _ | Property _ _ => Some stmt
  end.

Definition resolve_statements (store : list FSMData) (stmts : list Statement)
    : option (list Statement) :=
  mapM (resolve_statement store) stmts.

(** [while self._ctrl_stack: self._pop_ctrl()] *)
Definition _flush : M unit :=
  fun m =>
    while_ (length (_ctrl_stack m)) (fun m => 0 <? length (_ctrl_stack m))
      _pop_ctrl m.

(** [for domain, statements in self._statements.items()] *)
Fixpoint emit_domains (store : list FSMData) (items : Stmts)
    (fragment : Ir.Fragment) : M Ir.Fragment :=
  match items with
  | [] => ret fragment
  | (domain, statements) :: items' =>
      match resolve_statements store statements with
      | None => raise KeyError
      | Some statements =>
          emit_domains store items'
            (Ir.add_drivers (lhs_signals statements) domain
               (Ir.add_statements domain statements fragment))
      end
  end.

Definition elaborate : M Ir.Fragment :=
  _flush ;;
  items <- gets _statements ;;
  store <- gets fsm_store ;;
  fragment <- emit_domains store items Ir.empty ;;
  top <- gets _top_comb_statements ;;
  generated <- gets _generated ;;
  let fragment := Ir.add_statements "comb" top fragment in
  let fragment := Ir.add_drivers (lhs_signals top) "comb" fragment in
  ret (Ir.mkFragment (Ir.statements fragment) (Ir.drivers fragment)
         (od_update generated (Ir.generated fragment))).

(** ** Builder programs

    The calls a caller makes, with the [with] bodies nested as in the
    Python text.  [COngoing fsm name] is [fsm.ongoing(name)] on the FSM
    object of frame [fsm] (the first FSM opened is frame [0]); [CRaise]
    is an exception raised by the caller's code and [CTry] a
    [try: ... except Exception: pass] around a block. *)
Inductive Cmd :=
| CAdd (domain : string) (assigns : list Statement)
| CIf (cond : Value) (body : list Cmd)
| CElif (cond : Value) (body : list Cmd)
| CElse (body : list Cmd)
| CSwitch (test : Value) (body : list Cmd)
| CCase (patterns : list Pattern) (body : list Cmd)
| CDefault (body : list Cmd)
| CFSM (init : option string) (domain name : string) (reset : option string)
    (body : list Cmd)
| CState (name : string) (body : list Cmd)
| CNext (name : string)
| COngoing (fsm : nat) (name : string)
| CRaise (tag : nat)
| CTry (body : list Cmd).

Fixpoint exec (c : Cmd) : M unit :=
  match c with
  | CAdd domain assigns =>
      depth <- gets _depth ;; _add_statement assigns domain depth
  | CIf cond body => If cond (for_each exec body)
  | CElif cond body => Elif cond (for_each exec body)
  | CElse body => Else (for_each exec body)
  | CSwitch test body => Switch test (for_each exec body)
  | CCase patterns body => Case patterns (for_each exec body)
  | CDefault body => Default (for_each exec body)
  | CFSM init domain name reset body =>
      FSM init domain name reset (fun _ => for_each exec body)
  | CState name body => State name (for_each exec body)
  | CNext name => next name
  | COngoing fsm name => ongoing fsm name ;; ret tt
  | CRaise tag => raise (UserException tag)
  | CTry body => try_except_pass (for_each exec body)
  end.

Definition run (prog : list Cmd) : M unit := for_each exec prog.

(** The state a program leaves when run on a fresh builder. *)
Definition built (prog : list Cmd) : Builder := snd (run prog Module_init).

(** ** Submodules and clock domains

    The three registries of [Module.__init__]: [_named_submodules],
    [_anon_submodules] and [_domains].  The methods that touch them touch
    no other attribute of the builder, so they have a state of their own.
    Source locations are again left out, and so is what [elaborate] does
    with the registries, which is the business of the IR container. *)

(** An object offered as a submodule, identified by a number;
    [has_elaborate] is [hasattr(submodule, "elaborate")]. *)
Record Submodule := mkSubmodule {
  sub_id : nat;
  has_elaborate : bool
}.

(** Modelled from the spec: the clock-domain object of [_cd.py], of which
    the builder reads the name only. *)
Record ClockDomain := mkClockDomain {
  cd_id : nat;
  cd_name : string
}.

(** What a caller may offer to [m.domains]: a [ClockDomain] or any other
    object ([isinstance(domain, ClockDomain)]). *)
Inductive DomainArg :=
| IsClockDomain (cd : ClockDomain)
| OtherObject.

(** The exceptions of lines 607, 613, 621, 113 and 120, 123, and 625. *)
Inductive RegistryError :=
| NotElaboratable (submodule : Submodule)
| SubmoduleExists (name : string)
| NoSubmodule (name : string)
| NotAClockDomain
| DomainNameMismatch (domain_name name : string)
| DomainExists (name : string).



Record Registries := mkRegistries {
  _named_submodules : list (string * Submodule);
  _anon_submodules : list Submodule;
  _domains : list (string * ClockDomain)
}.

(** The registries of a new [Module]. *)
Definition registries_init : Registries := mkRegistries [] [] [].

(** A call returns [None] or raises; either way it leaves a state. *)
Definition RegistryCall : Type := Registries -> option RegistryError * Registries.

Definition _add_submodule (submodule : Submodule) (name : option string) : RegistryCall :=
  fun r =>
    if negb (has_elaborate submodule) then (Some (NotElaboratable submodule), r)
    else
      match name with
      | None =>
          (None, mkRegistries (_named_submodules r) (_anon_submodules r ++ [submodule])
                   (_domains r))
      | Some name =>
          if od_mem name (_named_submodules r) then (Some (SubmoduleExists name), r)
          else
            (None, mkRegistries (od_set name submodule (_named_submodules r))
                     (_anon_submodules r) (_domains r))
      end.


Definition _add_domain (cd : ClockDomain) : RegistryCall :=
  fun r =>
    if od_mem (cd_name cd) (_domains r) then (Some (DomainExists (cd_name cd)), r)
    else
      (None, mkRegistries (_named_submodules r) (_anon_submodules r)
               (od_set (cd_name cd) cd (_domains r))).

(** A [for] loop over calls: it stops at the first one that raises. *)
Fixpoint each_call {A} (f : A -> RegistryCall) (l : list A) : RegistryCall :=
  fun r =>
    match l with
    | [] => (None, r)
    | x :: l' =>
        match f x r with
        | (None, r') => each_call f l' r'
        | (Some e, r') => (Some e, r')
        end
    end.

(** [m.submodules += modules], where [modules] is the list that
    [flatten([modules])] yields. *)
Definition submodules_iadd (modules : list Submodule) : RegistryCall :=
  each_call (fun module => _add_submodule module None) modules.

(** [m.submodules.<name> = submodule] and [m.submodules[name] = submodule] *)
Definition submodules_setattr (name : string) (submodule : Submodule) : RegistryCall :=
  _add_submodule submodule (Some name).


(** [m.domains += domains], where [domains] is the list that
    [flatten([domains])] yields. *)
Definition domains_iadd (domains : list DomainArg) : RegistryCall :=
  each_call (fun domain =>
          match domain with
          | IsClockDomain cd => _add_domain cd
          | OtherObject => fun r => (Some NotAClockDomain, r)
          end) domains.

(** [m.domains.<name> = domain] *)
Definition domains_setattr (name : string) (domain : DomainArg) : RegistryCall :=
  match domain with
  | OtherObject => fun r => (Some NotAClockDomain, r)
  | IsClockDomain cd =>
      if decide (cd_name cd = name) then _add_domain cd
      else fun r => (Some (DomainNameMismatch (cd_name cd) name), r)
  end.

(** The calls a caller makes on the two registries, and a run of them in
    which the caller catches every exception and goes on. *)
Inductive RegistryOp :=
| AddSubmodules (modules : list Submodule)
| SetSubmodule (name : string) (submodule : Submodule)
| AddDomains (domains : list DomainArg)
| SetDomain (name : string) (domain : DomainArg).

Definition registry_call (op : RegistryOp) : RegistryCall :=
  match op with
  | AddSubmodules modules => submodules_iadd modules
  | SetSubmodule name submodule => submodules_setattr name submodule
  | AddDomains domains => domains_iadd domains
  | SetDomain name domain => domains_setattr name domain
  end.

Definition registries_after (ops : list RegistryOp) (r : Registries) : Registries :=
  foldl (fun r op => snd (registry_call op r)) r ops.

(** * Vocabulary of the properties

    The predicates, the reference functions and the example builders
    that the statements below are written with. *)

(** [preserves P c]: whatever [c] returns, it leaves [P] true. *)
Definition preserves {A} (P : Builder -> Prop) (c : M A) : Prop :=
  forall m, P m -> P (snd (c m)).

(** [keeps p c]: [c] never changes the attribute [p]. *)
Abbreviation keeps p c := (forall v, preserves (fun m => p m = v) c).

(** [enters k c]: entering a construct adds [k] to the depth, and leaves
    the depth alone when the entry raises. *)
Definition enters (k : nat) (c : M Locals) : Prop :=
  forall m,
    match c m with
    | (Ok _, m1) => _depth m1 = k + _depth m
    | (Err _, m1) => _depth m1 = _depth m
    end.

(** The commands nested directly in a command. *)
Definition body_of (c : Cmd) : list Cmd :=
  match c with
  | CIf _ body | CElif _ body | CElse body | CSwitch _ body | CCase _ body
  | CDefault body | CFSM _ _ _ _ body | CState _ body | CTry body => body
  | CAdd _ _ | CNext _ | COngoing _ _ | CRaise _ => []
  end.

(** [pops n]: [_pop_ctrl] called [n] times in a row. *)
Fixpoint pops (n : nat) : M unit :=
  match n with
  | O => ret tt
  | S n' => _pop_ctrl ;; pops n'
  end.

(** The stack with every frame beyond the current depth removed. *)
Definition flushed_stack (m : Builder) : list (CtrlName * nat) :=
  drop (length (_ctrl_stack m) - _depth m) (_ctrl_stack m).

(** The encoding dictionary of the FSM frame [fsm]. *)
Definition encoding_of (m : Builder) (fsm : nat) : list (string * nat) :=
  from_option fsm_encoding [] (fsm_store m !! fsm).

(** [raises_only ok c]: whenever [c] raises, the error satisfies [ok]. *)
Definition raises_only {A} (ok : Error -> Prop) (c : M A) : Prop :=
  forall m e, fst (c m) = Err e -> ok e.

(** An error other than a [NameError]. *)
Definition not_name_error (e : Error) : Prop :=
  match e with
  | NameError _ => False
  | _ => True
  end.

(** The builder inside [with m.FSM():] and inside [with m.State("A"):]. *)
Definition in_fsm : Builder := snd (FSM_enter None "sync" "fsm" None Module_init).
Definition in_state_A : Builder := snd (State_enter "A" in_fsm).

(** The builder after a [Case] whose body and closing flush returned. *)
Definition Case_result (l : Locals) (m3 : Builder) : Builder :=
  set_statements (_outer_case l) (set_ctrl_context (Some CtxSwitch) m3).

(** The frame [r] holds the body [stmts] under the pattern tuple [ps]. *)
Definition registered (r : nat) (ps : list Pat) (stmts : Stmts) (m : Builder) : Prop :=
  exists data,
    switch_store m !! r = Some data /\ od_get ps (switch_cases data) = Some stmts.

(** The signals of the examples: [a], [b] and [y] of one bit, [x] of two. *)
Definition sig_a : Signal := mkSignal (UserSig 0) "a" (unsigned 1) 0.
Definition sig_b : Signal := mkSignal (UserSig 1) "b" (unsigned 1) 0.
Definition sig_y : Signal := mkSignal (UserSig 2) "y" (unsigned 1) 0.
Definition sig_x2 : Signal := mkSignal (UserSig 3) "x" (unsigned 2) 0.
Definition y_is (n : Z) : Statement := eq_ sig_y (Const n 1).

(** Inside [with m.Switch(x):] for a two-bit [x], after
    [with m.Case("01"): m.d.comb += y.eq(1)]. *)
Definition in_switch : Builder := snd (Switch_enter (Sig sig_x2) Module_init).
Definition after_case_01 : Builder :=
  snd (exec (CCase [PStr "01"] [CAdd "comb" [y_is 1]]) in_switch).

(** [pattern_len > len(switch_data["test"])] *)
Definition too_wide (width : nat) (v : Z) : bool := width <? pattern_len v.

(** A pattern the loop of [Case] does not reject. *)
Definition pattern_ok (width : nat) (p : Pattern) : bool :=
  match p with
  | PStr s => str_all pattern_char s && (stripped_len s =? width)
  | PConst _ => true
  | PObject => false
  end.

(** What a pattern adds to [new_patterns]. *)
Definition kept (width : nat) (p : Pattern) : list Pat :=
  match p with
  | PStr s => [PatStr s]
  | PConst v => if too_wide width v then [] else [PatInt v]
  | PObject => []
  end.

(** The warnings a pattern causes. *)
Definition diagnostics (width : nat) (p : Pattern) : list Warning :=
  match p with
  | PConst v =>
      if too_wide width v then [CasePatternTooWide v (pattern_len v) width] else []
  | _ => []
  end.

(** The constructs that capture the accumulator on entry. *)
Inductive Capturing :=
| KIf (cond : Value)
| KElif (cond : Value)
| KElse
| KCase (patterns : list Pattern)
| KDefault
| KState (name : string).

(** The entry of such a construct, and the command that runs it. *)
Definition enter_of (k : Capturing) : M Locals :=
  match k with
  | KIf cond => If_enter cond
  | KElif cond => Elif_enter cond
  | KElse => Else_enter
  | KCase patterns => Case_enter patterns
  | KDefault => Default_enter
  | KState name => State_enter name
  end.

Definition cmd_of (k : Capturing) (body : list Cmd) : Cmd :=
  match k with
  | KIf cond => CIf cond body
  | KElif cond => CElif cond body
  | KElse => CElse body
  | KCase patterns => CCase patterns body
  | KDefault => CDefault body
  | KState name => CState name body
  end.

(** [If], [Elif] and [Else] add one to the depth while their body runs. *)
Definition deepens (k : Capturing) : nat :=
  match k with
  | KIf _ | KElif _ | KElse => 1
  | KCase _ | KDefault | KState _ => 0
  end.

(** [captures c]: the [_outer_case] that [c] returns is the accumulator
    it was called with. *)
Definition captures (c : M Locals) : Prop :=
  forall m l m1, c m = (Ok l, m1) -> _outer_case l = _statements m.

(** After [m.d.comb += y.eq(0)] on a fresh builder. *)
Definition after_add : Builder := built [CAdd "comb" [y_is 0]].

(** Bit [j] of a pattern: patterns are written most significant bit
    first, so bit [0] is the last character. *)
Definition pattern_bit (p : string) (j : nat) : option ascii :=
  if j <? String.length p then String.get (String.length p - 1 - j) p else None.

(** [if len(if_test) != 1: if_test = if_test.bool()] *)
Definition to_bit (t : Value) : Value :=
  if decide (len t = 1) then t else bool_ t.

(** The cases of the branch node, as the specification words them: branch [i]
    carries the pattern of priority [i], and the body that comes after
    the last test is the default. *)
Fixpoint branch_cases (n : nat) (domain : string) (i : nat) (bodies : list Stmts)
    : list (CaseKey * list Statement) :=
  match bodies with
  | [] => []
  | [else_body] => [(KeyNone, stmts_get domain else_body)]
  | body :: rest =>
      (KeyStr (if_match (S i) n), stmts_get domain body)
        :: branch_cases n domain (S i) rest
  end.

(** The builder just before [Else] pops the frame of
    [with m.If(a): m.d.comb += y.eq(1)] / [with m.Else(): m.d.comb += y.eq(0)]. *)
Definition before_else_pop : Builder :=
  snd (with_ Else_enter (If_leave None) If_finally no_post
         (fun _ => run [CAdd "comb" [y_is 0]])
         (built [CIf (Sig sig_a) [CAdd "comb" [y_is 1]]])).

(** After [with m.If(a): m.d.comb += y.eq(1)] on a fresh builder. *)
Definition after_if : Builder := built [CIf (Sig sig_a) [CAdd "comb" [y_is 1]]].

(** Inside a [Switch], after a [Case] whose body opened an [If] and then
    raised, the exception being caught by the caller. *)
Definition after_failed_case : Builder :=
  snd (exec (CTry [CCase [PConst 1] [CIf (Sig sig_a) []; CRaise 0]]) in_switch).

(** Signals that the domain may drive: not driven yet, or driven by it. *)
Definition drivable (domain : string) (m : Builder) (signal : Signal) : Prop :=
  _driving m !! sig_id signal = None \/ _driving m !! sig_id signal = Some domain.





(** Every name with an encoding has an ongoing indicator, and conversely:
    the two dictionaries are only ever extended together. *)
Definition indicators_match (m : Builder) : Prop :=
  forall r data,
    fsm_store m !! r = Some data ->
    od_keys (fsm_ongoing data) = od_keys (fsm_encoding data).

(** The body of an FSM with the states ["B"], which moves to ["A"], and
    ["A"]. *)
Definition fsm_B_A : list Cmd := [CState "B" [CNext "A"]; CState "A" []].

(** The builder just before that FSM, in the domain ["sync"], pops its
    frame. *)
Definition before_fsm_pop : Builder :=
  snd (with_ (FSM_enter (Some "A"%string) "sync" "fsm" None) FSM_leave Switch_finally
         no_post (fun _ => run fsm_B_A) Module_init).


(** The builder [elaborate] leaves for it. *)
Definition fsm_B_A_elaborated : Builder :=
  Eval vm_compute in
    snd (elaborate (built [CFSM (Some "A"%string) "sync" "fsm" None fsm_B_A])).

(** An FSM whose initial state is set to ["A"] and which declares ["B"]
    before ["A"]. *)
Definition fsm_init_A : list Cmd :=
  [CFSM (Some "A"%string) "sync" "fsm" None [CState "B" []; CState "A" []]].

(** An FSM without [init] whose first declared state ["A"] comes after
    an [ongoing("B")]. *)
Definition fsm_ongoing_first : list Cmd :=
  [CFSM None "sync" "fsm" None [COngoing 0 "B"; CState "A" []; CState "B" []]].

(** The reset value of the state signal of frame [fsm]. *)
Definition state_init (m : Builder) (fsm : nat) : option nat :=
  data ← fsm_store m !! fsm; signal ← fsm_signal data; Some (sig_init signal).

(** [reaches c1 c]: when [c] returns the context is [c1], and when it
    raises the context is the one it was called with. *)
Definition reaches {A} (c1 : option Context) (c : M A) : Prop :=
  forall m,
    match c m with
    | (Ok _, m1) => _ctrl_context m1 = c1
    | (Err _, m1) => _ctrl_context m1 = _ctrl_context m
    end.

(** [switches c0 c1 c]: [c] returns only when called in the context [c0],
    and then leaves the context [c1]; when it raises it leaves the context
    alone. *)
Definition switches {A} (c0 c1 : option Context) (c : M A) : Prop :=
  forall m,
    match c m with
    | (Ok _, m1) => _ctrl_context m = c0 /\ _ctrl_context m1 = c1
    | (Err _, m1) => _ctrl_context m1 = _ctrl_context m
    end.

(** The name a construct passes to [_check_context] and the context it
    asks for (lines 263, 287, 307, 326, 344, 399, 419 and 457). *)
Definition construct_of (c : Cmd) : option (string * option Context) :=
  match c with
  | CIf _ _ => Some ("If"%string, None)
  | CElif _ _ => Some ("Elif"%string, None)
  | CElse _ => Some ("Else"%string, None)
  | CSwitch _ _ => Some ("Switch"%string, None)
  | CCase _ _ => Some ("Case"%string, Some CtxSwitch)
  | CDefault _ => Some ("Default"%string, Some CtxSwitch)
  | CFSM _ _ _ _ _ => Some ("FSM"%string, None)
  | CState _ _ => Some ("FSM State"%string, Some CtxFSM)
  | CAdd _ _ | CNext _ | COngoing _ _ | CRaise _ | CTry _ => None
  end.

(** A statement with no [FSMNextStatement] in it, the one late-bound
    statement of [_dsl.py]. *)
Fixpoint late_bound_free (s : Statement) : bool :=
  match s with
  | FSMNextStatement _ _ => false
  | Ast.Switch _ cases => forallb (fun c => forallb late_bound_free (snd c)) cases
  | Assign _ _ | Property _ _ => true
  end.

(** [numbered d]: the dictionary gives its keys the numbers [0], [1], ...
    in the order of insertion. *)
Definition numbered (d : list (string * nat)) : Prop :=
  map snd d = seq 0 (length d) /\ NoDup (od_keys d).

(** [frames Q m]: every FSM frame of the store satisfies [Q]. *)
Definition frames (Q : FSMData -> Prop) (m : Builder) : Prop :=
  forall r data, fsm_store m !! r = Some data -> Q data.

(** The frame of the FSM of [fsm_init_A] when it has been built. *)
Definition fsm_init_A_frame : FSMData :=
  Eval vm_compute in
    default (mkFSMData "" None "" [] [] [] [] None) (fsm_store (built fsm_init_A) !! 0).

(** The frame of the FSM with the states ["B"] and ["A"] just before it
    is popped, and the builder just after. *)
Definition before_fsm_pop_frame : FSMData :=
  Eval vm_compute in
    default (mkFSMData "" None "" [] [] [] [] None) (fsm_store before_fsm_pop !! 0).

Definition after_fsm_pop : Builder :=
  Eval vm_compute in snd (_pop_ctrl before_fsm_pop).

(** [with m.FSM(init="IDLE"): with m.State("A"): pass] *)
Definition fsm_unknown_init : M unit :=
  FSM (Some "IDLE"%string) "sync" "fsm" None (fun _ => run [CState "A" []]).

(** The error the loop of [Case] raises for a pattern (lines 353 to 370):
    a string with a character outside ["01- \t"], then a string of the
    wrong width, and an object [Const.cast] rejects. *)
Definition pattern_error (width : nat) (p : Pattern) : option SyntaxMsg :=
  match p with
  | PStr s =>
      if negb (str_all pattern_char s) then Some (CasePatternChars s)
      else if negb (stripped_len s =? width) then Some (CasePatternWidth s width)
      else None
  | PConst _ => None
  | PObject => Some CasePatternNotCastable
  end.


(** The builder just before [Switch] pops the frame of
    [with m.Switch(x):] / [with m.Case("01"): m.d.comb += y.eq(1)] /
    [with m.Default(): m.d.sync += b.eq(0)]. *)
Definition before_switch_pop : Builder :=
  snd (with_ (Switch_enter (Sig sig_x2)) no_post Switch_finally no_post
         (fun _ => run [CCase [PStr "01"] [CAdd "comb" [y_is 1]];
                        CDefault [CAdd "sync" [eq_ sig_b (Const 0 1)]]])
         Module_init).

(** The [d] frames at the bottom of the stack: the frames of the [d]
    constructs that are open. *)
Definition base (d : nat) (stack : list (CtrlName * nat)) : list (CtrlName * nat) :=
  drop (length stack - d) stack.

(** Every [If] frame sits at the height its ["depth"] field records. *)
Fixpoint placed (store : list IfData) (stack : list (CtrlName * nat)) : Prop :=
  match stack with
  | [] => True
  | (name, r) :: rest =>
      (name = NameIf ->
       exists data, store !! r = Some data /\ if_depth data = length rest)
      /\ placed store rest
  end.

(** The contents of the [If] frames of a stack. *)
Definition frames_of (store : list IfData) (stack : list (CtrlName * nat))
    : list (option IfData) :=
  map (fun f => match fst f with NameIf => store !! snd f | _ => None end) stack.

(** There are at least as many frames as open constructs, and the [If]
    frames are in place. *)
Definition well_bracketed (m : Builder) : Prop :=
  _depth m <= length (_ctrl_stack m) /\ placed (if_store m) (_ctrl_stack m).

(** The invariant of a call made at nesting depth [D] or deeper: the
    stack is well bracketed, its [D] bottom frames are [b], and the [If]
    frames among them hold [contents]. *)
Definition Inv (D : nat) (b : list (CtrlName * nat)) (contents : list (option IfData))
    (m : Builder) : Prop :=
  D <= _depth m
  /\ well_bracketed m
  /\ base D (_ctrl_stack m) = b
  /\ frames_of (if_store m) b = contents.

(** The attributes the invariant talks about. *)
Abbreviation core :=
  (fun m : Builder => (_depth m, _ctrl_stack m, if_store m)).

(** What entering a construct does to the invariant: [k] is what it adds
    to the depth and [G] what else it tells. *)
Definition enter_spec (k : nat) (G : nat -> Locals -> Builder -> Prop)
    (enter : M Locals) : Prop :=
  forall D b s m,
    Inv D b s m ->
    match enter m with
    | (Ok l, m1) => Inv D b s m1 /\ _depth m1 = k + _depth m /\ G (_depth m) l m1
    | (Err _, m1) => Inv D b s m1
    end.

(** The frame of the construct is an [If] frame on top of the frames of
    the [d] constructs that enclose it. *)
Definition on_top (d : nat) (l : Locals) (m : Builder) : Prop :=
  exists rest, _ctrl_stack m = (NameIf, ctrl_data l) :: rest /\ length rest = d.

Definition anywhere (d : nat) (l : Locals) (m : Builder) : Prop := True.

(** Inside the body of [with m.If(a):], a nested chain
    [with m.If(b): m.d.comb += y.eq(1)] / [with m.Else(): pass]: the outer
    frame is still the only one on the stack, with no test recorded yet. *)
Definition in_if : Builder := snd (If_enter (Sig sig_a) Module_init).





(** The cases of the branch node of a chain without [Else]: branch [i]
    carries the pattern of priority [i]. *)
Definition test_cases (n : nat) (domain : string) (i : nat) (bodies : list Stmts)
    : list (CaseKey * list Statement) :=
  imap (fun j body => (KeyStr (if_match (S (i + j)) n), stmts_get domain body)) bodies.

(** The frame [r] of a [Switch] holds [data], and no frame above the [D]
    bottom frames of the stack is that frame. *)
Definition switch_kept (D r : nat) (data : SwitchData) (m : Builder) : Prop :=
  switch_store m !! r = Some data
  /\ Forall (fun f => f <> (NameSwitch, r))
       (take (length (_ctrl_stack m) - D) (_ctrl_stack m)).

(** Directly inside a [Switch], that [Switch] is nested deeper than [D]. *)
Definition switch_inner (D : nat) (m : Builder) : Prop :=
  _ctrl_context m = Some CtxSwitch -> D < _depth m.

(** The attributes [switch_kept] talks about. *)
Abbreviation switch_core :=
  (fun m : Builder => (_ctrl_stack m, switch_store m)).

(** In the frame [r] of an FSM, the state [name] has the number [n] and
    the indicator signal [sig]. *)
Definition state_bound (r : nat) (name : string) (n : nat) (sig : Signal)
    (m : Builder) : Prop :=
  exists data,
    fsm_store m !! r = Some data
    /\ od_get name (fsm_encoding data) = Some n
    /\ od_get name (fsm_ongoing data) = Some sig.

(** * Properties *)

(** ** Reasoning about computations *)

Lemma bind_ok {A B} (c : M A) (k : A -> M B) m a m' :
  c m = (Ok a, m') -> bind c k m = k a m'.
Proof. intros H. unfold bind. now rewrite H. Qed.

Lemma bind_err {A B} (c : M A) (k : A -> M B) m e m' :
  c m = (Err e, m') -> bind c k m = (Err e, m').
Proof. intros H. unfold bind. now rewrite H. Qed.

Lemma bind_inv_ok {A B} (c : M A) (k : A -> M B) m b m' :
  bind c k m = (Ok b, m') ->
  exists a m1, c m = (Ok a, m1) /\ k a m1 = (Ok b, m').
Proof.
  unfold bind. destruct (c m) as [[a|e] m1]; intros H; [eauto | discriminate].
Qed.

Lemma keeps_eq {A B} (p : Builder -> B) (c : M A) :
  keeps p c -> forall m, p (snd (c m)) = p m.
Proof. intros H m. now apply (H (p m) m). Qed.

Section Preserves.
Variable P : Builder -> Prop.

Lemma preserves_ret {A} (a : A) : preserves P (ret a).
Proof. intros m H. exact H. Qed.

Lemma preserves_raise {A} e : preserves P (@raise A e).
Proof. intros m H. exact H. Qed.

Lemma preserves_gets {A} (f : Builder -> A) : preserves P (gets f).
Proof. intros m H. exact H. Qed.

Lemma preserves_modify f : (forall m, P m -> P (f m)) -> preserves P (modify f).
Proof. intros Hf m H. now apply Hf. Qed.

Lemma preserves_load {A} (store : Builder -> list A) r : preserves P (load store r).
Proof. intros m H. unfold load. now destruct (store m !! r). Qed.

Lemma preserves_od_index {K V} `{EqDecision K} (k : K) (d : list (K * V)) :
  preserves P (od_index k d).
Proof. intros m H. unfold od_index. now destruct (od_get k d). Qed.

Lemma preserves_check_context construct context :
  preserves P (_check_context construct context).
Proof.
  intros m H. unfold _check_context.
  destruct (decide _); [exact H|]. now destruct (_ctrl_context m).
Qed.

Lemma preserves_new_if d :
  (forall m v, P m -> P (set_if_store v m)) -> preserves P (new_if d).
Proof. intros Hs m H. now apply Hs. Qed.

Lemma preserves_new_switch d :
  (forall m v, P m -> P (set_switch_store v m)) -> preserves P (new_switch d).
Proof. intros Hs m H. now apply Hs. Qed.

Lemma preserves_new_fsm d :
  (forall m v, P m -> P (set_fsm_store v m)) -> preserves P (new_fsm d).
Proof. intros Hs m H. now apply Hs. Qed.

Lemma preserves_bind {A B} (c : M A) (k : A -> M B) :
  preserves P c -> (forall a, preserves P (k a)) -> preserves P (bind c k).
Proof.
  intros Hc Hk m H. unfold bind.
  specialize (Hc m H). destruct (c m) as [[a|e] m1]; simpl in *.
  - now apply Hk.
  - exact Hc.
Qed.

Lemma preserves_for_each {A} (f : A -> M unit) l :
  (forall a, preserves P (f a)) -> preserves P (for_each f l).
Proof.
  intros Hf. induction l as [|x l IH]; simpl.
  - apply preserves_ret.
  - apply preserves_bind; auto.
Qed.

Lemma preserves_while fuel cond body :
  preserves P body -> preserves P (while_ fuel cond body).
Proof.
  intros Hb. induction fuel as [|n IH]; simpl.
  - apply preserves_ret.
  - intros m H. destruct (cond m); [|exact H].
    apply (preserves_bind body (fun _ => while_ n cond body)); auto.
Qed.

Lemma preserves_try_finally body fin :
  preserves P body -> preserves P fin -> preserves P (try_finally body fin).
Proof.
  intros Hb Hf m H. unfold try_finally.
  specialize (Hb m H). destruct (body m) as [r m1]; simpl in *.
  specialize (Hf m1 Hb). now destruct (fin m1) as [[|] m2].
Qed.

Lemma preserves_try_except_pass body :
  preserves P body -> preserves P (try_except_pass body).
Proof. intros Hb m H. now apply Hb. Qed.

Lemma preserves_drive domain signal :
  (forall m v, P m -> P (set_driving v m)) -> preserves P (drive domain signal).
Proof.
  intros Hs m H. unfold drive.
  destruct (_driving m !! sig_id signal) as [cd|]; [now destruct (decide _)|].
  now apply Hs.
Qed.

Lemma preserves_pop_ctrl :
  (forall m v, P m -> P (set_ctrl_stack v m)) ->
  (forall r, preserves P (pop_If r)) ->
  (forall r, preserves P (pop_Switch r)) ->
  (forall r, preserves P (pop_FSM r)) ->
  preserves P _pop_ctrl.
Proof.
  intros Hs Hi Hw Hf m H. unfold _pop_ctrl.
  destruct (_ctrl_stack m) as [|[name data] rest]; [exact H|].
  revert m H.
  apply (preserves_bind (modify (set_ctrl_stack rest))).
  - apply preserves_modify. intros m H. now apply Hs.
  - intros _. destruct name; auto.
Qed.

Lemma preserves_flush_ctrl : preserves P _pop_ctrl -> preserves P _flush_ctrl.
Proof. intros Hp m H. unfold _flush_ctrl. now apply preserves_while. Qed.

Lemma preserves_flush : preserves P _pop_ctrl -> preserves P _flush.
Proof. intros Hp m H. unfold _flush. now apply preserves_while. Qed.

Lemma preserves_with enter leave fin post body :
  preserves P enter ->
  (forall l, preserves P (body l)) ->
  (forall l, preserves P (leave l)) ->
  (forall l, preserves P (fin l)) ->
  (forall l, preserves P (post l)) ->
  preserves P (with_ enter leave fin post body).
Proof.
  intros He Hb Hl Hf Hp. unfold with_.
  apply preserves_bind; [exact He|]. intros l.
  apply preserves_bind; [|auto].
  apply preserves_try_finally; [|auto].
  apply preserves_bind; auto.
Qed.
End Preserves.

Lemma preserves_encode_cases P encoding domain_states cases :
  preserves P (encode_cases encoding domain_states cases).
Proof.
  revert cases. induction domain_states as [|[name stmts] rest IH]; intros cases; simpl.
  - apply preserves_ret.
  - apply preserves_bind; [apply preserves_od_index | intros n; apply IH].
Qed.

Lemma preserves_case_patterns P width patterns acc :
  (forall m w, P m -> P (set_warnings w m)) ->
  preserves P (case_patterns width patterns acc).
Proof.
  intros Hw. revert acc.
  induction patterns as [|[s|v|] rest IH]; intros acc; simpl.
  - apply preserves_ret.
  - destruct (negb _); [apply preserves_raise|].
    destruct (negb _); [apply preserves_raise | apply IH].
  - destruct (_ <? _); [|apply IH].
    apply preserves_bind; [|intros _; apply IH].
    apply preserves_modify. intros m H. now apply Hw.
  - apply preserves_raise.
Qed.

(** Proven preservation lemmas are collected here. *)
Create HintDb pres.

Ltac unfold_setters :=
  unfold set_statements, set_ctrl_context, set_ctrl_stack,
    set_top_comb_statements, set_driving, set_generated, set_depth,
    set_if_store, set_switch_store, set_fsm_store, set_warnings in *.

Ltac head_of t :=
  lazymatch t with
  | ?f _ => head_of f
  | _ => t
  end.

Ltac pres_setter :=
  cbv beta in *; first [solve [auto] | unfold_setters; simpl in *; solve [auto]].

Ltac pres_step :=
  first
    [ assumption
    | solve [auto 2 with pres nocore]
    | lazymatch goal with
      | |- preserves _ (ret _) => apply preserves_ret
      | |- preserves _ (raise _) => apply preserves_raise
      | |- preserves _ (gets _) => apply preserves_gets
      | |- preserves _ (load _ _) => apply preserves_load
      | |- preserves _ (od_index _ _) => apply preserves_od_index
      | |- preserves _ (bind _ _) => apply preserves_bind; [| intros ?]
      | |- preserves _ (for_each _ _) => apply preserves_for_each; intros ?
      | |- preserves _ (try_finally _ _) => apply preserves_try_finally
      | |- preserves _ (try_except_pass _) => apply preserves_try_except_pass
      | |- preserves _ (while_ _ _ _) => apply preserves_while
      | |- preserves _ (with_ _ _ _ _ _) =>
          apply preserves_with; [| intros ? | intros ? | intros ? | intros ?]
      | |- preserves _ (modify _) =>
          apply preserves_modify; intros ? ?; pres_setter
      | |- preserves _ (_check_context _ _) => apply preserves_check_context
      | |- preserves _ (new_if _) =>
          apply preserves_new_if; intros ? ? ?; pres_setter
      | |- preserves _ (new_switch _) =>
          apply preserves_new_switch; intros ? ? ?; pres_setter
      | |- preserves _ (new_fsm _) =>
          apply preserves_new_fsm; intros ? ? ?; pres_setter
      | |- preserves _ (drive _ _) =>
          apply preserves_drive; intros ? ? ?; pres_setter
      | |- preserves _ _pop_ctrl =>
          apply preserves_pop_ctrl;
          [intros ? ? ?; pres_setter | intros ? | intros ? | intros ?]
      | |- preserves _ _flush_ctrl => apply preserves_flush_ctrl
      | |- preserves _ _flush => apply preserves_flush
      | |- preserves _ (encode_cases _ _ _) => apply preserves_encode_cases
      | |- preserves _ (case_patterns _ _ _) =>
          apply preserves_case_patterns; intros ? ? ?; pres_setter
      | |- preserves _ (add_one _ ?stmt) => destruct stmt; simpl
      | |- preserves _ (if ?b then _ else _) => destruct b
      | |- preserves _ (match ?x with _ => _ end) => destruct x
      | |- preserves _ ?c => let h := head_of c in progress unfold h
      end ].

Ltac pres := repeat pres_step.

Ltac keeps_tac := intros ?; pres.

(** *** The nesting depth *)

Lemma keeps_depth_pop_ctrl : keeps _depth _pop_ctrl.
Proof. keeps_tac. Qed.
#[local] Hint Resolve keeps_depth_pop_ctrl : pres.

Lemma keeps_depth_flush_ctrl : keeps _depth _flush_ctrl.
Proof. keeps_tac. Qed.

Lemma keeps_depth_add_statement assigns domain depth :
  keeps _depth (_add_statement assigns domain depth).
Proof. keeps_tac. Qed.

Lemma enters_bind {A} (c : M A) (f : A -> M Locals) k :
  keeps _depth c -> (forall a, enters k (f a)) -> enters k (bind c f).
Proof.
  intros Hc Hf m. unfold bind.
  pose proof (keeps_eq _ _ Hc m) as E.
  destruct (c m) as [[a|e] m1]; simpl in E.
  - specialize (Hf a m1). destruct (f a m1) as [[l|e] m2]; congruence.
  - exact E.
Qed.

Lemma enters_incr l : enters 1 (incr_depth ;; ret l).
Proof. intros m. reflexivity. Qed.

Lemma enters_context c l : enters 0 (modify (set_ctrl_context c) ;; ret l).
Proof. intros m. reflexivity. Qed.

Ltac enters_tac :=
  repeat first
    [ apply enters_incr
    | apply enters_context
    | apply enters_bind; [keeps_tac | intros ?] ].

Lemma with_keeps_depth k enter leave fin post body :
  enters k enter ->
  (forall l, keeps _depth (body l)) ->
  (forall l, keeps _depth (leave l)) ->
  (forall l m, _depth (snd (fin l m)) = _depth m - k) ->
  (forall l, keeps _depth (post l)) ->
  keeps _depth (with_ enter leave fin post body).
Proof.
  intros He Hb Hl Hf Hp v m H. unfold with_, bind at 1 2.
  specialize (He m). destruct (enter m) as [[l|e] m1]; simpl; [|congruence].
  unfold try_finally.
  assert (E2 : _depth (snd ((body l ;; leave l) m1)) = _depth m1).
  { apply keeps_eq. intros w. apply preserves_bind; [apply Hb | intros _; apply Hl]. }
  destruct ((body l ;; leave l) m1) as [r m2]; simpl in E2.
  specialize (Hf l m2).
  destruct (fin l m2) as [[[]|e] m3]; simpl in *; [destruct r as [[]|e]|]; simpl.
  - rewrite (keeps_eq _ _ (Hp l)). lia.
  - lia.
  - lia.
Qed.

(** *** Induction on programs *)

Lemma Cmd_body_ind (P : Cmd -> Prop) :
  (forall c, Forall P (body_of c) -> P c) -> forall c, P c.
Proof.
  intros step. fix IH 1. intros c. apply step.
  destruct c; simpl; try apply List.Forall_nil;
    (induction body as [|c' cs IHcs];
     [apply List.Forall_nil | apply List.Forall_cons; [apply IH | exact IHcs]]).
Qed.

Lemma preserves_run P prog :
  Forall (fun c => preserves P (exec c)) prog -> preserves P (run prog).
Proof.
  unfold run. induction 1 as [|c cs Hc _ IH]; simpl.
  - apply preserves_ret.
  - apply preserves_bind; auto.
Qed.

Ltac with_depth k enter :=
  apply (with_keeps_depth k);
  [ unfold enter; enters_tac
  | intros ? ?; auto
  | intros ? ?; pres
  | intros ? ?; simpl; lia
  | intros ? ?; pres ].

Lemma keeps_depth_exec c : keeps _depth (exec c).
Proof.
  induction c as [c IH] using Cmd_body_ind.
  assert (Hbody : keeps _depth (for_each exec (body_of c))).
  { intros v. apply preserves_run. eapply Forall_impl; [exact IH|]. intros c' H; apply H. }
  destruct c; simpl in Hbody; simpl exec.
  - keeps_tac.
  - with_depth 1 If_enter.
  - with_depth 1 Elif_enter.
  - with_depth 1 Else_enter.
  - with_depth 1 Switch_enter.
  - with_depth 0 Case_enter.
  - with_depth 0 Default_enter.
  - with_depth 1 FSM_enter.
  - with_depth 0 State_enter.
  - keeps_tac.
  - keeps_tac.
  - keeps_tac.
  - intros v. apply preserves_try_except_pass, Hbody.
Qed.

Lemma keeps_depth_run prog : keeps _depth (run prog).
Proof.
  intros v. apply preserves_run, Forall_forall. intros c _. apply keeps_depth_exec.
Qed.

(** *** The three ways through a [with] statement *)

Lemma with_enter_raises enter leave fin post body m e m1 :
  enter m = (Err e, m1) ->
  with_ enter leave fin post body m = (Err e, m1).
Proof. intros H. unfold with_. now rewrite (bind_err _ _ _ _ _ H). Qed.

Lemma with_body_raises enter leave fin post body m l m1 e m2 m3 :
  enter m = (Ok l, m1) ->
  body l m1 = (Err e, m2) ->
  fin l m2 = (Ok tt, m3) ->
  with_ enter leave fin post body m = (Err e, m3).
Proof.
  intros He Hb Hf. unfold with_. rewrite (bind_ok _ _ _ _ _ He).
  unfold bind at 1, try_finally. rewrite (bind_err _ _ _ _ _ Hb), Hf. reflexivity.
Qed.

Lemma with_leave_raises enter leave fin post body m l m1 m2 e m3 m4 :
  enter m = (Ok l, m1) ->
  body l m1 = (Ok tt, m2) ->
  leave l m2 = (Err e, m3) ->
  fin l m3 = (Ok tt, m4) ->
  with_ enter leave fin post body m = (Err e, m4).
Proof.
  intros He Hb Hl Hf. unfold with_. rewrite (bind_ok _ _ _ _ _ He).
  unfold bind at 1, try_finally. rewrite (bind_ok _ _ _ _ _ Hb), Hl, Hf. reflexivity.
Qed.

Lemma with_returns enter leave fin post body m l m1 m2 m3 m4 :
  enter m = (Ok l, m1) ->
  body l m1 = (Ok tt, m2) ->
  leave l m2 = (Ok tt, m3) ->
  fin l m3 = (Ok tt, m4) ->
  with_ enter leave fin post body m = post l m4.
Proof.
  intros He Hb Hl Hf. unfold with_. rewrite (bind_ok _ _ _ _ _ He).
  unfold bind at 1, try_finally. rewrite (bind_ok _ _ _ _ _ Hb), Hl, Hf. reflexivity.
Qed.

(** *** Closing frames *)

Lemma pop_ctrl_stack m :
  _ctrl_stack (snd (_pop_ctrl m)) = tail (_ctrl_stack m).
Proof.
  unfold _pop_ctrl. destruct (_ctrl_stack m) as [|[name data] rest] eqn:E; [exact E|].
  assert (K : keeps _ctrl_stack
                (match name with
                 | NameIf => pop_If data
                 | NameSwitch => pop_Switch data
                 | NameFSM => pop_FSM data
                 end)) by keeps_tac.
  unfold bind, modify. apply (K rest). reflexivity.
Qed.

Lemma while_pops fuel (cond : Builder -> bool) (key : Builder -> nat) m :
  (forall m', cond m' = (key m' <? length (_ctrl_stack m'))) ->
  (forall m', key (snd (_pop_ctrl m')) = key m') ->
  length (_ctrl_stack m) <= fuel ->
  while_ fuel cond _pop_ctrl m = pops (length (_ctrl_stack m) - key m) m.
Proof.
  intros Hc Hk. revert m. induction fuel as [|n IH]; intros m Hlen.
  - replace (length (_ctrl_stack m) - key m) with 0 by lia. reflexivity.
  - simpl. rewrite Hc.
    destruct (Nat.ltb_spec (key m) (length (_ctrl_stack m))) as [Hlt|Hge].
    + replace (length (_ctrl_stack m) - key m)
        with (S (length (_ctrl_stack m) - 1 - key m)) by lia.
      simpl. unfold bind.
      pose proof (pop_ctrl_stack m) as Hs. pose proof (Hk m) as Hk'.
      destruct (_pop_ctrl m) as [[[]|e] m1]; simpl in Hs, Hk'; [|reflexivity].
      assert (Hl : length (_ctrl_stack m1) = length (_ctrl_stack m) - 1).
      { rewrite Hs. destruct (_ctrl_stack m); simpl; lia. }
      rewrite IH; rewrite Hl; [now rewrite Hk' | lia].
    + replace (length (_ctrl_stack m) - key m) with 0 by lia. reflexivity.
Qed.

(** [_flush_ctrl] is [_pop_ctrl] repeated once for every frame beyond
    the current depth: the fuel never runs out. *)
Lemma flush_ctrl_pops m :
  _flush_ctrl m = pops (length (_ctrl_stack m) - _depth m) m.
Proof.
  unfold _flush_ctrl. apply (while_pops _ _ _depth); auto.
  intros m'. apply (keeps_eq _depth), keeps_depth_pop_ctrl.
Qed.


Lemma pops_ok_stack n m m' :
  pops n m = (Ok tt, m') -> _ctrl_stack m' = drop n (_ctrl_stack m).
Proof.
  revert m. induction n as [|n IH]; intros m H; simpl in H.
  - injection H as <-. now rewrite drop_0.
  - apply bind_inv_ok in H as ([] & m1 & Hp & Hr).
    rewrite (IH _ Hr). pose proof (pop_ctrl_stack m) as Hs. rewrite Hp in Hs.
    simpl in Hs. rewrite Hs.
    destruct (_ctrl_stack m); simpl; [now rewrite drop_nil | reflexivity].
Qed.

Lemma flush_ctrl_noop m :
  length (_ctrl_stack m) <= _depth m -> _flush_ctrl m = (Ok tt, m).
Proof.
  intros H. rewrite flush_ctrl_pops.
  now replace (length (_ctrl_stack m) - _depth m) with 0 by lia.
Qed.

Lemma flush_ctrl_ok_stack m m' :
  _flush_ctrl m = (Ok tt, m') ->
  _ctrl_stack m' = drop (length (_ctrl_stack m) - _depth m) (_ctrl_stack m)
  /\ _depth m' = _depth m
  /\ length (_ctrl_stack m') <= _depth m'.
Proof.
  intros H. pose proof (keeps_eq _depth _ keeps_depth_flush_ctrl m) as Hd.
  rewrite H in Hd. simpl in Hd. rewrite flush_ctrl_pops in H.
  apply pops_ok_stack in H. rewrite H, Hd, length_drop. repeat split. lia.
Qed.

(** ** Opening an FSM in the combinational domain *)

Lemma set_ctrl_ok name data m m1 :
  _set_ctrl name data m = (Ok tt, m1) ->
  _ctrl_stack m1 = (name, data) :: flushed_stack m /\ _depth m1 = _depth m.
Proof.
  intros H. unfold _set_ctrl in H.
  apply bind_inv_ok in H as (u & m' & Hf & H). destruct u.
  apply flush_ctrl_ok_stack in Hf as (Hs & Hd & _).
  injection H as <-. simpl. unfold flushed_stack. now rewrite Hs, Hd.
Qed.

Lemma check_context_ok construct context m u m' :
  _check_context construct context m = (Ok u, m') ->
  m' = m /\ _ctrl_context m = context.
Proof.
  unfold _check_context. destruct (decide _) as [E|]; [intros [= _ <-]; auto|].
  destruct (_ctrl_context m); discriminate.
Qed.

Lemma FSM_enter_ok init domain name reset m l m1 :
  FSM_enter init domain name reset m = (Ok l, m1) ->
  domain <> "comb"%string
  /\ _ctrl_stack m1 = (NameFSM, ctrl_data l) :: flushed_stack m.
Proof.
  intros E. unfold FSM_enter in E.
  apply bind_inv_ok in E as (u0 & m0 & H0 & E).
  apply check_context_ok in H0 as [-> _].
  apply bind_inv_ok in E as (u1 & m2 & H1 & E).
  destruct (decide (domain = "comb"%string)) as [->|Hne]; [discriminate|].
  injection H1 as _ <-.
  apply bind_inv_ok in E as (init' & m3 & H3 & E).
  assert (Hm3 : _ctrl_stack m3 = _ctrl_stack m /\ _depth m3 = _depth m).
  { destruct reset as [r|]; [destruct init|].
    - discriminate.
    - injection H3 as _ <-. auto.
    - injection H3 as _ <-. auto. }
  destruct Hm3 as [Hs3 Hd3].
  apply bind_inv_ok in E as (fsm_data & m4 & H4 & E). injection H4 as <- <-.
  apply bind_inv_ok in E as (u5 & m5 & H5 & E). destruct u5.
  apply set_ctrl_ok in H5 as [Hs _].
  unfold incr_depth, bind, modify, ret in E. injection E as <- <-.
  split; [exact Hne|]. simpl. rewrite Hs. unfold flushed_stack. simpl.
  now rewrite Hs3, Hd3.
Qed.

(** C10: a call opening an FSM with the domain ["comb"] raises at once:
    the builder is left exactly as it was, so no frame is allocated or
    pushed and the body is never run.  With no construct pending the error
    is the [ValueError] of line 421; inside a [Switch] or [FSM] body the
    context check of line 419 raises first.  Whenever an FSM frame is
    opened, its domain is therefore not ["comb"]. *)
Theorem FSM_comb_domain_rejected init name reset body m :
  FSM init "comb" name reset body m =
    (Err match _ctrl_context m with
         | None => ValueError (FSMDomain "comb")
         | Some c => SyntaxError (NotPermittedInside "FSM" c)
         end, m)
  /\ forall domain,
       match FSM_enter init domain name reset m with
       | (Ok l, m1) =>
           domain <> "comb"%string
           /\ _ctrl_stack m1 = (NameFSM, ctrl_data l) :: flushed_stack m
       | (Err _, m1) => True
       end.
Proof.
  split.
  - apply with_enter_raises. unfold FSM_enter, bind, _check_context.
    destruct (_ctrl_context m) as [c|]; reflexivity.
  - intros domain.
    destruct (FSM_enter init domain name reset m) as [[l|e] m1] eqn:E; [|exact I].
    exact (FSM_enter_ok _ _ _ _ _ _ _ E).
Qed.

(** ** Dictionaries *)

Section OrderedDictFacts.
Context {K V : Type} `{EqDecision K}.
Implicit Types (k : K) (v : V) (d : list (K * V)).

Lemma od_get_set_eq k v d : od_get k (od_set k v d) = Some v.
Proof.
  induction d as [|[k' v'] d IH]; simpl.
  - now rewrite decide_True.
  - destruct (decide (k = k')); simpl; [now rewrite decide_True|].
    now rewrite decide_False.
Qed.

Lemma od_get_set_ne k k' v d : k <> k' -> od_get k' (od_set k v d) = od_get k' d.
Proof.
  intros Hne. induction d as [|[k1 v1] d IH]; simpl.
  - now rewrite decide_False by congruence.
  - destruct (decide (k = k1)) as [->|]; simpl.
    + now rewrite !decide_False by congruence.
    + destruct (decide (k' = k1)); [reflexivity | exact IH].
Qed.

Lemma od_mem_set_eq k v d : od_mem k (od_set k v d) = true.
Proof. unfold od_mem. now rewrite od_get_set_eq. Qed.

Lemma od_mem_spec k d : od_mem k d = true <-> k ∈ od_keys d.
Proof.
  unfold od_mem, od_keys. induction d as [|[k' v'] d IH]; simpl.
  - split; [discriminate | intros H; inversion H].
  - destruct (decide (k = k')) as [->|Hne].
    + split; [intros _; left | reflexivity].
    + rewrite IH. split; [now right|]. intros H. inversion H; congruence.
Qed.

Lemma od_mem_false k d : od_mem k d = false <-> k ∉ od_keys d.
Proof.
  rewrite <- od_mem_spec. destruct (od_mem k d); split; congruence.
Qed.

(** Assigning to a key that is absent appends the entry. *)
Lemma od_set_fresh k v d : od_mem k d = false -> od_set k v d = d ++ [(k, v)].
Proof.
  unfold od_mem. induction d as [|[k' v'] d IH]; simpl; [reflexivity|].
  destruct (decide (k = k')); [discriminate|]. intros H. now rewrite IH.
Qed.

Lemma od_get_app_l k d d' v :
  od_get k d = Some v -> od_get k (d ++ d') = Some v.
Proof.
  induction d as [|[k' v'] d IH]; simpl; [discriminate|].
  destruct (decide (k = k')); auto.
Qed.

Lemma od_get_app_r k d d' :
  od_mem k d = false -> od_get k (d ++ d') = od_get k d'.
Proof.
  unfold od_mem. induction d as [|[k' v'] d IH]; simpl; [reflexivity|].
  destruct (decide (k = k')); [discriminate | exact IH].
Qed.
End OrderedDictFacts.

(** ** States that are referenced and never defined *)

Lemma reference_state_ok fsm name m data :
  fsm_store m !! fsm = Some data ->
  exists m',
    reference_state fsm name m = (Ok tt, m')
    /\ od_mem name (encoding_of m' fsm) = true
    /\ _ctrl_stack m' = _ctrl_stack m /\ _depth m' = _depth m
    /\ _ctrl_context m' = _ctrl_context m
    /\ exists data', fsm_store m' !! fsm = Some data'
                     /\ fsm_domain data' = fsm_domain data
                     /\ (od_mem name (fsm_encoding data) = od_mem name (fsm_ongoing data) ->
                         od_mem name (fsm_ongoing data') = true).
Proof.
  intros H. unfold reference_state, bind, load. rewrite H.
  destruct (od_mem name (fsm_encoding data)) eqn:E.
  - exists m. unfold encoding_of. rewrite H. simpl.
    repeat split; auto. exists data. repeat split; auto.
  - eexists. split; [reflexivity|]. unfold encoding_of. simpl.
    rewrite list_lookup_insert_eq by (now apply lookup_lt_Some in H). simpl.
    rewrite od_mem_set_eq. repeat split; auto.
    eexists. repeat split; auto. simpl. intros _. apply od_mem_set_eq.
Qed.

(** The loop of [check_defined] raises for the first key of the encoding
    that has no body, and returns when there is none. *)
Lemma check_defined_spec fsm m data :
  fsm_store m !! fsm = Some data ->
  check_defined fsm m =
    (match List.find (fun n => negb (od_mem n (fsm_states data)))
             (od_keys (fsm_encoding data)) with
     | Some missing => Err (NameError (StateReferencedNotDefined missing))
     | None => Ok tt
     end, m).
Proof.
  intros H. unfold check_defined, bind, load. rewrite H.
  induction (od_keys (fsm_encoding data)) as [|n ns IH]; simpl; [reflexivity|].
  unfold bind. destruct (od_mem n (fsm_states data)); simpl; [exact IH | reflexivity].
Qed.

(** *** The errors a computation can raise *)

Section RaisesOnly.
Variable ok : Error -> Prop.

Lemma raises_only_ret {A} (a : A) : raises_only ok (ret a).
Proof. intros m e H. discriminate. Qed.

Lemma raises_only_raise {A} e : ok e -> raises_only ok (@raise A e).
Proof. intros H m e' [= <-]. exact H. Qed.

Lemma raises_only_gets {A} (f : Builder -> A) : raises_only ok (gets f).
Proof. intros m e H. discriminate. Qed.

Lemma raises_only_modify f : raises_only ok (modify f).
Proof. intros m e H. discriminate. Qed.

Lemma raises_only_load {A} (store : Builder -> list A) r :
  ok StoreFault -> raises_only ok (load store r).
Proof.
  intros H m e. unfold load. destruct (store m !! r); [discriminate|].
  now intros [= <-].
Qed.

Lemma raises_only_od_index {K V} `{EqDecision K} (k : K) (d : list (K * V)) :
  ok KeyError -> raises_only ok (od_index k d).
Proof.
  intros H m e. unfold od_index. destruct (od_get k d); [discriminate|].
  now intros [= <-].
Qed.

Lemma raises_only_bind {A B} (c : M A) (k : A -> M B) :
  raises_only ok c -> (forall a, raises_only ok (k a)) -> raises_only ok (bind c k).
Proof.
  intros Hc Hk m e. unfold bind. specialize (Hc m).
  destruct (c m) as [[a|e'] m1]; simpl in *; [apply Hk | intros [= <-]; now apply Hc].
Qed.

Lemma raises_only_for_each {A} (f : A -> M unit) l :
  (forall a, raises_only ok (f a)) -> raises_only ok (for_each f l).
Proof.
  intros Hf. induction l as [|x l IH]; simpl.
  - apply raises_only_ret.
  - apply raises_only_bind; auto.
Qed.

Lemma raises_only_while fuel cond body :
  raises_only ok body -> raises_only ok (while_ fuel cond body).
Proof.
  intros Hb. induction fuel as [|n IH]; simpl.
  - apply raises_only_ret.
  - intros m e. destruct (cond m); [|discriminate].
    apply (raises_only_bind body (fun _ => while_ n cond body)); auto.
Qed.

Lemma raises_only_encode_cases encoding domain_states cases :
  ok KeyError -> raises_only ok (encode_cases encoding domain_states cases).
Proof.
  intros H. revert cases.
  induction domain_states as [|[name stmts] rest IH]; intros cases; simpl.
  - apply raises_only_ret.
  - apply raises_only_bind; [now apply raises_only_od_index | intros n; apply IH].
Qed.

Lemma raises_only_drive domain signal :
  (forall cd, ok (SyntaxError (DriverConflict signal domain cd))) ->
  raises_only ok (drive domain signal).
Proof.
  intros H m e. unfold drive.
  destruct (_driving m !! sig_id signal) as [cd|]; [|discriminate].
  destruct (decide _); [discriminate|]. intros [= <-]. apply H.
Qed.

End RaisesOnly.

Ltac raises_step :=
  lazymatch goal with
  | |- raises_only _ (bind _ _) => apply raises_only_bind; [|intros ?]
  | |- raises_only _ (for_each _ _) => apply raises_only_for_each; intros ?
  | |- raises_only _ (while_ _ _ _) => apply raises_only_while
  | |- raises_only _ (ret _) => apply raises_only_ret
  | |- raises_only _ (gets _) => apply raises_only_gets
  | |- raises_only _ (modify _) => apply raises_only_modify
  | |- raises_only _ (load _ _) => apply raises_only_load
  | |- raises_only _ (od_index _ _) => apply raises_only_od_index
  | |- raises_only _ (encode_cases _ _ _) => apply raises_only_encode_cases
  | |- raises_only _ (raise _) => apply raises_only_raise
  | |- raises_only _ (match ?x with _ => _ end) => destruct x
  | |- raises_only _ (if ?x then _ else _) => destruct x
  | |- raises_only _ (let '(_, _) := ?x in _) => destruct x
  end.

Lemma pop_ctrl_no_name_error : raises_only not_name_error _pop_ctrl.
Proof.
  intros m e. unfold _pop_ctrl.
  destruct (_ctrl_stack m) as [|[name data] rest]; [now intros [= <-]|].
  revert m e.
  change (raises_only not_name_error
    (modify (set_ctrl_stack rest) ;;
     match name with
     | NameIf => pop_If data
     | NameSwitch => pop_Switch data
     | NameFSM => pop_FSM data
     end)).
  raises_step; [raises_step|].
  destruct name; unfold pop_If, pop_Switch, pop_FSM, fsm_write;
    repeat raises_step; exact I.
Qed.

Lemma flush_ctrl_no_name_error : raises_only not_name_error _flush_ctrl.
Proof.
  intros m e. unfold _flush_ctrl.
  apply (raises_only_while not_name_error), pop_ctrl_no_name_error.
Qed.

Lemma add_statement_no_name_error assigns domain depth :
  raises_only not_name_error (_add_statement assigns domain depth).
Proof.
  unfold _add_statement. raises_step; [apply flush_ctrl_no_name_error|].
  raises_step. unfold add_one, append_stmt.
  destruct a; repeat raises_step; try exact I.
  apply raises_only_drive. intros cd. exact I.
Qed.

Lemma reference_state_no_name_error fsm name :
  raises_only not_name_error (reference_state fsm name).
Proof. unfold reference_state, fsm_write. repeat raises_step; exact I. Qed.

Lemma next_no_name_error name : raises_only not_name_error (next name).
Proof.
  unfold next.
  apply raises_only_bind; [apply raises_only_gets | intros context].
  apply raises_only_bind; [apply raises_only_gets | intros stack].
  destruct (decide _); [now apply raises_only_raise|].
  destruct (innermost_fsm stack) as [ctrl_data|]; [|now apply raises_only_raise].
  apply raises_only_bind; [apply reference_state_no_name_error | intros _].
  apply raises_only_bind; [now apply raises_only_load | intros data].
  apply add_statement_no_name_error.
Qed.

Lemma ongoing_no_name_error fsm name :
  raises_only not_name_error (ongoing fsm name).
Proof.
  unfold ongoing.
  apply raises_only_bind; [apply reference_state_no_name_error | intros _].
  repeat raises_step; exact I.
Qed.

(** C6: a state that is only referenced, by [m.next = name] or by
    [fsm.ongoing(name)], raises nothing where it is referenced: both calls
    return and register the name in the encoding, and whatever the
    builder looks like neither of them raises a [NameError].  When the
    body of the FSM construct has completed and some registered name has no [State]
    body, the construct raises the [NameError] of line 447 for a name
    that is registered and has no body; this happens on exit, before the
    frame is popped. *)
Theorem FSM_undefined_state_raises_at_close :
  (forall fsm name m data,
     fsm_store m !! fsm = Some data ->
     od_mem name (fsm_encoding data) = od_mem name (fsm_ongoing data) ->
     exists sig m',
       ongoing fsm name m = (Ok sig, m')
       /\ od_mem name (encoding_of m' fsm) = true)
  /\ (forall name m fsm data,
        _ctrl_context m <> Some CtxFSM ->
        innermost_fsm (_ctrl_stack m) = Some fsm ->
        fsm_store m !! fsm = Some data ->
        length (_ctrl_stack m) <= _depth m ->
        exists m',
          next name m = (Ok tt, m')
          /\ od_mem name (encoding_of m' fsm) = true)
  /\ (forall fsm name m msg,
        fst (next name m) <> Err (NameError msg)
        /\ fst (ongoing fsm name m) <> Err (NameError msg))
  /\ (forall init domain name reset body m l m1 m2 data missing,
        FSM_enter init domain name reset m = (Ok l, m1) ->
        body (ctrl_data l) m1 = (Ok tt, m2) ->
        fsm_store m2 !! ctrl_data l = Some data ->
        missing ∈ od_keys (fsm_encoding data) ->
        od_mem missing (fsm_states data) = false ->
        exists undefined m3,
          FSM init domain name reset body m
            = (Err (NameError (StateReferencedNotDefined undefined)), m3)
          /\ undefined ∈ od_keys (fsm_encoding data)
          /\ od_mem undefined (fsm_states data) = false
          /\ _ctrl_stack m3 = _ctrl_stack m2).
Proof.
  split; [|split; [|split]].
  - intros fsm name m data H Hwf.
    destruct (reference_state_ok fsm name m data H)
      as (m' & Hr & Hreg & _ & _ & _ & data' & Hd' & _ & Hon).
    unfold ongoing. rewrite (bind_ok _ _ _ _ _ Hr).
    unfold bind, load. rewrite Hd'.
    specialize (Hon Hwf). unfold od_mem in Hon. unfold od_index.
    destruct (od_get name (fsm_ongoing data')) as [sig|]; [|discriminate].
    now exists sig, m'.
  - intros name m fsm data Hctx Hin Hst Hlen.
    destruct (reference_state_ok fsm name m data Hst)
      as (m' & Hr & Hreg & Hs & Hd & _ & data' & Hd' & _ & _).
    unfold next, bind at 1 2, gets. rewrite decide_False by exact Hctx.
    rewrite Hin. rewrite (bind_ok _ _ _ _ _ Hr).
    unfold bind at 1, load. rewrite Hd'.
    unfold _add_statement. rewrite (bind_ok _ _ m' tt m').
    + simpl. eexists. split; [reflexivity|]. exact Hreg.
    + apply flush_ctrl_noop. now rewrite Hs, Hd.
  - intros fsm name m msg. split; intros H.
    + exact (next_no_name_error name m _ H).
    + exact (ongoing_no_name_error fsm name m _ H).
  - intros init domain name reset body m l m1 m2 data missing He Hb Hst Hin Hno.
    pose proof (check_defined_spec _ _ _ Hst) as Hc.
    destruct (List.find _ _) as [undefined|] eqn:Hf.
    + apply find_some in Hf as [Hf1 Hf2].
      exists undefined, (set_ctrl_context None (set_depth (pred (_depth m2)) m2)).
      split; [|repeat split].
      * unfold FSM. eapply with_leave_raises; eauto.
      * now apply list_elem_of_In.
      * now destruct (od_mem undefined (fsm_states data)).
    + exfalso. eapply find_none in Hf; [|apply list_elem_of_In, Hin].
      rewrite Hno in Hf. discriminate.
Qed.

(** An FSM whose state ["A"] moves to ["X"] and which never defines
    ["X"]: the transition and an [ongoing("X")] return, the exit raises. *)
Lemma FSM_undefined_state_witness :
  (exists sig m', ongoing 0 "X" in_fsm = (Ok sig, m')
                  /\ od_mem "X" (encoding_of m' 0) = true)
  /\ (exists m', next "X" in_state_A = (Ok tt, m')
                 /\ od_mem "X" (encoding_of m' 0) = true)
  /\ (exists undefined m3,
        FSM None "sync" "fsm" None (fun _ => run [CState "A" [CNext "X"]]) Module_init
          = (Err (NameError (StateReferencedNotDefined undefined)), m3)
        /\ undefined ∈ ["A"; "X"]%string).
Proof.
  destruct FSM_undefined_state_raises_at_close as (Hongoing & Hnext & _ & Hclose).
  split; [|split].
  - apply (Hongoing 0 "X"%string in_fsm
             (mkFSMData "fsm" None "sync" [] [] [] [] None)); reflexivity.
  - apply (Hnext "X"%string in_state_A 0
             (mkFSMData "fsm" None "sync" [("A"%string, 0)] []
                [("A"%string, mkSignal (OngoingSig 0 "A") "fsm_ongoing_A" (unsigned 1) 0)]
                [] None)).
    + discriminate.
    + reflexivity.
    + reflexivity.
    + vm_compute. lia.
  - destruct (Hclose None "sync"%string "fsm"%string None
                (fun _ => run [CState "A" [CNext "X"]]) Module_init
                (mkLocals 0 [] []) in_fsm
                (snd (run [CState "A" [CNext "X"]] in_fsm))
                (mkFSMData "fsm" None "sync" [("A", 0); ("X", 1)]%string []
                   [("A"%string, mkSignal (OngoingSig 0 "A") "fsm_ongoing_A" (unsigned 1) 0);
                    ("X"%string, mkSignal (OngoingSig 0 "X") "fsm_ongoing_X" (unsigned 1) 0)]
                   [("A"%string, [("sync"%string, [FSMNextStatement 0 "X"])])] None)
                "X"%string)
      as (u & m3 & H1 & H2 & _).
    + vm_compute. reflexivity.
    + vm_compute. reflexivity.
    + vm_compute. reflexivity.
    + simpl. repeat constructor.
    + vm_compute. reflexivity.
    + exists u, m3. split; [exact H1 | exact H2].
Defined.

(** *** Invariants of every program

    A property that every mutation of the builder maintains holds after
    any program, whether the program returns or raises. *)

Section Invariant.
Variable P : Builder -> Prop.
Hypothesis P_statements : forall m v, P m -> P (set_statements v m).
Hypothesis P_ctrl_context : forall m v, P m -> P (set_ctrl_context v m).
Hypothesis P_ctrl_stack : forall m v, P m -> P (set_ctrl_stack v m).
Hypothesis P_top_comb : forall m v, P m -> P (set_top_comb_statements v m).
Hypothesis P_generated : forall m v, P m -> P (set_generated v m).
Hypothesis P_depth : forall m v, P m -> P (set_depth v m).
Hypothesis P_warnings : forall m v, P m -> P (set_warnings v m).
Hypothesis P_drive : forall domain signal, preserves P (drive domain signal).
Hypothesis P_new_if : forall depth, preserves P (new_if (mkIfData depth [] [])).
Hypothesis P_if_record : forall r test, preserves P (if_record r test).
Hypothesis P_new_switch : forall test, preserves P (new_switch (mkSwitchData test [])).
Hypothesis P_case_record : forall r ps, preserves P (case_record r ps).
Hypothesis P_default_record : forall r, preserves P (default_record r).
Hypothesis P_new_fsm :
  forall name init domain,
    preserves P (new_fsm (mkFSMData name init domain [] [] [] [] None)).
Hypothesis P_reference_state : forall r name, preserves P (reference_state r name).
Hypothesis P_state_record : forall r name, preserves P (state_record r name).
Hypothesis P_pop_FSM : forall r, preserves P (pop_FSM r).

Lemma invariant_pop_ctrl : preserves P _pop_ctrl.
Proof. pres. Qed.

Lemma invariant_flush_ctrl : preserves P _flush_ctrl.
Proof. apply preserves_flush_ctrl, invariant_pop_ctrl. Qed.

Lemma invariant_exec c : preserves P (exec c).
Proof.
  pose proof invariant_pop_ctrl as Hpop.
  induction c as [c IH] using Cmd_body_ind.
  assert (Hbody : preserves P (for_each exec (body_of c))) by now apply preserves_run.
  destruct c; simpl in Hbody; simpl exec; pres.
Qed.

Lemma invariant_run prog : preserves P (run prog).
Proof. apply preserves_run, Forall_forall. intros c _. apply invariant_exec. Qed.
End Invariant.

(** ** Patterns of a [Case] *)

Lemma keeps_case_patterns {B} (p : Builder -> B) width patterns acc :
  (forall m w, p (set_warnings w m) = p m) ->
  keeps p (case_patterns width patterns acc).
Proof.
  intros Hp v. apply preserves_case_patterns. intros m w <-. apply Hp.
Qed.

(** What a successful entry of [Case] tells. *)
Lemma Case_enter_ok patterns m l m1 :
  Case_enter patterns m = (Ok l, m1) ->
  exists data,
    _ctrl_context m = Some CtxSwitch
    /\ _ctrl_stack m = (NameSwitch, ctrl_data l) :: tail (_ctrl_stack m)
    /\ switch_store m !! ctrl_data l = Some data
    /\ fst (case_patterns (len (switch_test data)) patterns []
              (snd (warn_after_default (ctrl_data l) m))) = Ok (new_patterns l)
    /\ _outer_case l = _statements m
    /\ _statements m1 = []
    /\ _ctrl_context m1 = None
    /\ _ctrl_stack m1 = _ctrl_stack m
    /\ _depth m1 = _depth m
    /\ switch_store m1 = switch_store m.
Proof.
  intros H. unfold Case_enter in H.
  apply bind_inv_ok in H as (u0 & m0 & H0 & H).
  apply bind_inv_ok in H as (top & m0' & H1 & H).
  apply bind_inv_ok in H as (r & m2 & H2 & H).
  apply bind_inv_ok in H as (u3 & m3 & H3 & H).
  apply bind_inv_ok in H as (data & m4 & H4 & H).
  apply bind_inv_ok in H as (ps & m5 & H5 & H).
  apply bind_inv_ok in H as (l' & m6 & H6 & H).
  apply bind_inv_ok in H as (u7 & m7 & H7 & H).
  injection H as <- <-. injection H7 as <-.
  unfold capture in H6.
  apply bind_inv_ok in H6 as (outer & m8 & H8 & H6).
  apply bind_inv_ok in H6 as (u9 & m9 & H9 & H6).
  injection H6 as <- <-. injection H9 as <-. injection H8 as <- <-.
  apply check_context_ok in H0 as [-> Hctx].
  unfold _get_ctrl, gets in H1. injection H1 as <- <-.
  destruct (_ctrl_stack m) as [|[top_name top_data] rest] eqn:Hstack; [discriminate|].
  destruct (decide (top_name = NameSwitch)) as [->|]; [|discriminate].
  injection H2 as <- <-.
  assert (Km3 : m3 = snd (warn_after_default top_data m)) by now rewrite H3.
  assert (Ksw : switch_store m3 = switch_store m).
  { subst m3. apply (keeps_eq switch_store). keeps_tac. }
  unfold load in H4. rewrite Ksw in H4.
  destruct (switch_store m !! top_data) as [data'|] eqn:Hdata; [|discriminate].
  injection H4 as -> <-.
  assert (K : forall {B} (p : Builder -> B),
             (forall m w, p (set_warnings w m) = p m) -> p m5 = p m).
  { intros B p Hp.
    pose proof (keeps_eq p _ (keeps_case_patterns p (len (switch_test data)) patterns [] Hp) m3) as K1.
    rewrite H5 in K1. simpl in K1. rewrite K1, Km3.
    apply (keeps_eq p). intros v. unfold warn_after_default.
    apply preserves_bind; [apply preserves_load|]. intros d.
    destruct (od_mem _ _); [|apply preserves_ret].
    apply preserves_modify. intros m' <-. apply Hp. }
  exists data. simpl. rewrite <- Km3, H5. subst m9 m7. simpl.
  rewrite (K _ _statements), (K _ _ctrl_stack), (K _ _depth), (K _ switch_store)
    by reflexivity.
  rewrite Hstack. repeat split; congruence.
Qed.

Lemma Case_exit patterns body m l m1 m2 m3 data :
  Case_enter patterns m = (Ok l, m1) ->
  body m1 = (Ok tt, m2) ->
  _flush_ctrl m2 = (Ok tt, m3) ->
  switch_store m3 !! ctrl_data l = Some data ->
  Case patterns body m =
    (Ok tt,
     Case_result l
       (if negb (bool_decide (new_patterns l = []))
           && negb (od_mem (new_patterns l) (switch_cases data))
        then set_switch_store
               (<[ctrl_data l :=
                    mkSwitchData (switch_test data)
                      (od_set (new_patterns l) (_statements m3) (switch_cases data))]>
                  (switch_store m3)) m3
        else m3)).
Proof.
  intros He Hb Hf Hd. unfold Case.
  erewrite with_returns; [reflexivity | exact He | exact Hb | | reflexivity].
  unfold Case_leave. rewrite (bind_ok _ _ _ _ _ Hf).
  unfold case_record, bind, load, gets. rewrite Hd.
  now destruct (negb _ && negb _).
Qed.

(** A registration is never overwritten or removed. *)
Lemma registered_write r ps stmts r' ps' stmts' m data' :
  registered r ps stmts m ->
  switch_store m !! r' = Some data' ->
  od_mem ps' (switch_cases data') = false ->
  registered r ps stmts
    (set_switch_store
       (<[r' := mkSwitchData (switch_test data')
                  (od_set ps' stmts' (switch_cases data'))]> (switch_store m)) m).
Proof.
  intros (data & Hd & Hg) Hd' Hfresh. unfold registered. simpl.
  destruct (decide (r' = r)) as [->|Hne].
  - rewrite list_lookup_insert_eq by (now apply lookup_lt_Some in Hd).
    eexists. split; [reflexivity|]. simpl.
    assert (data' = data) as -> by congruence.
    rewrite od_get_set_ne; [exact Hg|].
    intros ->. unfold od_mem in Hfresh. now rewrite Hg in Hfresh.
  - rewrite list_lookup_insert_ne by exact Hne. eauto.
Qed.

Lemma registered_invariant r ps stmts prog :
  preserves (registered r ps stmts) (run prog)
  /\ preserves (registered r ps stmts) _flush_ctrl.
Proof.
  assert (Hcase : forall r' ps', preserves (registered r ps stmts) (case_record r' ps')).
  { intros r' ps' m H. unfold case_record, bind, load, gets.
    destruct (switch_store m !! r') as [data'|] eqn:Hd'; [|exact H].
    destruct (negb (bool_decide _)); simpl; [|exact H].
    destruct (od_mem ps' (switch_cases data')) eqn:Hm; simpl; [exact H|].
    now apply registered_write. }
  assert (Hdefault : forall r', preserves (registered r ps stmts) (default_record r')).
  { intros r' m H. unfold default_record, bind, load, gets.
    destruct (switch_store m !! r') as [data'|] eqn:Hd'; [|exact H].
    destruct (od_mem [] (switch_cases data')) eqn:Hm; simpl; [exact H|].
    now apply registered_write. }
  assert (Hnew : forall d, preserves (registered r ps stmts) (new_switch d)).
  { intros d m (data & Hd & Hg). exists data. simpl. split; [|exact Hg].
    now apply lookup_app_l_Some. }
  split; [apply invariant_run | apply invariant_flush_ctrl];
    auto; try (intros; pres); try (intros ? ? H; exact H).
Qed.

(** Frames are never deallocated. *)
Lemma allocated_invariant r prog :
  preserves (fun m => r < length (switch_store m)) (run prog)
  /\ preserves (fun m => r < length (switch_store m)) _flush_ctrl.
Proof.
  assert (Hcase : forall r' ps',
             preserves (fun m => r < length (switch_store m)) (case_record r' ps')).
  { intros r' ps'. unfold case_record. pres.
    apply preserves_modify. intros m H. simpl. now rewrite length_insert. }
  assert (Hdefault : forall r',
             preserves (fun m => r < length (switch_store m)) (default_record r')).
  { intros r'. unfold default_record. pres.
    apply preserves_modify. intros m H. simpl. now rewrite length_insert. }
  assert (Hnew : forall d, preserves (fun m => r < length (switch_store m)) (new_switch d)).
  { intros d m H. simpl. rewrite length_app. simpl. lia. }
  split; [apply invariant_run | apply invariant_flush_ctrl];
    auto; try (intros; pres); try (intros ? ? H; exact H).
Qed.

(** ** A pattern tuple registered twice *)

(** C4: when [Case] is called with patterns whose tuple [new_patterns]
    already has a body registered in the frame of the enclosing [Switch],
    and its body and closing flush return, the [Case] returns without an
    error; the first body is still registered under the tuple; on exit
    nothing is written to the frame store and no warning is issued; and
    the accumulator is again the one from before the [Case], so the
    statements of the later body are kept nowhere. *)
Theorem Case_duplicate_patterns_is_noop patterns body m l m1 m2 m3 first_body :
  Case_enter patterns m = (Ok l, m1) ->
  registered (ctrl_data l) (new_patterns l) first_body m ->
  run body m1 = (Ok tt, m2) ->
  _flush_ctrl m2 = (Ok tt, m3) ->
  exec (CCase patterns body) m = (Ok tt, Case_result l m3)
  /\ registered (ctrl_data l) (new_patterns l) first_body (Case_result l m3)
  /\ switch_store (Case_result l m3) = switch_store m3
  /\ warnings (Case_result l m3) = warnings m3
  /\ _statements (Case_result l m3) = _statements m.
Proof.
  intros He Hreg Hb Hf.
  destruct (Case_enter_ok _ _ _ _ He) as (data0 & _ & _ & _ & _ & Hout & _ & _ & _ & _ & Hsw).
  assert (Hreg3 : registered (ctrl_data l) (new_patterns l) first_body m3).
  { destruct (registered_invariant (ctrl_data l) (new_patterns l) first_body body)
      as [Hrun Hflush].
    assert (H1 : registered (ctrl_data l) (new_patterns l) first_body m1).
    { destruct Hreg as (d & Hd & Hg). exists d. now rewrite Hsw. }
    apply Hrun in H1. rewrite Hb in H1. simpl in H1.
    apply Hflush in H1. now rewrite Hf in H1. }
  destruct Hreg3 as (data & Hd & Hg).
  split; [|split; [|repeat split]].
  - simpl exec. erewrite Case_exit by eauto.
    unfold od_mem. rewrite Hg, andb_false_r. reflexivity.
  - exists data. auto.
  - simpl. exact Hout.
Qed.

(** The spec's example: [Case("01")] a second time, with another body. *)
Lemma Case_duplicate_patterns_witness :
  exists m3,
    exec (CCase [PStr "01"] [CAdd "comb" [y_is 0]]) after_case_01
      = (Ok tt, Case_result (mkLocals 0 [PatStr "01"] []) m3)
    /\ registered 0 [PatStr "01"] [("comb"%string, [y_is 1])]
         (Case_result (mkLocals 0 [PatStr "01"] []) m3).
Proof.
  eexists.
  destruct (Case_duplicate_patterns_is_noop
              [PStr "01"] [CAdd "comb" [y_is 0]] after_case_01
              (mkLocals 0 [PatStr "01"] [])
              (snd (Case_enter [PStr "01"] after_case_01))
              (snd (run [CAdd "comb" [y_is 0]]
                      (snd (Case_enter [PStr "01"] after_case_01))))
              (snd (run [CAdd "comb" [y_is 0]]
                      (snd (Case_enter [PStr "01"] after_case_01))))
              [("comb"%string, [y_is 1])])
    as (H1 & H2 & _).
  - vm_compute. reflexivity.
  - eexists. split; vm_compute; reflexivity.
  - vm_compute. reflexivity.
  - vm_compute. reflexivity.
  - split; [exact H1 | exact H2].
Defined.

(** ** Constant patterns wider than the switch value *)

Lemma set_warnings_id m : set_warnings (warnings m ++ []) m = m.
Proof. destruct m. unfold set_warnings. simpl. now rewrite app_nil_r. Qed.

Lemma case_patterns_ok width patterns acc m :
  forallb (pattern_ok width) patterns = true ->
  case_patterns width patterns acc m =
    (Ok (acc ++ concat (map (kept width) patterns)),
     set_warnings (warnings m ++ concat (map (diagnostics width) patterns)) m).
Proof.
  revert acc m. induction patterns as [|p ps IH]; intros acc m Hok; simpl in *.
  - now rewrite app_nil_r, set_warnings_id.
  - apply andb_prop in Hok as [Hp Hps]. destruct p as [s|v|]; simpl in *.
    + apply andb_prop in Hp as [-> ->]. simpl.
      rewrite IH by exact Hps. now rewrite <- app_assoc.
    + unfold too_wide. destruct (width <? pattern_len v); simpl.
      * unfold bind, warn, modify. rewrite IH by exact Hps. simpl.
        now rewrite <- app_assoc.
      * rewrite IH by exact Hps. now rewrite <- app_assoc.
    + discriminate.
Qed.

Lemma concat_map_app {A B} (f : A -> list B) l1 l2 :
  concat (map f (l1 ++ l2)) = concat (map f l1) ++ concat (map f l2).
Proof. now rewrite map_app, concat_app. Qed.

(** C5: a constant pattern whose minimal width [pattern_len] exceeds the
    width of the switch value is dropped from [new_patterns] and causes
    exactly one warning, and the loop over the patterns goes on without an
    error.  A [Case] all of whose patterns are such constants has an empty
    [new_patterns]; when its body and closing flush return, it returns
    and writes nothing to the frame store, so the frame, and the branch
    node made from it, gets no case for it. *)
Theorem Case_oversized_constant_dropped :
  (forall width before v after acc m,
     too_wide width v = true ->
     forallb (pattern_ok width) before = true ->
     forallb (pattern_ok width) after = true ->
     case_patterns width (before ++ PConst v :: after) acc m =
       (Ok (acc ++ concat (map (kept width) before)
                ++ concat (map (kept width) after)),
        set_warnings
          (warnings m ++ concat (map (diagnostics width) before)
                      ++ [CasePatternTooWide v (pattern_len v) width]
                      ++ concat (map (diagnostics width) after)) m))
  /\ (forall values body m l m1 m2 m3 data,
        Case_enter (map PConst values) m = (Ok l, m1) ->
        switch_store m !! ctrl_data l = Some data ->
        forallb (too_wide (len (switch_test data))) values = true ->
        run body m1 = (Ok tt, m2) ->
        _flush_ctrl m2 = (Ok tt, m3) ->
        new_patterns l = []
        /\ exec (CCase (map PConst values) body) m = (Ok tt, Case_result l m3)
        /\ switch_store (Case_result l m3) = switch_store m3).
Proof.
  split.
  - intros width before v after acc m Hv Hb Ha.
    rewrite case_patterns_ok.
    + rewrite !concat_map_app. simpl. rewrite Hv. simpl. reflexivity.
    + rewrite forallb_app. simpl. now rewrite Hb, Ha.
  - intros values body m l m1 m2 m3 data He Hd Hwide Hb Hf.
    destruct (Case_enter_ok _ _ _ _ He)
      as (data0 & _ & _ & Hd0 & Hps & _ & _ & _ & _ & _ & Hsw).
    assert (data0 = data) as -> by congruence.
    assert (Hnil : new_patterns l = []).
    { rewrite case_patterns_ok in Hps.
      - simpl in Hps. injection Hps as <-.
        clear -Hwide. induction values as [|v vs IH]; simpl in *; [reflexivity|].
        apply andb_prop in Hwide as [-> Hvs]. simpl. now apply IH.
      - clear. now induction values. }
    split; [exact Hnil|].
    assert (Halloc : ctrl_data l < length (switch_store m3)).
    { destruct (allocated_invariant (ctrl_data l) body) as [Hrun Hflush].
      assert (H1 : ctrl_data l < length (switch_store m1)).
      { rewrite Hsw. now apply lookup_lt_Some in Hd. }
      apply Hrun in H1. rewrite Hb in H1. simpl in H1.
      apply Hflush in H1. now rewrite Hf in H1. }
    apply lookup_lt_is_Some in Halloc as [data3 Hd3].
    split; [|reflexivity].
    simpl exec. erewrite Case_exit by eauto.
    rewrite Hnil. reflexivity.
Qed.

(** The spec's example: the value [4] needs three bits and the switch
    value has two. *)
Lemma Case_oversized_constant_witness :
  case_patterns 2 [PStr "0-"; PConst 4; PConst 3] [] in_switch =
    (Ok [PatStr "0-"; PatInt 3],
     set_warnings (warnings in_switch ++ [CasePatternTooWide 4 3 2]) in_switch)
  /\ exists m3,
       exec (CCase [PConst 4; PConst 7] [CAdd "comb" [y_is 0]]) after_case_01
         = (Ok tt, Case_result (mkLocals 0 [] []) m3)
       /\ from_option switch_cases [] (switch_store m3 !! 0)
            = [([PatStr "01"], [("comb"%string, [y_is 1])])].
Proof.
  destruct Case_oversized_constant_dropped as [Hloop Hcase].
  split.
  - apply (Hloop 2 [PStr "0-"] 4%Z [PConst 3] [] in_switch); reflexivity.
  - eexists.
    destruct (Hcase [4; 7]%Z [CAdd "comb" [y_is 0]] after_case_01
                (mkLocals 0 [] [])
                (snd (Case_enter [PConst 4; PConst 7] after_case_01))
                (snd (run [CAdd "comb" [y_is 0]]
                        (snd (Case_enter [PConst 4; PConst 7] after_case_01))))
                (snd (run [CAdd "comb" [y_is 0]]
                        (snd (Case_enter [PConst 4; PConst 7] after_case_01))))
                (mkSwitchData (Sig sig_x2)
                   [([PatStr "01"], [("comb"%string, [y_is 1])])]))
      as (_ & H2 & _).
    + vm_compute. reflexivity.
    + vm_compute. reflexivity.
    + vm_compute. reflexivity.
    + vm_compute. reflexivity.
    + vm_compute. reflexivity.
    + split; [exact H2 | vm_compute; reflexivity].
Defined.

(** ** Exceptions out of a scoped body *)

Lemma enters_enter_of k : enters (deepens k) (enter_of k).
Proof.
  destruct k; simpl;
    [ unfold If_enter | unfold Elif_enter | unfold Else_enter
    | unfold Case_enter | unfold Default_enter | unfold State_enter ];
    enters_tac.
Qed.

Lemma captures_bind {A} (c : M A) (f : A -> M Locals) :
  keeps _statements c -> (forall a, captures (f a)) -> captures (bind c f).
Proof.
  intros Hc Hf m l m1 H. apply bind_inv_ok in H as (a & m' & Ha & H).
  rewrite (Hf a _ _ _ H). pose proof (keeps_eq _statements _ Hc m) as E.
  now rewrite Ha in E.
Qed.

Lemma captures_capture data ps (rest : M unit) :
  captures (l <- capture data ps ;; rest ;; ret l).
Proof.
  intros m l m1 H. unfold capture, bind, gets, modify, ret in H.
  destruct (rest (set_statements [] m)) as [[[]|e] m']; [|discriminate].
  now injection H as <- _.
Qed.

Ltac captures_tac :=
  repeat first
    [ apply captures_capture
    | apply captures_bind; [keeps_tac | intros ?] ].

Lemma captures_enter_of k :
  match k with KIf _ => True | _ => captures (enter_of k) end.
Proof.
  destruct k; simpl; [exact I | | | | |];
    [ unfold Elif_enter | unfold Else_enter
    | unfold Case_enter | unfold Default_enter | unfold State_enter ];
    captures_tac.
Qed.

Lemma captures_If cond m l m1 :
  length (_ctrl_stack m) <= _depth m ->
  If_enter cond m = (Ok l, m1) -> _outer_case l = _statements m.
Proof.
  intros Hlen H. unfold If_enter in H.
  apply bind_inv_ok in H as (u0 & m0 & H0 & H).
  apply check_context_ok in H0 as [-> _].
  apply bind_inv_ok in H as (cond' & m2 & H2 & H). injection H2 as <- <-.
  apply bind_inv_ok in H as (depth & m3 & H3 & H). injection H3 as <- <-.
  apply bind_inv_ok in H as (if_data & m4 & H4 & H). injection H4 as <- <-.
  apply bind_inv_ok in H as (u5 & m5 & H5 & H).
  unfold _set_ctrl in H5. rewrite (bind_ok _ _ _ tt _) in H5
    by (apply flush_ctrl_noop; exact Hlen).
  apply (captures_capture _ _ incr_depth) in H.
  injection H5 as _ <-. exact H.
Qed.

(** What [finally] leaves, for a body that kept the depth. *)
Lemma fin_of_restores k body m l m1 e m2 :
  enter_of k m = (Ok l, m1) ->
  run body m1 = (Err e, m2) ->
  exists m3,
    exec (cmd_of k body) m = (Err e, m3)
    /\ _statements m3 = _outer_case l
    /\ _depth m3 = _depth m
    /\ _ctrl_stack m3 = _ctrl_stack m2
    /\ _driving m3 = _driving m2.
Proof.
  intros He Hb.
  pose proof (enters_enter_of k m) as Hd. rewrite He in Hd.
  pose proof (keeps_eq _depth _ (keeps_depth_run body) m1) as Hd2.
  rewrite Hb in Hd2. simpl in Hd2.
  destruct k; simpl in *;
    (eexists; split;
     [ eapply with_body_raises; [exact He | exact Hb | reflexivity]
     | simpl; repeat split; lia ]).
Qed.

(** C7, as amended: for [If], [Elif], [Else], [Case], [Default] and
    [State], when the body raises, the construct raises the same exception
    with the accumulator set back to [_outer_case], the one it captured on
    entry, and with the depth of before the call.  The captured
    accumulator is the one the construct was called with, for [If] when no
    frame was pending (opening an [If] first closes pending frames into
    it).  [Switch] captures no accumulator: when its body raises it sets
    the depth and the context back and leaves the accumulator as the body
    left it. *)
Theorem body_exception_restores_scope :
  (forall k body m l m1 e m2,
     enter_of k m = (Ok l, m1) ->
     run body m1 = (Err e, m2) ->
     exists m3,
       exec (cmd_of k body) m = (Err e, m3)
       /\ _statements m3 = _outer_case l
       /\ match k with
          | KIf _ =>
              length (_ctrl_stack m) <= _depth m -> _outer_case l = _statements m
          | _ => _outer_case l = _statements m
          end
       /\ _depth m3 = _depth m)
  /\ (forall test body m l m1 e m2,
        Switch_enter test m = (Ok l, m1) ->
        run body m1 = (Err e, m2) ->
        exists m3,
          exec (CSwitch test body) m = (Err e, m3)
          /\ _depth m3 = _depth m
          /\ _ctrl_context m3 = None
          /\ _statements m3 = _statements m2).
Proof.
  split.
  - intros k body m l m1 e m2 He Hb.
    destruct (fin_of_restores k body m l m1 e m2 He Hb) as (m3 & H1 & H2 & H3 & _).
    exists m3. repeat split; auto.
    pose proof (captures_enter_of k) as Hc.
    destruct k; simpl in *; try (now apply (Hc m l m1)).
    intros Hlen. now apply (captures_If cond m l m1).
  - intros test body m l m1 e m2 He Hb.
    assert (Hd : enters 1 (Switch_enter test)) by (unfold Switch_enter; enters_tac).
    specialize (Hd m). rewrite He in Hd.
    pose proof (keeps_eq _depth _ (keeps_depth_run body) m1) as Hd2.
    rewrite Hb in Hd2. simpl in Hd2.
    eexists. split.
    + simpl exec. eapply with_body_raises; [exact He | exact Hb | reflexivity].
    + simpl. repeat split. lia.
Qed.

(** An [If] and a [Switch] whose bodies add a statement and then raise. *)
Lemma body_exception_restores_scope_witness :
  (exists m3,
     exec (CIf (Sig sig_a) [CAdd "comb" [y_is 1]; CRaise 0]) after_add
       = (Err (UserException 0), m3)
     /\ _statements m3 = _statements after_add
     /\ _depth m3 = _depth after_add)
  /\ (exists m3,
        exec (CSwitch (Sig sig_x2) [CCase [PConst 1] [CAdd "comb" [y_is 1]; CRaise 0]])
          Module_init = (Err (UserException 0), m3)
        /\ _depth m3 = 0 /\ _ctrl_context m3 = None).
Proof.
  destruct body_exception_restores_scope as [Hcapturing Hswitch].
  split.
  - destruct (Hcapturing (KIf (Sig sig_a)) [CAdd "comb" [y_is 1]; CRaise 0]
                after_add
                (mkLocals 0 [] [("comb"%string, [y_is 0])])
                (snd (If_enter (Sig sig_a) after_add))
                (UserException 0)
                (snd (run [CAdd "comb" [y_is 1]; CRaise 0]
                        (snd (If_enter (Sig sig_a) after_add)))))
      as (m3 & H1 & H2 & H3 & H4).
    + vm_compute. reflexivity.
    + vm_compute. reflexivity.
    + exists m3. split; [exact H1|]. split; [|exact H4].
      rewrite H2. apply H3. vm_compute. lia.
  - destruct (Hswitch (Sig sig_x2)
                [CCase [PConst 1] [CAdd "comb" [y_is 1]; CRaise 0]] Module_init
                (mkLocals 0 [] [])
                (snd (Switch_enter (Sig sig_x2) Module_init))
                (UserException 0)
                (snd (run [CCase [PConst 1] [CAdd "comb" [y_is 1]; CRaise 0]]
                        (snd (Switch_enter (Sig sig_x2) Module_init)))))
      as (m3 & H1 & H2 & H3 & _).
    + vm_compute. reflexivity.
    + vm_compute. reflexivity.
    + exists m3. split; [exact H1|]. split; [exact H2 | exact H3].
Defined.

(** C7 as stated fails for [Switch]: a statement added directly in the
    body of a [Switch] goes to the accumulator of the enclosing scope, and
    stays there when the body then raises. *)
Lemma Switch_body_exception_keeps_additions :
  exists m',
    exec (CSwitch (Sig sig_x2) [CAdd "comb" [y_is 1]; CRaise 0]) Module_init
      = (Err (UserException 0), m')
    /\ _statements Module_init = []
    /\ _statements m' = [("comb"%string, [y_is 1])]
    /\ _statements m' <> _statements Module_init.
Proof.
  eexists. split; [vm_compute; reflexivity|].
  split; [reflexivity|]. split; [reflexivity|]. discriminate.
Qed.

(** ** Lowering of an [If] chain *)

Lemma str_repeat_length c n : String.length (str_repeat c n) = n.
Proof. induction n; simpl; congruence. Qed.

Lemma str_repeat_get c n j : j < n -> String.get j (str_repeat c n) = Some c.
Proof.
  revert j. induction n as [|n IH]; intros j Hj; [lia|].
  destruct j; simpl; [reflexivity | apply IH; lia].
Qed.

Lemma append_cons a s1 s2 : String a s1 +:+ s2 = String a (s1 +:+ s2).
Proof. reflexivity. Qed.

Lemma append_length s1 s2 :
  String.length (s1 +:+ s2) = String.length s1 + String.length s2.
Proof.
  induction s1 as [|a s1 IH]; [reflexivity|].
  rewrite append_cons. simpl. now rewrite IH.
Qed.

Lemma if_match_unfold i n :
  if_match (S i) n =
    str_repeat "-" (n - S i) +:+ String "1" (str_repeat "-" i).
Proof.
  unfold if_match, rjust. simpl. now rewrite Nat.sub_0_r, str_repeat_length.
Qed.

Lemma if_match_length i n : i < n -> String.length (if_match (S i) n) = n.
Proof.
  intros H. rewrite if_match_unfold, append_length. simpl.
  rewrite !str_repeat_length. lia.
Qed.

Lemma if_match_bit i n j :
  i < n -> j < n ->
  pattern_bit (if_match (S i) n) j = Some (if decide (j = i) then "1" else "-")%char.
Proof.
  intros Hi Hj. unfold pattern_bit. rewrite if_match_length by exact Hi.
  destruct (Nat.ltb_spec j n); [|lia]. rewrite if_match_unfold.
  destruct (decide (j = i)) as [->|Hne].
  - replace (n - 1 - i) with (0 + String.length (str_repeat "-" (n - S i)))
      by (rewrite str_repeat_length; lia).
    now rewrite <- append_correct2.
  - destruct (Nat.lt_ge_cases j i) as [Hlt|Hge].
    + replace (n - 1 - j)
        with (S (i - 1 - j) + String.length (str_repeat "-" (n - S i)))
        by (rewrite str_repeat_length; lia).
      rewrite <- append_correct2. simpl. apply str_repeat_get. lia.
    + rewrite <- append_correct1 by (rewrite str_repeat_length; lia).
      apply str_repeat_get. lia.
Qed.

Lemma if_match_inj i j n :
  i < n -> j < n -> if_match (S i) n = if_match (S j) n -> i = j.
Proof.
  intros Hi Hj E. pose proof (if_match_bit i n i Hi Hi) as B1.
  rewrite E, (if_match_bit j n i Hj Hi) in B1.
  destruct (decide (i = j)); [assumption|].
  rewrite decide_True in B1 by reflexivity. discriminate.
Qed.

Lemma len_to_bit t : len (to_bit t) = 1.
Proof. unfold to_bit. now destruct (decide (len t = 1)). Qed.

Lemma len_Cat_bits ts : len (Cat (map to_bit ts)) = length ts.
Proof.
  simpl. induction ts as [|t ts IH]; simpl; [reflexivity|].
  now rewrite len_to_bit, IH.
Qed.

Lemma branch_cases_keys n domain i bodies k :
  k ∈ od_keys (branch_cases n domain i bodies) ->
  k = KeyNone \/ exists j, i <= j < i + (length bodies - 1) /\ k = KeyStr (if_match (S j) n).
Proof.
  revert i. induction bodies as [|body rest IH]; intros i H; simpl in H.
  - inversion H.
  - destruct rest as [|body' rest'].
    + left. simpl in H. inversion H as [|? ? ? H']; [reflexivity | inversion H'].
    + simpl in H. inversion H as [|? ? ? H']; subst.
      * right. exists i. simpl. split; [lia | reflexivity].
      * destruct (IH (S i) H') as [->|(j & Hj & ->)]; [now left|].
        right. exists j. simpl in *. split; [lia | reflexivity].
Qed.

Lemma if_cases_spec n domain ts bodies tests cases :
  length tests + length ts = n ->
  length bodies = S (length ts) ->
  (forall k, k ∈ od_keys cases ->
             exists j, j < length tests /\ k = KeyStr (if_match (S j) n)) ->
  if_cases n domain (combine (map Some ts ++ [None]) bodies) tests cases =
    (tests ++ map to_bit ts,
     cases ++ branch_cases n domain (length tests) bodies).
Proof.
  revert bodies tests cases.
  induction ts as [|t ts IH]; intros bodies tests cases Hn Hb Hk.
  - destruct bodies as [|else_body [|? ?]]; try discriminate. simpl.
    rewrite app_nil_r, od_set_fresh; [reflexivity|].
    apply od_mem_false. intros Hin. destruct (Hk _ Hin) as (j & _ & Hj). discriminate.
  - destruct bodies as [|body [|body' rest]]; try discriminate.
    simpl combine. cbn [if_cases].
    rewrite IH.
    + rewrite length_app. simpl length. rewrite Nat.add_1_r.
      rewrite od_set_fresh.
      * rewrite <- !app_assoc. reflexivity.
      * apply od_mem_false. intros Hin. destruct (Hk _ Hin) as (j & Hj & Hj').
        injection Hj' as Hj'. apply if_match_inj in Hj'; simpl in *; lia.
    + rewrite length_app. simpl in *. lia.
    + simpl in *. lia.
    + intros k Hin. rewrite length_app. simpl length.
      assert (Hfresh : od_mem (KeyStr (if_match (length tests + 1) n)) cases = false).
      { apply od_mem_false. intros Hin'. destruct (Hk _ Hin') as (j & Hj & Hj').
        rewrite Nat.add_1_r in Hj'. injection Hj' as Hj'.
        apply if_match_inj in Hj'; simpl in *; lia. }
      rewrite length_app in Hin. simpl length in Hin.
      rewrite od_set_fresh in Hin by exact Hfresh.
      unfold od_keys in Hin. rewrite map_app in Hin.
      apply elem_of_app in Hin as [Hin|Hin].
      * destruct (Hk _ Hin) as (j & Hj & ->). exists j. split; [lia | reflexivity].
      * simpl in Hin. inversion Hin as [|? ? ? H']; [|inversion H']. subst.
        exists (length tests). split; [lia|]. now rewrite Nat.add_1_r.
Qed.

Lemma branch_cases_lookup n domain k bodies i body :
  bodies !! i = Some body ->
  branch_cases n domain k bodies !! i =
    Some (if decide (S i = length bodies) then KeyNone
          else KeyStr (if_match (S (k + i)) n),
          stmts_get domain body).
Proof.
  revert k i. induction bodies as [|b rest IH]; intros k i H; [discriminate|].
  destruct rest as [|b' rest'].
  - destruct i; [|discriminate]. injection H as ->. reflexivity.
  - destruct i as [|i].
    + injection H as ->. simpl. now rewrite Nat.add_0_r.
    + change (branch_cases n domain k (b :: b' :: rest') !! S i)
        with (branch_cases n domain (S k) (b' :: rest') !! i).
      rewrite (IH (S k) i H). simpl length.
      replace (S k + i) with (k + S i) by lia.
      destruct (decide (S i = S (length rest'))), (decide (S (S i) = S (S (length rest'))));
        try lia; reflexivity.
Qed.

Lemma branch_cases_length n domain k bodies :
  length (branch_cases n domain k bodies) = length bodies.
Proof.
  revert k. induction bodies as [|b rest IH]; intros k; [reflexivity|].
  destruct rest as [|b' rest']; [reflexivity|].
  change (length (branch_cases n domain k (b :: b' :: rest')))
    with (S (length (branch_cases n domain (S k) (b' :: rest')))).
  now rewrite IH.
Qed.

(** *** The accumulator after a frame is popped *)

Lemma for_each_add (node : string -> Statement) domains m :
  for_each (fun domain =>
      modify (fun m => set_statements (stmts_add domain (node domain) (_statements m)) m))
    domains m =
  (Ok tt,
   set_statements
     (foldl (fun stmts domain => stmts_add domain (node domain) stmts)
        (_statements m) domains) m).
Proof.
  revert m. induction domains as [|d ds IH]; intros m; simpl.
  - now destruct m.
  - unfold bind, modify. rewrite IH. reflexivity.
Qed.

Lemma stmts_get_add d d' stmt stmts :
  stmts_get d (stmts_add d' stmt stmts) =
    stmts_get d stmts ++ (if decide (d = d') then [stmt] else []).
Proof.
  unfold stmts_get, stmts_add. destruct (decide (d = d')) as [->|Hne].
  - now rewrite od_get_set_eq.
  - rewrite od_get_set_ne by congruence. now rewrite app_nil_r.
Qed.

Lemma stmts_get_foldl (node : string -> Statement) domains stmts d :
  NoDup domains ->
  stmts_get d (foldl (fun stmts domain => stmts_add domain (node domain) stmts)
                 stmts domains) =
    stmts_get d stmts ++ (if decide (d ∈ domains) then [node d] else []).
Proof.
  intros Hnd. revert stmts. induction Hnd as [|d' ds Hnotin Hnd IH]; intros stmts; simpl.
  - destruct (decide (d ∈ [])) as [H|_]; [inversion H | now rewrite app_nil_r].
  - rewrite IH, stmts_get_add, <- app_assoc. f_equal.
    destruct (decide (d ∈ d' :: ds)) as [Hc|Hc].
    + apply elem_of_cons in Hc as [->|Hin].
      * rewrite decide_True by reflexivity.
        destruct (decide (d' ∈ ds)); [contradiction | reflexivity].
      * destruct (decide (d = d')) as [->|Hne]; [contradiction|].
        destruct (decide (d ∈ ds)); [reflexivity | contradiction].
    + destruct (decide (d = d')) as [->|Hne]; [exfalso; apply Hc; left|].
      destruct (decide (d ∈ ds)) as [Hin|]; [|reflexivity].
      exfalso. apply Hc. now right.
Qed.

Lemma key_add_spec k ks d : d ∈ key_add k ks <-> d = k \/ d ∈ ks.
Proof.
  unfold key_add. destruct (decide (k ∈ ks)) as [Hin|Hout].
  - split; [now right | intros [->|H]; assumption].
  - rewrite elem_of_app, list_elem_of_singleton. tauto.
Qed.

Lemma key_add_NoDup k ks : NoDup ks -> NoDup (key_add k ks).
Proof.
  intros H. unfold key_add. destruct (decide (k ∈ ks)); [exact H|].
  apply NoDup_app. split; [exact H|]. split.
  - intros x Hx Hk. apply list_elem_of_singleton in Hk as ->. contradiction.
  - apply NoDup_singleton.
Qed.

(** A domain is touched when some body has it as a key. *)
Lemma touched_fold bodies acc d :
  d ∈ foldl (fun domains body =>
               foldl (fun domains kv => key_add (fst kv) domains) domains body)
        acc bodies
  <-> d ∈ acc \/ exists body : Stmts, body ∈ bodies /\ d ∈ od_keys body.
Proof.
  assert (Hinner : forall (body : Stmts) acc,
             d ∈ foldl (fun domains kv => key_add (fst kv) domains) acc body
             <-> d ∈ acc \/ d ∈ od_keys body).
  { induction body as [|[k v] body IH]; intros acc'; simpl.
    - split; [now left | intros [H|H]; [exact H | inversion H]].
    - rewrite IH, key_add_spec. unfold od_keys. simpl.
      rewrite elem_of_cons. tauto. }
  revert acc. induction bodies as [|body bodies IH]; intros acc; simpl.
  - split; [now left|]. intros [H|(b & Hb & _)]; [exact H | inversion Hb].
  - rewrite IH, Hinner. split.
    + intros [[H|H]|(b & Hb & Hd)]; [now left | right | right].
      * exists body. split; [left | exact H].
      * exists b. split; [now right | exact Hd].
    + intros [H|(b & Hb & Hd)]; [now left; left|].
      apply elem_of_cons in Hb as [->|Hb]; [now left; right|].
      right. eauto.
Qed.

Lemma touched_spec bodies d :
  d ∈ touched bodies <-> exists body : Stmts, body ∈ bodies /\ d ∈ od_keys body.
Proof.
  unfold touched. rewrite touched_fold. split; [|now right].
  intros [H|H]; [inversion H | exact H].
Qed.

Lemma touched_NoDup bodies : NoDup (touched bodies).
Proof.
  unfold touched. generalize (NoDup_nil_2 (A := string)).
  generalize (@nil string) as acc.
  induction bodies as [|body bodies IH]; intros acc Hacc; simpl; [exact Hacc|].
  apply IH. clear IH. revert acc Hacc.
  induction body as [|[k v] body IH]; intros acc Hacc; simpl; [exact Hacc|].
  apply IH. now apply key_add_NoDup.
Qed.

Lemma pop_If_ok r data rest m :
  _ctrl_stack m = (NameIf, r) :: rest ->
  if_store m !! r = Some data ->
  _pop_ctrl m =
    (Ok tt,
     set_statements
       (foldl (fun stmts domain => stmts_add domain (if_switch data domain) stmts)
          (_statements m) (touched (if_bodies data)))
       (set_ctrl_stack rest m)).
Proof.
  intros Hs Hd. unfold _pop_ctrl. rewrite Hs.
  unfold bind at 1, modify. unfold pop_If, bind, load. simpl. rewrite Hd.
  now rewrite for_each_add.
Qed.

Lemma if_switch_chain data domain :
  length (if_bodies data) = S (length (if_tests data)) ->
  if_switch data domain =
    Ast.Switch (Cat (map to_bit (if_tests data)))
      (branch_cases (length (if_tests data)) domain 0 (if_bodies data)).
Proof.
  intros H. unfold if_switch. rewrite if_cases_spec; auto.
  intros k Hk. inversion Hk.
Qed.

(** C2: popping the frame of an If/Elif/Else chain with [n] tests and
    [n+1] bodies returns and appends, for each domain that is a key of
    some body and for no other domain, one branch node to that domain's
    statements.  The node's test is the concatenation of the tests, each
    reduced to one bit, and is [n] bits wide.  Its case [i < n] holds the
    statements of body [i] for the domain under a pattern of [n]
    characters whose bit [i] is ["1"] and whose bits below [i] are ["-"];
    its last case holds the statements of the Else body under the key
    [None], the default. *)
Theorem If_chain_priority_lowering m r rest data :
  _ctrl_stack m = (NameIf, r) :: rest ->
  if_store m !! r = Some data ->
  length (if_bodies data) = S (length (if_tests data)) ->
  let n := length (if_tests data) in
  let test := Cat (map to_bit (if_tests data)) in
  let cases domain := branch_cases n domain 0 (if_bodies data) in
  exists m',
    _pop_ctrl m = (Ok tt, m')
    /\ (forall domain,
          stmts_get domain (_statements m') =
            stmts_get domain (_statements m)
              ++ (if decide (domain ∈ touched (if_bodies data))
                  then [Ast.Switch test (cases domain)] else []))
    /\ (forall domain,
          domain ∈ touched (if_bodies data)
          <-> exists body : Stmts, body ∈ if_bodies data /\ domain ∈ od_keys body)
    /\ len test = n
    /\ (forall domain, length (cases domain) = S n)
    /\ (forall i body domain,
          i < n -> if_bodies data !! i = Some body ->
          cases domain !! i = Some (KeyStr (if_match (S i) n), stmts_get domain body)
          /\ String.length (if_match (S i) n) = n
          /\ pattern_bit (if_match (S i) n) i = Some "1"%char
          /\ forall j, j < i -> pattern_bit (if_match (S i) n) j = Some "-"%char)
    /\ (forall else_body domain,
          if_bodies data !! n = Some else_body ->
          cases domain !! n = Some (KeyNone, stmts_get domain else_body)).
Proof.
  intros Hs Hd Hlen n test cases.
  eexists. split; [apply (pop_If_ok r data rest m Hs Hd)|].
  split; [|split; [|split; [|split; [|split]]]].
  - intros domain. simpl. rewrite stmts_get_foldl by apply touched_NoDup.
    destruct (decide _); [|reflexivity].
    now rewrite if_switch_chain.
  - intros domain. apply touched_spec.
  - apply len_Cat_bits.
  - intros domain. unfold cases. now rewrite branch_cases_length.
  - intros i body domain Hi Hb. split; [|split; [|split]].
    + unfold cases. rewrite (branch_cases_lookup _ _ _ _ _ _ Hb).
      rewrite decide_False by (fold n in Hlen; lia). reflexivity.
    + now apply if_match_length.
    + rewrite if_match_bit by assumption. now rewrite decide_True.
    + intros j Hj. rewrite if_match_bit by lia. now rewrite decide_False by lia.
  - intros else_body domain Hb. unfold cases.
    rewrite (branch_cases_lookup _ _ _ _ _ _ Hb).
    rewrite decide_True by (fold n in Hlen; lia). reflexivity.
Qed.

Lemma If_chain_priority_lowering_witness :
  exists m',
    _pop_ctrl before_else_pop = (Ok tt, m')
    /\ stmts_get "comb" (_statements m') =
         [Ast.Switch (Cat [Sig sig_a])
            [(KeyStr "1", [y_is 1]); (KeyNone, [y_is 0])]]
    /\ stmts_get "sync" (_statements m') = [].
Proof.
  destruct (If_chain_priority_lowering before_else_pop 0 []
              (mkIfData 0 [Sig sig_a]
                 [[("comb"%string, [y_is 1])]; [("comb"%string, [y_is 0])]]))
    as (m' & Hpop & Hstmts & _).
  - vm_compute. reflexivity.
  - vm_compute. reflexivity.
  - reflexivity.
  - exists m'. split; [exact Hpop|]. split.
    + rewrite (Hstmts "comb"%string). vm_compute. reflexivity.
    + rewrite (Hstmts "sync"%string). vm_compute. reflexivity.
Defined.

(** ** Closing pending frames *)

Lemma If_enter_inv cond m l m1 :
  If_enter cond m = (Ok l, m1) ->
  exists m5,
    _set_ctrl NameIf (length (if_store m))
      (set_if_store (if_store m ++ [mkIfData (_depth m) [] []]) m) = (Ok tt, m5)
    /\ l = mkLocals (length (if_store m)) [] (_statements m5)
    /\ m1 = set_depth (S (_depth m5)) (set_statements [] m5).
Proof.
  intros H. unfold If_enter in H.
  apply bind_inv_ok in H as (u0 & m0 & H0 & H).
  apply check_context_ok in H0 as [-> _].
  apply bind_inv_ok in H as (cond' & m2 & H2 & H). injection H2 as <- <-.
  apply bind_inv_ok in H as (depth & m3 & H3 & H). injection H3 as <- <-.
  apply bind_inv_ok in H as (if_data & m4 & H4 & H). injection H4 as <- <-.
  apply bind_inv_ok in H as (u5 & m5 & H5 & H). destruct u5.
  exists m5. split; [exact H5|].
  unfold capture, incr_depth, bind, gets, modify, ret in H.
  injection H as <- <-. auto.
Qed.

Lemma If_enter_stack cond m l m1 :
  If_enter cond m = (Ok l, m1) ->
  _ctrl_stack m1 = (NameIf, ctrl_data l) :: flushed_stack m.
Proof.
  intros H. apply If_enter_inv in H as (m5 & H5 & -> & ->).
  apply set_ctrl_ok in H5 as [Hs _]. exact Hs.
Qed.

Lemma Switch_enter_stack test m l m1 :
  Switch_enter test m = (Ok l, m1) ->
  _ctrl_stack m1 = (NameSwitch, ctrl_data l) :: flushed_stack m.
Proof.
  intros H. unfold Switch_enter in H.
  apply bind_inv_ok in H as (u0 & m0 & H0 & H).
  apply check_context_ok in H0 as [-> _].
  apply bind_inv_ok in H as (switch_data & m4 & H4 & H). injection H4 as <- <-.
  apply bind_inv_ok in H as (u5 & m5 & H5 & H). destruct u5.
  apply set_ctrl_ok in H5 as [Hs _].
  unfold incr_depth, bind, modify, ret in H.
  injection H as <- <-. simpl. exact Hs.
Qed.

(** Opening an [If] next to a sibling [If] whose frame is still on top. *)
Lemma If_enter_sibling cond m l m1 r rest data :
  If_enter cond m = (Ok l, m1) ->
  _ctrl_stack m = (NameIf, r) :: rest ->
  length rest = _depth m ->
  if_store m !! r = Some data ->
  _outer_case l =
    foldl (fun stmts domain => stmts_add domain (if_switch data domain) stmts)
      (_statements m) (touched (if_bodies data))
  /\ _ctrl_stack m1 = (NameIf, ctrl_data l) :: rest.
Proof.
  intros H Hs Hlen Hd. apply If_enter_inv in H as (m5 & H5 & -> & ->).
  unfold _set_ctrl in H5. apply bind_inv_ok in H5 as ([] & m' & Hf & H5).
  rewrite flush_ctrl_pops in Hf. simpl in Hf. rewrite Hs in Hf. simpl in Hf.
  replace (S (length rest) - _depth m) with 1 in Hf by lia.
  simpl in Hf.
  erewrite (bind_ok _ _ _ tt) in Hf.
  2:{ apply (pop_If_ok r data rest); [exact Hs|].
      simpl. now apply lookup_app_l_Some. }
  injection Hf as <-. injection H5 as <-. simpl. auto.
Qed.

(** C9, as amended: [_add_statement] (behind [m.d.<domain> +=] and
    [m.next =]) and the calls that push a frame, [If], [Switch] and [FSM],
    first close, by [_pop_ctrl], every frame beyond the current depth, and
    the loop doing so never runs out of fuel.  So an [If] opened next to a
    sibling [If] whose frame is still on top has that frame lowered into
    the accumulator it captures.  [Elif], [Else], [Case], [Default] and
    [State] close no frame when they are entered; each closes the frames
    beyond the current depth when its body has returned. *)
Theorem pending_frames_closed_by_new_frame :
  (forall m, _flush_ctrl m = pops (length (_ctrl_stack m) - _depth m) m)
  /\ (forall assigns domain depth m,
        _add_statement assigns domain depth m =
          (pops (length (_ctrl_stack m) - _depth m) ;;
           for_each (add_one domain) assigns) m)
  /\ (forall cond m l m1,
        If_enter cond m = (Ok l, m1) ->
        _ctrl_stack m1 = (NameIf, ctrl_data l) :: flushed_stack m)
  /\ (forall test m l m1,
        Switch_enter test m = (Ok l, m1) ->
        _ctrl_stack m1 = (NameSwitch, ctrl_data l) :: flushed_stack m)
  /\ (forall init domain name reset m l m1,
        FSM_enter init domain name reset m = (Ok l, m1) ->
        _ctrl_stack m1 = (NameFSM, ctrl_data l) :: flushed_stack m)
  /\ (forall cond m l m1 r rest data,
        If_enter cond m = (Ok l, m1) ->
        _ctrl_stack m = (NameIf, r) :: rest ->
        length rest = _depth m ->
        if_store m !! r = Some data ->
        _outer_case l =
          foldl (fun stmts domain => stmts_add domain (if_switch data domain) stmts)
            (_statements m) (touched (if_bodies data))
        /\ _ctrl_stack m1 = (NameIf, ctrl_data l) :: rest)
  /\ (forall k m l m1,
        enter_of k m = (Ok l, m1) ->
        match k with
        | KIf _ => True
        | _ => _ctrl_stack m1 = _ctrl_stack m
        end)
  /\ (forall test name l m,
        let close := pops (length (_ctrl_stack m) - _depth m) in
        If_leave test l m = (close ;; if_record (ctrl_data l) test) m
        /\ Case_leave l m = (close ;; case_record (ctrl_data l) (new_patterns l)) m
        /\ Default_leave l m = (close ;; default_record (ctrl_data l)) m
        /\ State_leave name l m = (close ;; state_record (ctrl_data l) name) m).
Proof.
  split; [exact flush_ctrl_pops|].
  split.
  { intros. unfold _add_statement, bind. now rewrite flush_ctrl_pops. }
  split; [exact If_enter_stack|].
  split; [exact Switch_enter_stack|].
  split.
  { intros init domain name reset m l m1 H. now apply FSM_enter_ok in H as [_ H]. }
  split; [exact If_enter_sibling|].
  split.
  { intros k m l m1 H.
    assert (K : match k with KIf _ => True | _ => keeps _ctrl_stack (enter_of k) end).
    { destruct k; simpl; [exact I| | | | |];
        [ unfold Elif_enter | unfold Else_enter
        | unfold Case_enter | unfold Default_enter | unfold State_enter ];
        keeps_tac. }
    destruct k; [exact I| | | | |];
      (pose proof (keeps_eq _ctrl_stack _ K m) as E; now rewrite H in E). }
  intros test name l m close.
  unfold If_leave, Case_leave, Default_leave, State_leave, bind, close.
  rewrite flush_ctrl_pops. auto.
Qed.

(** A sibling [If] and a statement, each after a first [If]. *)
Lemma pending_frames_closed_witness :
  (exists l m1,
     If_enter (Sig sig_b) after_if = (Ok l, m1)
     /\ _ctrl_stack m1 = [(NameIf, 1)]
     /\ _outer_case l =
          [("comb"%string, [Ast.Switch (Cat [Sig sig_a]) [(KeyStr "1", [y_is 1])]])])
  /\ (exists l m1,
        Elif_enter (Sig sig_b) after_if = (Ok l, m1)
        /\ _ctrl_stack m1 = _ctrl_stack after_if).
Proof.
  destruct pending_frames_closed_by_new_frame
    as (_ & _ & _ & _ & _ & Hsibling & Hsecondary & _).
  split.
  - exists (mkLocals 1 []
              [("comb"%string,
                [Ast.Switch (Cat [Sig sig_a]) [(KeyStr "1", [y_is 1])]])]),
           (snd (If_enter (Sig sig_b) after_if)).
    assert (E : If_enter (Sig sig_b) after_if =
                (Ok (mkLocals 1 []
                       [("comb"%string,
                         [Ast.Switch (Cat [Sig sig_a]) [(KeyStr "1", [y_is 1])]])]),
                 snd (If_enter (Sig sig_b) after_if)))
      by (vm_compute; reflexivity).
    destruct (Hsibling (Sig sig_b) after_if _ _ 0 []
                (mkIfData 0 [Sig sig_a] [[("comb"%string, [y_is 1])]]) E)
      as [_ Hstack].
    + vm_compute. reflexivity.
    + vm_compute. reflexivity.
    + vm_compute. reflexivity.
    + split; [exact E|]. split; [exact Hstack | reflexivity].
  - exists (mkLocals 0 [] []), (snd (Elif_enter (Sig sig_b) after_if)).
    assert (E : Elif_enter (Sig sig_b) after_if =
                (Ok (mkLocals 0 [] []), snd (Elif_enter (Sig sig_b) after_if)))
      by (vm_compute; reflexivity).
    split; [exact E|].
    exact (Hsecondary (KElif (Sig sig_b)) after_if _ _ E).
Defined.

(** C9 as stated fails for the calls that open a construct without
    pushing a frame.  After an [If], the stack is longer than the depth;
    [Elif] returns and leaves the frame open.  And a [Case] entered while
    a frame beyond the depth is still open does not close it: it finds
    that frame on top in place of its [Switch] and raises. *)
Lemma Elif_and_Case_close_nothing :
  (_depth after_if < length (_ctrl_stack after_if)
   /\ exists l m1,
        Elif_enter (Sig sig_b) after_if = (Ok l, m1)
        /\ _ctrl_stack m1 = _ctrl_stack after_if)
  /\ (_depth after_failed_case < length (_ctrl_stack after_failed_case)
      /\ exists m1,
           Case_enter [PConst 2] after_failed_case = (Err TypeError, m1)
           /\ _ctrl_stack m1 = _ctrl_stack after_failed_case).
Proof.
  split; (split; [vm_compute; lia|]).
  - eexists _, _. split; vm_compute; reflexivity.
  - eexists. split; vm_compute; reflexivity.
Qed.

(** ** The driver registry *)



Lemma drive_all_ok domain signals m :
  Forall (drivable domain m) signals ->
  exists m',
    for_each (drive domain) signals m = (Ok tt, m')
    /\ _statements m' = _statements m
    /\ (forall signal, signal ∈ signals -> _driving m' !! sig_id signal = Some domain)
    /\ (forall k d, _driving m !! k = Some d -> _driving m' !! k = Some d).
Proof.
  revert m. induction signals as [|s ss IH]; intros m Hall.
  - exists m. repeat split; auto. intros s H. inversion H.
  - apply Forall_cons in Hall as [Hs Hss].
    assert (Hstep : exists m1,
               drive domain s m = (Ok tt, m1)
               /\ _statements m1 = _statements m
               /\ _driving m1 !! sig_id s = Some domain
               /\ (forall k d, _driving m !! k = Some d -> _driving m1 !! k = Some d)).
    { unfold drive. destruct Hs as [Hs|Hs]; rewrite Hs.
      - eexists. split; [reflexivity|]. simpl. split; [reflexivity|].
        split; [apply lookup_insert_eq|].
        intros k d Hk. rewrite lookup_insert_ne; [exact Hk | congruence].
      - rewrite decide_True by reflexivity. exists m. auto. }
    destruct Hstep as (m1 & Hd & Hst & Hnew & Hold).
    destruct (IH m1) as (m' & Hrest & Hst' & Hnew' & Hold').
    { eapply Forall_impl; [exact Hss|]. intros x [Hx|Hx].
      - destruct (decide (sig_id x = sig_id s)) as [E|Hne].
        + right. now rewrite E.
        + unfold drivable. destruct (_driving m1 !! sig_id x) as [d'|] eqn:E'; [|now left].
          right. unfold drive in Hd.
          destruct (_driving m !! sig_id s) as [cd|].
          * destruct (decide (cd = domain)); [|discriminate].
            injection Hd as <-. congruence.
          * injection Hd as <-. simpl in E'.
            rewrite lookup_insert_ne in E' by congruence. congruence.
      - right. now apply Hold. }
    exists m'. split; [simpl; now rewrite (bind_ok _ _ _ _ _ Hd)|].
    split; [congruence|]. split.
    + intros x Hx. apply elem_of_cons in Hx as [->|Hx]; [now apply Hold' | now apply Hnew'].
    + intros k d Hk. apply Hold', Hold, Hk.
Qed.









(** ** The ongoing indicators of an FSM *)







Lemma od_get_elem {K V} `{EqDecision K} (k : K) (v : V) d :
  od_get k d = Some v -> (k, v) ∈ d.
Proof.
  induction d as [|[k' v'] d IH]; simpl; [discriminate|].
  destruct (decide (k = k')) as [->|]; [intros [= ->]; left | intros H; right; auto].
Qed.

Lemma od_keys_set_fresh {K V} `{EqDecision K} (k : K) (v : V) d :
  od_mem k d = false -> od_keys (od_set k v d) = od_keys d ++ [k].
Proof. intros H. rewrite od_set_fresh by exact H. unfold od_keys. now rewrite map_app. Qed.

Lemma indicators_match_write r data' m :
  indicators_match m ->
  od_keys (fsm_ongoing data') = od_keys (fsm_encoding data') ->
  indicators_match (set_fsm_store (<[r := data']> (fsm_store m)) m).
Proof.
  intros H Hd r' d Hr'. simpl in Hr'.
  destruct (decide (r = r')) as [<-|Hne].
  - destruct (decide (r < length (fsm_store m))) as [Hlt|Hge].
    + rewrite list_lookup_insert_eq in Hr' by exact Hlt. now injection Hr' as <-.
    + rewrite list_insert_ge in Hr' by lia. eauto.
  - rewrite list_lookup_insert_ne in Hr' by exact Hne. eauto.
Qed.

Lemma indicators_match_invariant prog :
  preserves indicators_match (run prog) /\ preserves indicators_match _pop_ctrl.
Proof.
  assert (Hnew : forall nm ini dom,
             preserves indicators_match (new_fsm (mkFSMData nm ini dom [] [] [] [] None))).
  { intros nm ini dom m H r data Hr. simpl in Hr.
    apply lookup_app_Some in Hr as [Hr|[_ Hr]]; [eauto|].
    destruct (r - length (fsm_store m)); [|discriminate]. now injection Hr as <-. }
  assert (Href : forall r name, preserves indicators_match (reference_state r name)).
  { intros r name m H. unfold reference_state, bind, load.
    destruct (fsm_store m !! r) as [data|] eqn:E; [|exact H].
    destruct (od_mem name (fsm_encoding data)) eqn:Em; [exact H|].
    apply indicators_match_write; [exact H|]. simpl.
    pose proof (H r data E) as Hk.
    rewrite !od_keys_set_fresh; [now rewrite Hk | exact Em |].
    apply od_mem_false. rewrite Hk. now apply od_mem_false. }
  assert (Hstate : forall r name, preserves indicators_match (state_record r name)).
  { intros r name m H. unfold state_record, bind, load, gets.
    destruct (fsm_store m !! r) as [data|] eqn:E; [|exact H].
    apply indicators_match_write; [exact H | exact (H r data E)]. }
  assert (Hpop : forall r, preserves indicators_match (pop_FSM r)).
  { intros r m H. unfold pop_FSM. unfold bind at 1, load.
    destruct (fsm_store m !! r) as [data|] eqn:E; [|exact H].
    destruct (fsm_states data) as [|[first body] others].
    - apply indicators_match_write; [exact H | exact (H r data E)].
    - unfold bind at 1, od_index.
      destruct (od_get _ _) as [init|]; [|exact H]. cbn [ret]. cbv zeta.
      erewrite bind_ok by reflexivity.
      match goal with
      | |- indicators_match (snd (?c ?m')) =>
          assert (Hc : preserves indicators_match c) by pres; apply Hc
      end.
      apply indicators_match_write; [exact H | exact (H r data E)]. }
  split; [apply invariant_run | apply invariant_pop_ctrl];
    auto; try (intros; pres); try (intros ? ? H; exact H).
Qed.

(** *** What [elaborate] hands to the fragment *)











(** ** The encoding of the initial state *)

(** A name referenced for the first time is encoded as the number of
    names referenced before it; a name that has an encoding keeps it. *)
Lemma reference_state_encoding fsm name m data :
  fsm_store m !! fsm = Some data ->
  encoding_of (snd (reference_state fsm name m)) fsm =
    if od_mem name (fsm_encoding data) then fsm_encoding data
    else fsm_encoding data ++ [(name, length (fsm_encoding data))].
Proof.
  intros H. unfold reference_state, bind, load, encoding_of. rewrite H.
  destruct (od_mem name (fsm_encoding data)) eqn:E; simpl.
  - now rewrite H.
  - rewrite list_lookup_insert_eq by (now apply lookup_lt_Some in H). simpl.
    now apply od_set_fresh.
Qed.

(** Popping a frame changes no encoding. *)
Lemma pop_ctrl_keeps_encoding fsm : keeps (fun m => encoding_of m fsm) _pop_ctrl.
Proof.
  intros enc.
  assert (Hpop : forall r, preserves (fun m => encoding_of m fsm = enc) (pop_FSM r)).
  { intros r m H. unfold pop_FSM. unfold bind at 1, load.
    destruct (fsm_store m !! r) as [data|] eqn:E; [|exact H].
    assert (Hw : forall decoding signal,
               encoding_of (set_fsm_store
                              (<[r := with_signal data decoding signal]> (fsm_store m)) m) fsm
               = enc).
    { intros decoding signal. unfold encoding_of in *. simpl.
      destruct (decide (r = fsm)) as [->|Hne].
      - rewrite list_lookup_insert_eq by (now apply lookup_lt_Some in E).
        now rewrite E in H.
      - now rewrite list_lookup_insert_ne by exact Hne. }
    destruct (fsm_states data) as [|[first body] others]; [apply Hw|].
    unfold bind at 1, od_index.
    destruct (od_get _ _) as [init|]; [|exact H]. cbn [ret]. cbv zeta.
    erewrite bind_ok by reflexivity.
    match goal with
    | |- encoding_of (snd (?c ?m')) fsm = enc =>
        assert (Hc : preserves (fun m => encoding_of m fsm = enc) c) by pres;
        apply Hc
    end.
    apply Hw. }
  pres.
Qed.

(** C1 fails on the code: names are encoded by their position in order
    of first reference and [_pop_ctrl] changes no encoding; it only takes
    the encoding of the initial state as the reset value of the state
    signal.  With [init="A"] and the states declared in the order ["B"],
    ["A"], the FSM closes without an error and ["A"] is encoded as [1];
    likewise for a first declared state that was not the first name
    referenced. *)
Theorem FSM_initial_state_encoding_not_zero :
  (run fsm_init_A Module_init = (Ok tt, built fsm_init_A)
   /\ encoding_of (built fsm_init_A) 0 = [("B", 0); ("A", 1)]%string
   /\ od_get "A"%string (encoding_of (built fsm_init_A) 0) = Some 1
   /\ state_init (built fsm_init_A) 0 = Some 1)
  /\ (run fsm_ongoing_first Module_init = (Ok tt, built fsm_ongoing_first)
      /\ encoding_of (built fsm_ongoing_first) 0 = [("B", 0); ("A", 1)]%string
      /\ od_get "A"%string (encoding_of (built fsm_ongoing_first) 0) = Some 1
      /\ state_init (built fsm_ongoing_first) 0 = Some 1).
Proof.
  split; (split; [|split; [|split]]); vm_compute; reflexivity.
Qed.

(** * Further properties of the builder *)

Lemma reaches_bind {A B} (c : M A) (f : A -> M B) c1 :
  keeps _ctrl_context c -> (forall a, reaches c1 (f a)) -> reaches c1 (bind c f).
Proof.
  intros Hc Hf m. unfold bind.
  pose proof (keeps_eq _ _ Hc m) as E.
  destruct (c m) as [[a|e] m1]; simpl in E; [|exact E].
  specialize (Hf a m1). destruct (f a m1) as [[l|e] m2]; congruence.
Qed.

Lemma reaches_set {A} c1 (k : M A) :
  keeps _ctrl_context k -> (forall m, exists a m', k m = (Ok a, m')) ->
  reaches c1 (modify (set_ctrl_context c1) ;; k).
Proof.
  intros Hk Hok m. unfold bind, modify.
  pose proof (keeps_eq _ _ Hk (set_ctrl_context c1 m)) as E.
  destruct (Hok (set_ctrl_context c1 m)) as (a & m' & Hr). rewrite Hr in *. exact E.
Qed.

Lemma switches_check {A} construct c0 c1 (rest : M A) :
  (forall m, _ctrl_context m = c0 ->
     match rest m with
     | (Ok _, m1) => _ctrl_context m1 = c1
     | (Err _, m1) => _ctrl_context m1 = _ctrl_context m
     end) ->
  switches c0 c1 (_check_context construct c0 ;; rest).
Proof.
  intros H m. unfold bind, _check_context.
  destruct (decide (_ctrl_context m = c0)) as [E|E].
  - specialize (H m E). destruct (rest m) as [[a|e] m1]; auto.
  - destruct (_ctrl_context m) eqn:Ec; simpl; congruence.
Qed.

Lemma reaches_keeps {A} (c : M A) c0 m :
  keeps _ctrl_context c -> _ctrl_context m = c0 ->
  match c m with
  | (Ok _, m1) => _ctrl_context m1 = c0
  | (Err _, m1) => _ctrl_context m1 = _ctrl_context m
  end.
Proof.
  intros Hc E. pose proof (keeps_eq _ _ Hc m) as E'.
  destruct (c m) as [[a|e] m1]; simpl in E'; congruence.
Qed.

Lemma with_keeps_context c0 c1 enter leave fin post body :
  switches c0 c1 enter ->
  (forall l, keeps _ctrl_context (body l)) ->
  (forall l, keeps _ctrl_context (leave l)) ->
  (forall l m, _ctrl_context m = c1 ->
     exists m', fin l m = (Ok tt, m') /\ _ctrl_context m' = c0) ->
  (forall l, keeps _ctrl_context (post l)) ->
  keeps _ctrl_context (with_ enter leave fin post body).
Proof.
  intros He Hb Hl Hf Hp v m H. unfold with_, bind at 1 2.
  specialize (He m). destruct (enter m) as [[l|e] m1]; simpl; [|congruence].
  destruct He as [E0 E1]. unfold try_finally.
  assert (E2 : _ctrl_context (snd ((body l ;; leave l) m1)) = _ctrl_context m1).
  { apply keeps_eq. intros w. apply preserves_bind; [apply Hb | intros _; apply Hl]. }
  destruct ((body l ;; leave l) m1) as [r m2]; simpl in E2.
  destruct (Hf l m2) as (m3 & Hfin & E3); [congruence|]. rewrite Hfin.
  destruct r as [[]|e]; simpl.
  - rewrite (keeps_eq _ _ (Hp l)). congruence.
  - congruence.
Qed.

Lemma switches_If_enter cond : switches None None (If_enter cond).
Proof.
  unfold If_enter. apply switches_check. intros m E.
  apply reaches_keeps; [keeps_tac | exact E].
Qed.

Lemma switches_Elif_enter cond : switches None None (Elif_enter cond).
Proof.
  unfold Elif_enter. apply switches_check. intros m E.
  apply reaches_keeps; [keeps_tac | exact E].
Qed.

Lemma switches_Else_enter : switches None None Else_enter.
Proof.
  unfold Else_enter. apply switches_check. intros m E.
  apply reaches_keeps; [keeps_tac | exact E].
Qed.

Ltac reaches_tac :=
  repeat first
    [ apply reaches_set; [keeps_tac | intros ?; eexists _, _; reflexivity]
    | apply reaches_bind; [keeps_tac | intros ?] ].

Lemma switches_Switch_enter test :
  switches None (Some CtxSwitch) (Switch_enter test).
Proof.
  unfold Switch_enter. apply switches_check. intros m _. revert m.
  change (reaches (Some CtxSwitch)
    (switch_data <- new_switch (mkSwitchData test []) ;;
     _set_ctrl NameSwitch switch_data ;;
     modify (set_ctrl_context (Some CtxSwitch)) ;; incr_depth ;;
     ret (mkLocals switch_data [] []))).
  reaches_tac.
Qed.

Lemma switches_Case_enter patterns :
  switches (Some CtxSwitch) None (Case_enter patterns).
Proof.
  unfold Case_enter. apply switches_check. intros m _. revert m.
  change (reaches None
    (switch_data <- _get_ctrl NameSwitch ;;
     switch_data <- subscript switch_data ;;
     warn_after_default switch_data ;;
     data <- load switch_store switch_data ;;
     new_patterns <- case_patterns (len (switch_test data)) patterns [] ;;
     l <- capture switch_data new_patterns ;;
     modify (set_ctrl_context None) ;; ret l)).
  reaches_tac.
Qed.

Lemma switches_Default_enter : switches (Some CtxSwitch) None Default_enter.
Proof.
  unfold Default_enter. apply switches_check. intros m _. revert m.
  change (reaches None
    (switch_data <- _get_ctrl NameSwitch ;;
     switch_data <- subscript switch_data ;;
     warn_after_default switch_data ;;
     l <- capture switch_data [] ;;
     modify (set_ctrl_context None) ;; ret l)).
  reaches_tac.
Qed.

Lemma switches_FSM_enter init domain name reset :
  switches None (Some CtxFSM) (FSM_enter init domain name reset).
Proof.
  unfold FSM_enter. apply switches_check. intros m _. revert m.
  change (reaches (Some CtxFSM)
    ((if decide (domain = "comb"%string) then raise (ValueError (FSMDomain domain))
      else ret tt) ;;
     init <- match reset with
             | Some r =>
                 match init with
                 | Some _ => raise (ValueError ResetAndInit)
                 | None => warn ResetDeprecated ;; ret (Some r)
                 end
             | None => ret init
             end ;;
     fsm_data <- new_fsm (mkFSMData name init domain [] [] [] [] None) ;;
     _set_ctrl NameFSM fsm_data ;;
     modify (fun m => set_generated (od_set name fsm_data (_generated m)) m) ;;
     modify (set_ctrl_context (Some CtxFSM)) ;;
     incr_depth ;;
     ret (mkLocals fsm_data [] []))).
  reaches_tac.
Qed.

Lemma switches_State_enter name : switches (Some CtxFSM) None (State_enter name).
Proof.
  unfold State_enter. apply switches_check. intros m _. revert m.
  change (reaches None
    (fsm_data <- _get_ctrl NameFSM ;;
     fsm_data <- subscript fsm_data ;;
     data <- load fsm_store fsm_data ;;
     (if od_mem name (fsm_states data) then raise (NameError (StateAlreadyDefined name))
      else ret tt) ;;
     reference_state fsm_data name ;;
     l <- capture fsm_data [] ;;
     modify (set_ctrl_context None) ;; ret l)).
  reaches_tac.
Qed.

Ltac with_context lem :=
  eapply with_keeps_context;
  [ apply lem
  | intros ? ?; auto
  | intros ? ?; pres
  | intros ? ? ?; eexists; split; [reflexivity | simpl; auto]
  | intros ? ?; pres ].

Lemma keeps_context_exec c : keeps _ctrl_context (exec c).
Proof.
  induction c as [c IH] using Cmd_body_ind.
  assert (Hbody : keeps _ctrl_context (for_each exec (body_of c))).
  { intros v. apply preserves_run. eapply Forall_impl; [exact IH|]. intros c' H; apply H. }
  destruct c; simpl in Hbody; simpl exec.
  - keeps_tac.
  - with_context switches_If_enter.
  - with_context switches_Elif_enter.
  - with_context switches_Else_enter.
  - with_context switches_Switch_enter.
  - with_context switches_Case_enter.
  - with_context switches_Default_enter.
  - with_context switches_FSM_enter.
  - with_context switches_State_enter.
  - keeps_tac.
  - keeps_tac.
  - keeps_tac.
  - intros v. apply preserves_try_except_pass, Hbody.
Qed.

(** X1: whatever a builder call does, returning or raising, and whatever
    its body does, the nesting depth and the control context are the same
    after it as before it; so they are after any sequence of calls. *)
Theorem calls_restore_depth_and_context :
  (forall c m,
     _depth (snd (exec c m)) = _depth m
     /\ _ctrl_context (snd (exec c m)) = _ctrl_context m)
  /\ (forall prog m,
        _depth (snd (run prog m)) = _depth m
        /\ _ctrl_context (snd (run prog m)) = _ctrl_context m).
Proof.
  split.
  - intros c m. split.
    + apply (keeps_eq _depth), keeps_depth_exec.
    + apply (keeps_eq _ctrl_context), keeps_context_exec.
  - intros prog m. split.
    + apply (keeps_eq _depth), keeps_depth_run.
    + apply (keeps_eq _ctrl_context). intros v. apply preserves_run, Forall_forall.
      intros c _. apply keeps_context_exec.
Qed.

(** X2: a construct used in another context than the one it asks for
    raises a [SyntaxError] before anything else happens: the builder is
    left exactly as it was and the body is not run.  The message is the
    "outside of" one when no context is open and the "directly inside of"
    one otherwise. *)
Theorem construct_in_wrong_context_rejected c construct context m :
  construct_of c = Some (construct, context) ->
  _ctrl_context m <> context ->
  exec c m =
    (Err (SyntaxError
            match _ctrl_context m with
            | None => NotPermittedOutside construct context
            | Some inside => NotPermittedInside construct inside
            end), m).
Proof.
  intros Hc Hne.
  assert (Hcheck : forall A (rest : M A),
            (_check_context construct context ;; rest) m =
              (Err (SyntaxError
                      match _ctrl_context m with
                      | None => NotPermittedOutside construct context
                      | Some inside => NotPermittedInside construct inside
                      end), m)).
  { intros A rest. unfold bind, _check_context.
    rewrite decide_False by exact Hne. now destruct (_ctrl_context m). }
  destruct c; simpl in Hc; try discriminate; injection Hc as <- <-;
    simpl exec; apply with_enter_raises; apply Hcheck.
Qed.

(** An [If] directly inside a [Switch], and a [Case] outside of one. *)
Lemma construct_in_wrong_context_witness :
  exec (CIf (Sig sig_a) [CAdd "comb" [y_is 1]]) in_switch =
    (Err (SyntaxError (NotPermittedInside "If" CtxSwitch)), in_switch)
  /\ exec (CCase [PStr "01"] []) Module_init =
       (Err (SyntaxError (NotPermittedOutside "Case" (Some CtxSwitch))), Module_init).
Proof.
  split.
  - apply (construct_in_wrong_context_rejected
             (CIf (Sig sig_a) [CAdd "comb" [y_is 1]]) "If" None in_switch);
      [reflexivity | discriminate].
  - apply (construct_in_wrong_context_rejected
             (CCase [PStr "01"] []) "Case" (Some CtxSwitch) Module_init);
      [reflexivity | discriminate].
Defined.





Lemma Statement_nested_ind (P : Statement -> Prop) :
  (forall lhs rhs, P (Assign lhs rhs)) ->
  (forall kind test, P (Property kind test)) ->
  (forall ctrl_data state, P (FSMNextStatement ctrl_data state)) ->
  (forall test cases,
     Forall (fun c => Forall P (snd c)) cases -> P (Ast.Switch test cases)) ->
  forall s, P s.
Proof.
  intros HA HP HN HS. fix IH 1. intros [lhs rhs|kind test|ctrl_data state|test cases];
    [apply HA | apply HP | apply HN | apply HS].
  induction cases as [|[key stmts] cases IHc];
    [apply List.Forall_nil | apply List.Forall_cons; [|exact IHc]].
  simpl. induction stmts as [|s stmts IHs];
    [apply List.Forall_nil | apply List.Forall_cons; [apply IH | exact IHs]].
Qed.

Lemma mapM_resolve_free store stmts stmts' :
  Forall (fun s => forall s', resolve_statement store s = Some s' ->
                              late_bound_free s' = true) stmts ->
  mapM (resolve_statement store) stmts = Some stmts' ->
  forallb late_bound_free stmts' = true.
Proof.
  intros IH E. apply mapM_Some in E.
  induction E as [|x y xs ys Hxy _ IHr]; [reflexivity|].
  inversion IH as [|? ? Hx Hxs]; subst. simpl.
  now rewrite (Hx _ Hxy), (IHr Hxs).
Qed.

Lemma mapM_resolve_fixed store stmts :
  Forall (fun s => late_bound_free s = true -> resolve_statement store s = Some s)
    stmts ->
  forallb late_bound_free stmts = true ->
  mapM (resolve_statement store) stmts = Some stmts.
Proof.
  intros IH H. apply mapM_Some.
  induction IH as [|s stmts Hs _ IHs]; [constructor|].
  simpl in H. apply andb_true_iff in H as [Ha Hb]. constructor; auto.
Qed.

Lemma resolve_statement_free store s s' :
  resolve_statement store s = Some s' -> late_bound_free s' = true.
Proof.
  revert s'. induction s as [lhs rhs|kind test|ctrl_data state|test cases IH]
    using Statement_nested_ind; intros s' H; simpl in H.
  - now injection H as <-.
  - now injection H as <-.
  - destruct (store !! ctrl_data) as [data|]; [|discriminate]. simpl in H.
    destruct (fsm_signal data) as [signal|]; [|discriminate]. simpl in H.
    destruct (od_get state (fsm_encoding data)) as [n|]; [|discriminate].
    now injection H as <-.
  - destruct (mapM _ cases) as [cases'|] eqn:E; [|discriminate].
    injection H as <-. simpl. apply mapM_Some in E.
    induction E as [|[key stmts] [key' stmts'] cs cs' Hc _ IHE]; [reflexivity|].
    inversion IH as [|? ? IHhd IHtl]; subst.
    simpl in *. rewrite (IHE IHtl), andb_true_r.
    destruct (mapM (resolve_statement store) stmts) as [r|] eqn:Er;
      [|discriminate].
    injection Hc as _ <-. eapply mapM_resolve_free; eauto.
Qed.

Lemma resolve_statement_fixed store s :
  late_bound_free s = true -> resolve_statement store s = Some s.
Proof.
  induction s as [lhs rhs|kind test|ctrl_data state|test cases IH]
    using Statement_nested_ind; intros H; simpl in *; try reflexivity; [discriminate|].
  assert (E : mapM (fun c => stmts ← mapM (resolve_statement store) (snd c);
                             Some (fst c, stmts)) cases = Some cases).
  { apply mapM_Some. induction IH as [|[key stmts] cases IHhd _ IHc]; [constructor|].
    simpl in H. apply andb_true_iff in H as [H1 H2].
    constructor; [|now apply IHc].
    simpl in *. now rewrite (mapM_resolve_fixed _ _ IHhd H1). }
  now rewrite E.
Qed.

Lemma resolve_statements_free store stmts stmts' :
  resolve_statements store stmts = Some stmts' ->
  forallb late_bound_free stmts' = true.
Proof.
  intros H. eapply mapM_resolve_free; [|exact H].
  apply Forall_forall. intros s _ s'. apply resolve_statement_free.
Qed.

Lemma resolve_statements_fixed store stmts :
  forallb late_bound_free stmts = true ->
  resolve_statements store stmts = Some stmts.
Proof.
  intros H. apply mapM_resolve_fixed; [|exact H].
  apply Forall_forall. intros s _. apply resolve_statement_fixed.
Qed.

(** X4: the statements [resolve_statements] returns contain no late-bound
    statement, at any depth of nesting, and a list that contains none is
    returned as it is; so resolving what has been resolved changes
    nothing. *)
Theorem resolve_statements_late_bound store stmts :
  (forall stmts',
     resolve_statements store stmts = Some stmts' ->
     forallb late_bound_free stmts' = true
     /\ resolve_statements store stmts' = Some stmts')
  /\ (forallb late_bound_free stmts = true ->
      resolve_statements store stmts = Some stmts).
Proof.
  split; [|apply resolve_statements_fixed].
  intros stmts' H. pose proof (resolve_statements_free _ _ _ H) as Hfree.
  split; [exact Hfree | now apply resolve_statements_fixed].
Qed.

(** A statement list and a store of frames in which the transition
    resolves: the branch node of state ["B"] of the example FSM. *)
Lemma resolve_statements_late_bound_witness :
  (forallb late_bound_free
     [Ast.Switch (Sig sig_x2)
        [(KeyInt 0, [eq_ (state_signal 0 (mkFSMData "fsm" (Some "A"%string) "sync" [] [] [] [] None)
                            (range 2) 1) (Const_of 1)])]] = true
   /\ resolve_statements (fsm_store fsm_B_A_elaborated)
        [Ast.Switch (Sig sig_x2)
           [(KeyInt 0, [eq_ (state_signal 0 (mkFSMData "fsm" (Some "A"%string) "sync" [] [] [] [] None)
                               (range 2) 1) (Const_of 1)])]]
      = Some [Ast.Switch (Sig sig_x2)
                [(KeyInt 0, [eq_ (state_signal 0 (mkFSMData "fsm" (Some "A"%string) "sync" [] [] [] [] None)
                                    (range 2) 1) (Const_of 1)])]])
  /\ resolve_statements [] [y_is 1; Property "assert" (Sig sig_a)]
     = Some [y_is 1; Property "assert" (Sig sig_a)].
Proof.
  split.
  - apply (proj1 (resolve_statements_late_bound (fsm_store fsm_B_A_elaborated)
                    [Ast.Switch (Sig sig_x2) [(KeyInt 0, [FSMNextStatement 0 "A"])]])).
    vm_compute. reflexivity.
  - apply (proj2 (resolve_statements_late_bound [] [y_is 1; Property "assert" (Sig sig_a)])).
    reflexivity.
Defined.








Lemma frames_write Q r data' m :
  frames Q m -> Q data' ->
  frames Q (set_fsm_store (<[r := data']> (fsm_store m)) m).
Proof.
  intros H Hd r' d Hr'. simpl in Hr'.
  destruct (decide (r = r')) as [<-|Hne].
  - destruct (decide (r < length (fsm_store m))) as [Hlt|Hge].
    + rewrite list_lookup_insert_eq in Hr' by exact Hlt. now injection Hr' as <-.
    + rewrite list_insert_ge in Hr' by lia. eauto.
  - rewrite list_lookup_insert_ne in Hr' by exact Hne. eauto.
Qed.

Section Frames.
Variable Q : FSMData -> Prop.
Hypothesis Q_new : forall name init domain, Q (mkFSMData name init domain [] [] [] [] None).
Hypothesis Q_reference :
  forall data name sig,
    Q data -> od_mem name (fsm_encoding data) = false ->
    Q (mkFSMData (fsm_name data) (fsm_init data) (fsm_domain data)
         (od_set name (length (fsm_encoding data)) (fsm_encoding data))
         (fsm_decoding data) (od_set name sig (fsm_ongoing data))
         (fsm_states data) (fsm_signal data)).
Hypothesis Q_state :
  forall data name stmts,
    Q data ->
    Q (mkFSMData (fsm_name data) (fsm_init data) (fsm_domain data)
         (fsm_encoding data) (fsm_decoding data) (fsm_ongoing data)
         (od_set name stmts (fsm_states data)) (fsm_signal data)).
Hypothesis Q_signal :
  forall data signal, Q data -> fsm_states data = [] ->
    Q (with_signal data (fsm_decoding data) signal).
Hypothesis Q_decoding :
  forall data signal, Q data ->
    Q (with_signal data
         (od_update (map (fun sn => (snd sn, fst sn)) (fsm_encoding data))
            (fsm_decoding data)) signal).

Lemma frames_pop_FSM r : preserves (frames Q) (pop_FSM r).
Proof.
  intros m H. unfold pop_FSM. unfold bind at 1, load.
  destruct (fsm_store m !! r) as [data|] eqn:E; [|exact H].
  destruct (fsm_states data) as [|[first body] others] eqn:Es.
  - apply frames_write; [exact H | apply Q_signal; eauto].
  - unfold bind at 1, od_index.
    destruct (od_get _ _) as [init|]; [|exact H]. cbn [ret]. cbv zeta.
    erewrite bind_ok by reflexivity.
    match goal with
    | |- frames Q (snd (?c ?m')) =>
        assert (Hc : preserves (frames Q) c) by pres; apply Hc
    end.
    apply frames_write; [exact H | apply Q_decoding; eauto].
Qed.

Lemma frames_invariant prog :
  preserves (frames Q) (run prog) /\ preserves (frames Q) _pop_ctrl.
Proof.
  assert (Hnew : forall nm ini dom,
             preserves (frames Q) (new_fsm (mkFSMData nm ini dom [] [] [] [] None))).
  { intros nm ini dom m H r data Hr. simpl in Hr.
    apply lookup_app_Some in Hr as [Hr|[_ Hr]]; [eauto|].
    destruct (r - length (fsm_store m)); [|discriminate]. injection Hr as <-.
    apply Q_new. }
  assert (Href : forall r name, preserves (frames Q) (reference_state r name)).
  { intros r name m H. unfold reference_state, bind, load.
    destruct (fsm_store m !! r) as [data|] eqn:E; [|exact H].
    destruct (od_mem name (fsm_encoding data)) eqn:Em; [exact H|].
    apply frames_write; [exact H|]. apply Q_reference; eauto. }
  assert (Hstate : forall r name, preserves (frames Q) (state_record r name)).
  { intros r name m H. unfold state_record, bind, load, gets.
    destruct (fsm_store m !! r) as [data|] eqn:E; [|exact H].
    apply frames_write; [exact H | apply Q_state; eauto]. }
  pose proof frames_pop_FSM as Hpop.
  split; [apply invariant_run | apply invariant_pop_ctrl];
    auto; try (intros; pres); try (intros ? ? H; exact H).
Qed.
End Frames.

Lemma numbered_nil : numbered [].
Proof. split; [reflexivity | constructor]. Qed.

Lemma numbered_set name d :
  numbered d -> od_mem name d = false -> numbered (od_set name (length d) d).
Proof.
  intros [Hn Hd] Hm. rewrite od_set_fresh by exact Hm. split.
  - rewrite map_app, length_app, Hn. simpl. rewrite Nat.add_1_r, seq_S. reflexivity.
  - unfold od_keys. rewrite map_app. apply NoDup_app. split; [exact Hd|]. split.
    + intros x Hx Hx'. apply list_elem_of_singleton in Hx'. subst x.
      apply od_mem_false in Hm. now apply Hm.
    + simpl. apply NoDup_singleton.
Qed.

Lemma numbered_bound name n d :
  numbered d -> od_get name d = Some n -> n < length d.
Proof.
  intros [Hn _] H. apply od_get_elem in H.
  assert (Hin : n ∈ map snd d).
  { apply list_elem_of_fmap. now exists (name, n). }
  rewrite Hn in Hin. apply list_elem_of_In, in_seq in Hin. lia.
Qed.

Lemma numbered_position name n d :
  numbered d -> od_get name d = Some n -> d !! n = Some (name, n).
Proof.
  intros [Hn _] H. apply od_get_elem in H.
  apply list_elem_of_lookup in H as [i Hi].
  assert (Hs : map snd d !! i = Some n) by (now rewrite list_lookup_fmap, Hi).
  rewrite Hn in Hs. apply lookup_seq in Hs as [-> _]. exact Hi.
Qed.

Lemma numbered_inj a b n d :
  numbered d -> od_get a d = Some n -> od_get b d = Some n -> a = b.
Proof.
  intros Hd Ha Hb.
  pose proof (numbered_position _ _ _ Hd Ha) as Pa.
  pose proof (numbered_position _ _ _ Hd Hb) as Pb. congruence.
Qed.

(** X6: in every FSM frame of a module built by any sequence of calls,
    from a fresh builder, the names are numbered [0], [1], ... in the
    order in which they were first referenced: every encoding is below the
    number of names, so it fits the state signal of shape
    [range(len(encoding))], and no two names share one. *)
Theorem FSM_encoding_numbers_names prog r data :
  fsm_store (built prog) !! r = Some data ->
  map snd (fsm_encoding data) = seq 0 (length (fsm_encoding data))
  /\ (forall name n,
        od_get name (fsm_encoding data) = Some n -> n < length (fsm_encoding data))
  /\ (forall a b n,
        od_get a (fsm_encoding data) = Some n ->
        od_get b (fsm_encoding data) = Some n -> a = b).
Proof.
  intros H.
  assert (Hn : numbered (fsm_encoding data)).
  { assert (K : frames (fun data => numbered (fsm_encoding data)) (built prog)).
    { apply (frames_invariant (fun data => numbered (fsm_encoding data))); simpl; auto.
      - intros. apply numbered_nil.
      - intros d name sig Hd Hm. now apply numbered_set.
      - intros r' d Hr'. destruct r'; discriminate. }
    exact (K r data H). }
  split; [exact (proj1 Hn)|]. split.
  - intros name n. now apply numbered_bound.
  - intros a b n. now apply numbered_inj.
Qed.

Lemma FSM_encoding_numbers_names_witness :
  map snd (fsm_encoding fsm_init_A_frame) = seq 0 (length (fsm_encoding fsm_init_A_frame))
  /\ (forall name n,
        od_get name (fsm_encoding fsm_init_A_frame) = Some n ->
        n < length (fsm_encoding fsm_init_A_frame))
  /\ (forall a b n,
        od_get a (fsm_encoding fsm_init_A_frame) = Some n ->
        od_get b (fsm_encoding fsm_init_A_frame) = Some n -> a = b).
Proof.
  apply (FSM_encoding_numbers_names fsm_init_A 0 fsm_init_A_frame).
  vm_compute. reflexivity.
Defined.

Lemma od_get_update {K V} `{EqDecision K} (k : K) (pairs d : list (K * V)) :
  NoDup (map fst pairs) ->
  od_get k (od_update pairs d) =
    match od_get k pairs with
    | Some v => Some v
    | None => od_get k d
    end.
Proof.
  unfold od_update. revert d.
  induction pairs as [|[k0 v0] pairs IH]; intros d Hnd; simpl; [reflexivity|].
  apply NoDup_cons in Hnd as [Hk0 Hnd]. rewrite (IH _ Hnd).
  destruct (decide (k = k0)) as [->|Hne].
  - assert (E : od_get k0 pairs = None).
    { destruct (od_get k0 pairs) as [v|] eqn:E; [|reflexivity].
      exfalso. apply Hk0. apply od_get_elem in E.
      apply list_elem_of_fmap. now exists (k0, v). }
    simpl in *. rewrite E. apply od_get_set_eq.
  - destruct (od_get k pairs); [reflexivity|]. now apply od_get_set_ne.
Qed.

Lemma od_get_of_elem {K V} `{EqDecision K} (k : K) (v : V) d :
  NoDup (od_keys d) -> (k, v) ∈ d -> od_get k d = Some v.
Proof.
  intros Hk Hin. induction d as [|[k' v'] d IH]; [inversion Hin|]. simpl.
  simpl in Hk. apply NoDup_cons in Hk as [Hk0 Hk].
  destruct (decide (k = k')) as [->|Hne].
  - apply elem_of_cons in Hin as [[= ->]|Hin]; [reflexivity|].
    exfalso. apply Hk0. apply list_elem_of_fmap. now exists (k', v).
  - apply elem_of_cons in Hin as [[= -> ->]|Hin]; [congruence | auto].
Qed.

Lemma od_get_swap (d : list (string * nat)) name n :
  numbered d ->
  od_get n (map (fun sn => (snd sn, fst sn)) d) = Some name <-> od_get name d = Some n.
Proof.
  intros Hd. split; intros H.
  - apply od_get_elem, list_elem_of_fmap in H as ([a b] & [= -> ->] & Hin).
    apply od_get_of_elem; [apply Hd | exact Hin].
  - pose proof (od_get_elem _ _ _ H) as Hin.
    destruct (od_get n (map (fun sn : string * nat => (snd sn, fst sn)) d))
      as [name'|] eqn:E.
    + apply od_get_elem, list_elem_of_fmap in E as ([a b] & [= -> ->] & Hin').
      f_equal. symmetry.
      apply (numbered_inj _ _ b _ Hd H). apply od_get_of_elem; [apply Hd | exact Hin'].
    + exfalso.
      assert (Hm : od_mem n (map (fun sn : string * nat => (snd sn, fst sn)) d) = false)
        by (unfold od_mem; now rewrite E).
      apply od_mem_false in Hm. apply Hm.
      apply list_elem_of_fmap. exists (n, name). split; [reflexivity|].
      apply list_elem_of_fmap. now exists (name, n).
Qed.

(** What [pop_FSM] leaves in the frame it lowers. *)
Lemma pop_FSM_inv r data m m' :
  fsm_store m !! r = Some data ->
  pop_FSM r m = (Ok tt, m') ->
  match fsm_states data with
  | [] =>
      m' = set_fsm_store
             (<[r := with_signal data (fsm_decoding data)
                       (state_signal r data (unsigned 0) 0)]> (fsm_store m)) m
  | (first, _) :: _ =>
      exists init,
        od_get (default first (fsm_init data)) (fsm_encoding data) = Some init
        /\ fsm_store m' =
             <[r := with_signal data
                      (od_update (map (fun sn => (snd sn, fst sn)) (fsm_encoding data))
                         (fsm_decoding data))
                      (state_signal r data (range (length (fsm_encoding data))) init)]>
               (fsm_store m)
  end.
Proof.
  intros E H. unfold pop_FSM in H. unfold bind at 1, load in H. rewrite E in H.
  destruct (fsm_states data) as [|[first body] others].
  - now injection H as <-.
  - unfold bind at 1, od_index in H.
    destruct (od_get _ _) as [init|]; [|discriminate]. cbn [ret] in H. cbv zeta in H.
    exists init. split; [reflexivity|].
    erewrite bind_ok in H by reflexivity.
    match type of H with
    | ?c ?m0 = _ =>
        assert (Hc : keeps fsm_store c) by keeps_tac;
        pose proof (keeps_eq _ _ Hc m0) as Hk
    end.
    rewrite H in Hk. exact Hk.
Qed.

(** X7: popping the frame of an FSM that has a state body leaves a
    decoding that is the inverse of the encoding: a number decodes to a
    name exactly when the name is encoded by that number. *)
Theorem FSM_decoding_inverts_encoding m r rest data m' :
  _ctrl_stack m = (NameFSM, r) :: rest ->
  fsm_store m !! r = Some data ->
  fsm_states data <> [] ->
  numbered (fsm_encoding data) ->
  (forall n name,
     od_get n (fsm_decoding data) = Some name ->
     od_get name (fsm_encoding data) = Some n) ->
  _pop_ctrl m = (Ok tt, m') ->
  exists data',
    fsm_store m' !! r = Some data'
    /\ fsm_encoding data' = fsm_encoding data
    /\ forall name n,
         od_get n (fsm_decoding data') = Some name
         <-> od_get name (fsm_encoding data') = Some n.
Proof.
  intros Hs E Hne Hnum Hdec H.
  unfold _pop_ctrl in H. rewrite Hs in H.
  apply bind_inv_ok in H as ([] & m1 & H1 & H). injection H1 as <-.
  apply (pop_FSM_inv r data) in H; [|exact E].
  destruct (fsm_states data) as [|[first body] others]; [congruence|].
  destruct H as (init & _ & H). simpl in H.
  eexists. split; [|split].
  - rewrite H. apply list_lookup_insert_eq. now apply lookup_lt_Some in E.
  - reflexivity.
  - intros name n. simpl. rewrite od_get_update.
    + destruct (od_get n (map _ (fsm_encoding data))) as [name'|] eqn:En.
      * split.
        -- intros [= <-]. now apply od_get_swap.
        -- intros Hn. apply od_get_swap in Hn; [|exact Hnum]. congruence.
      * split; [apply Hdec|]. intros Hn.
        apply od_get_swap in Hn; [|exact Hnum]. congruence.
    + rewrite map_map. change (NoDup (map snd (fsm_encoding data))).
      rewrite (proj1 Hnum). apply NoDup_seq.
Qed.

Lemma FSM_decoding_inverts_encoding_witness :
  exists data',
    fsm_store after_fsm_pop !! 0 = Some data'
    /\ fsm_encoding data' = fsm_encoding before_fsm_pop_frame
    /\ forall name n,
         od_get n (fsm_decoding data') = Some name
         <-> od_get name (fsm_encoding data') = Some n.
Proof.
  apply (FSM_decoding_inverts_encoding before_fsm_pop 0 []
           before_fsm_pop_frame after_fsm_pop).
  - reflexivity.
  - reflexivity.
  - discriminate.
  - split; [reflexivity|]. apply (bool_decide_unpack _). vm_compute. exact I.
  - intros n name H. discriminate.
  - vm_compute. reflexivity.
Defined.

(** The exit of an [FSM] whose body returned and all of whose referenced
    states are defined: the frame on top of the stack is popped. *)
Lemma FSM_exit init domain name reset body m l m1 m2 data :
  FSM_enter init domain name reset m = (Ok l, m1) ->
  body (ctrl_data l) m1 = (Ok tt, m2) ->
  fsm_store m2 !! ctrl_data l = Some data ->
  Forall (fun n => od_mem n (fsm_states data) = true) (od_keys (fsm_encoding data)) ->
  FSM init domain name reset body m =
    FSM_post l (set_ctrl_context None (set_depth (pred (_depth m2)) m2)).
Proof.
  intros He Hb Hst Hall. unfold FSM.
  eapply with_returns; [exact He | exact Hb | | reflexivity].
  unfold FSM_leave. rewrite (check_defined_spec _ _ _ Hst).
  destruct (List.find _ _) as [missing|] eqn:Hf; [|reflexivity].
  apply find_some in Hf as [Hin Hno]. apply list_elem_of_In in Hin.
  rewrite Forall_forall in Hall. rewrite (Hall _ Hin) in Hno. discriminate.
Qed.

Lemma pop_ctrl_top m name r rest :
  _ctrl_stack m = (name, r) :: rest ->
  _pop_ctrl m =
    match name with
    | NameIf => pop_If r
    | NameSwitch => pop_Switch r
    | NameFSM => pop_FSM r
    end (set_ctrl_stack rest m).
Proof. intros H. unfold _pop_ctrl. rewrite H. reflexivity. Qed.

(** X8: an [FSM] whose [init] names a state that the FSM never mentions
    is not rejected when it is opened.  When its body has returned and
    every referenced state is defined, the frame is popped and the lookup
    of the initial state's encoding raises a [KeyError]: the FSM gets no
    state signal and emits no statement, and its frame is gone from the
    stack. *)
Theorem FSM_unknown_init_raises_KeyError
    init domain name reset body m l m1 m2 data rest first stmts others x :
  FSM_enter init domain name reset m = (Ok l, m1) ->
  body (ctrl_data l) m1 = (Ok tt, m2) ->
  _ctrl_stack m2 = (NameFSM, ctrl_data l) :: rest ->
  fsm_store m2 !! ctrl_data l = Some data ->
  Forall (fun n => od_mem n (fsm_states data) = true) (od_keys (fsm_encoding data)) ->
  fsm_states data = (first, stmts) :: others ->
  fsm_init data = Some x ->
  od_mem x (fsm_encoding data) = false ->
  exists m3,
    FSM init domain name reset body m = (Err KeyError, m3)
    /\ _ctrl_stack m3 = rest
    /\ fsm_store m3 = fsm_store m2
    /\ _statements m3 = _statements m2
    /\ _top_comb_statements m3 = _top_comb_statements m2.
Proof.
  intros He Hb Hs Hst Hall Hstates Hinit Hx.
  rewrite (FSM_exit _ _ _ _ _ _ _ _ _ _ He Hb Hst Hall).
  unfold FSM_post.
  exists (set_ctrl_stack rest (set_ctrl_context None (set_depth (pred (_depth m2)) m2))).
  split; [|repeat split].
  apply bind_err. rewrite (pop_ctrl_top _ NameFSM (ctrl_data l) rest) by exact Hs.
  unfold pop_FSM. erewrite bind_ok by (unfold load; simpl; now rewrite Hst).
  rewrite Hstates, Hinit. simpl. apply bind_err. unfold od_index.
  unfold od_mem in Hx. destruct (od_get x (fsm_encoding data)); [discriminate|].
  reflexivity.
Qed.

Lemma FSM_unknown_init_witness :
  exists m3,
    fsm_unknown_init Module_init = (Err KeyError, m3)
    /\ _ctrl_stack m3 = []
    /\ fsm_store m3 = fsm_store (snd (run [CState "A" []] (snd (FSM_enter (Some "IDLE"%string) "sync" "fsm" None Module_init))))
    /\ _statements m3 = []
    /\ _top_comb_statements m3 = [].
Proof.
  apply (FSM_unknown_init_raises_KeyError (Some "IDLE"%string) "sync" "fsm" None
           (fun _ => run [CState "A" []]) Module_init (mkLocals 0 [] [])
           (snd (FSM_enter (Some "IDLE"%string) "sync" "fsm" None Module_init))
           (snd (run [CState "A" []]
                   (snd (FSM_enter (Some "IDLE"%string) "sync" "fsm" None Module_init))))
           (mkFSMData "fsm" (Some "IDLE"%string) "sync" [("A"%string, 0)] []
              [("A"%string, mkSignal (OngoingSig 0 "A") "fsm_ongoing_A" (unsigned 1) 0)]
              [("A"%string, [])] None)
           [] "A"%string [] [] "IDLE"%string).
  - reflexivity.
  - vm_compute. reflexivity.
  - reflexivity.
  - vm_compute. reflexivity.
  - repeat constructor.
  - reflexivity.
  - reflexivity.
  - reflexivity.
Defined.

(** X9: an [FSM] whose body returns without having declared a state or
    referenced one is closed without an error: it gets a state signal of
    width zero that resets to zero and is named after the FSM, and it adds
    no statement to any domain. *)
Theorem FSM_without_states init domain name reset body m l m1 m2 data rest :
  FSM_enter init domain name reset m = (Ok l, m1) ->
  body (ctrl_data l) m1 = (Ok tt, m2) ->
  _ctrl_stack m2 = (NameFSM, ctrl_data l) :: rest ->
  fsm_store m2 !! ctrl_data l = Some data ->
  fsm_encoding data = [] ->
  fsm_states data = [] ->
  exists m3 data' signal,
    FSM init domain name reset body m = (Ok tt, m3)
    /\ fsm_store m3 !! ctrl_data l = Some data'
    /\ fsm_signal data' = Some signal
    /\ shape_width (sig_shape signal) = 0
    /\ sig_init signal = 0
    /\ sig_name signal = (fsm_name data +:+ "_state")%string
    /\ _ctrl_stack m3 = rest
    /\ _statements m3 = _statements m2
    /\ _top_comb_statements m3 = _top_comb_statements m2.
Proof.
  intros He Hb Hs Hst Henc Hstates.
  rewrite (FSM_exit _ _ _ _ _ _ _ _ _ _ He Hb Hst)
    by (rewrite Henc; constructor).
  pose proof (lookup_lt_Some _ _ _ Hst) as Hlt.
  unfold FSM_post. eexists _, _, _. split; [|split].
  - erewrite bind_ok.
    2:{ rewrite (pop_ctrl_top _ NameFSM (ctrl_data l) rest) by exact Hs.
        unfold pop_FSM. erewrite bind_ok by (unfold load; simpl; now rewrite Hst).
        rewrite Hstates. reflexivity. }
    unfold bind_state. erewrite bind_ok.
    2:{ unfold load. simpl. now rewrite list_lookup_insert_eq by exact Hlt. }
    reflexivity.
  - simpl. now rewrite list_lookup_insert_eq by exact Hlt.
  - repeat split.
Qed.

Lemma FSM_without_states_witness :
  exists m3 data' signal,
    FSM None "sync" "fsm" None (fun _ => ret tt) Module_init = (Ok tt, m3)
    /\ fsm_store m3 !! 0 = Some data'
    /\ fsm_signal data' = Some signal
    /\ shape_width (sig_shape signal) = 0
    /\ sig_init signal = 0
    /\ sig_name signal = "fsm_state"%string
    /\ _ctrl_stack m3 = []
    /\ _statements m3 = []
    /\ _top_comb_statements m3 = [].
Proof.
  apply (FSM_without_states None "sync" "fsm" None (fun _ => ret tt) Module_init
           (mkLocals 0 [] []) in_fsm in_fsm
           (mkFSMData "fsm" None "sync" [] [] [] [] None) []); reflexivity.
Defined.

Lemma case_patterns_raises width good bad after acc m msg :
  forallb (pattern_ok width) good = true ->
  pattern_error width bad = Some msg ->
  case_patterns width (good ++ bad :: after) acc m =
    (Err (SyntaxError msg),
     set_warnings (warnings m ++ concat (map (diagnostics width) good)) m).
Proof.
  intros Hgood Hbad. revert acc m.
  induction good as [|p good IH]; intros acc m.
  - cbn [app map concat]. rewrite set_warnings_id.
    destruct bad as [s|v|]; simpl in *; [|discriminate|now injection Hbad as <-].
    destruct (negb (str_all pattern_char s)); [now injection Hbad as <-|].
    destruct (negb (stripped_len s =? width)); [now injection Hbad as <-|discriminate].
  - simpl in Hgood. apply andb_true_iff in Hgood as [Hp Hgood].
    specialize (IH Hgood).
    destruct p as [s|v|]; simpl in *; [| |discriminate].
    + apply andb_true_iff in Hp as [Hc Hw]. rewrite Hc, Hw. simpl. apply IH.
    + unfold too_wide. destruct (width <? pattern_len v).
      * unfold bind, warn, modify. rewrite IH. simpl. now rewrite <- app_assoc.
      * rewrite IH. reflexivity.
Qed.

Lemma warn_after_default_run r m data :
  switch_store m !! r = Some data ->
  warn_after_default r m =
    (Ok tt,
     set_warnings
       (warnings m ++ (if od_mem [] (switch_cases data) then [CaseAfterDefault] else []))
       m).
Proof.
  intros H. unfold warn_after_default, bind, load. rewrite H.
  destruct (od_mem [] (switch_cases data)); [reflexivity|].
  now rewrite set_warnings_id.
Qed.

(** X10: a [Case] one of whose patterns is not acceptable raises the
    [SyntaxError] of the first such pattern before its body is run:
    nothing is registered in the frame of the [Switch], and the only trace
    left in the builder are the warnings of the patterns that came before
    (and the one for a case after the default). *)
Theorem Case_invalid_pattern_rejected patterns body m r rest data good bad after msg :
  _ctrl_context m = Some CtxSwitch ->
  _ctrl_stack m = (NameSwitch, r) :: rest ->
  switch_store m !! r = Some data ->
  patterns = good ++ bad :: after ->
  forallb (pattern_ok (len (switch_test data))) good = true ->
  pattern_error (len (switch_test data)) bad = Some msg ->
  Case patterns body m =
    (Err (SyntaxError msg),
     set_warnings
       (warnings m
          ++ (if od_mem [] (switch_cases data) then [CaseAfterDefault] else [])
          ++ concat (map (diagnostics (len (switch_test data))) good)) m).
Proof.
  intros Hctx Hs Hd -> Hgood Hbad.
  apply with_enter_raises. unfold Case_enter.
  erewrite bind_ok.
  2:{ unfold _check_context. now rewrite decide_True by exact Hctx. }
  erewrite bind_ok by (unfold _get_ctrl, gets; rewrite Hs; reflexivity).
  rewrite decide_True by reflexivity.
  erewrite bind_ok by reflexivity.
  rewrite (bind_ok _ _ _ _ _ (warn_after_default_run _ _ _ Hd)).
  erewrite bind_ok by (unfold load; simpl; now rewrite Hd).
  apply bind_err. rewrite (case_patterns_raises _ _ _ _ _ _ _ Hgood Hbad).
  simpl. now rewrite <- app_assoc.
Qed.

(** In a [Switch] on a two-bit value: [Case(5, "0x")], whose constant is
    too wide and whose string has a character that is no bit. *)
Lemma Case_invalid_pattern_witness :
  Case [PConst 5; PStr "0x"] (run [CAdd "comb" [y_is 1]]) in_switch =
    (Err (SyntaxError (CasePatternChars "0x")),
     set_warnings [CasePatternTooWide 5 3 2] in_switch).
Proof.
  apply (Case_invalid_pattern_rejected [PConst 5; PStr "0x"]
           (run [CAdd "comb" [y_is 1]]) in_switch 0 []
           (mkSwitchData (Sig sig_x2) []) [PConst 5] (PStr "0x") []);
    reflexivity.
Defined.

(** What a successful entry of [Default] tells. *)
Lemma Default_enter_ok m l m1 :
  Default_enter m = (Ok l, m1) ->
  exists data,
    _ctrl_context m = Some CtxSwitch
    /\ _ctrl_stack m = (NameSwitch, ctrl_data l) :: tail (_ctrl_stack m)
    /\ switch_store m !! ctrl_data l = Some data
    /\ l = mkLocals (ctrl_data l) [] (_statements m)
    /\ m1 = set_ctrl_context None
              (set_statements []
                 (set_warnings
                    (warnings m
                       ++ (if od_mem [] (switch_cases data) then [CaseAfterDefault] else []))
                    m)).
Proof.
  intros H. unfold Default_enter in H.
  apply bind_inv_ok in H as (u0 & m0 & H0 & H).
  apply check_context_ok in H0 as [-> Hctx].
  apply bind_inv_ok in H as (top & m0' & H1 & H).
  unfold _get_ctrl, gets in H1. injection H1 as <- <-.
  destruct (_ctrl_stack m) as [|[top_name top_data] rest] eqn:Hstack;
    [apply bind_inv_ok in H as (? & ? & [=] & _)|].
  destruct (decide (top_name = NameSwitch)) as [->|];
    [|apply bind_inv_ok in H as (? & ? & [=] & _)].
  apply bind_inv_ok in H as (r & m2 & H2 & H). injection H2 as <- <-.
  apply bind_inv_ok in H as (u3 & m3 & H3 & H).
  destruct (switch_store m !! top_data) as [data|] eqn:Hd.
  - rewrite (warn_after_default_run _ _ _ Hd) in H3. injection H3 as H3. subst m3.
    unfold capture, bind, gets, modify, ret in H. injection H as <- <-.
    exists data. simpl. repeat split; auto.
  - unfold warn_after_default, bind, load in H3. rewrite Hd in H3. discriminate.
Qed.




Lemma for_each_app {A} (f : A -> M unit) l1 l2 m :
  for_each f (l1 ++ l2) m = (for_each f l1 ;; for_each f l2) m.
Proof.
  revert m. induction l1 as [|x l1 IH]; intros m; simpl; [reflexivity|].
  unfold bind in *. destruct (f x m) as [[[]|e] m1]; [apply IH | reflexivity].
Qed.

Lemma add_statement_app before after domain depth m m1 :
  _add_statement before domain depth m = (Ok tt, m1) ->
  _add_statement (before ++ after) domain depth m = for_each (add_one domain) after m1.
Proof.
  unfold _add_statement. intros H.
  apply bind_inv_ok in H as ([] & m0 & Hf & H).
  rewrite (bind_ok _ _ _ _ _ Hf), for_each_app. now rewrite (bind_ok _ _ _ _ _ H).
Qed.

(** X12: a batch of statements is added one statement at a time and stops
    at the first one that is refused; what came before it stays added.  A
    statement that is no assignment, property check or late-bound
    statement is refused with the builder as the statements before it left
    it.  An assignment in conflict over a signal is refused after the
    signals that come before that one on its left-hand side have been
    registered as driven by the domain: the assignment is not added, its
    earlier signals are taken. *)
Theorem add_statement_batch_stops_at_first_refusal before after domain depth m m1 :
  _add_statement before domain depth m = (Ok tt, m1) ->
  (forall test cases,
     _add_statement (before ++ Ast.Switch test cases :: after) domain depth m =
       (Err (SyntaxError (OnlyAssignments domain)), m1))
  /\ (forall lhs rhs pre signal post cd_curr,
        value_lhs_signals lhs = pre ++ signal :: post ->
        Forall (drivable domain m1) pre ->
        _driving m1 !! sig_id signal = Some cd_curr ->
        cd_curr <> domain ->
        exists m2,
          _add_statement (before ++ Assign lhs rhs :: after) domain depth m =
            (Err (SyntaxError (DriverConflict signal domain cd_curr)), m2)
          /\ _statements m2 = _statements m1
          /\ forall s, s ∈ pre -> _driving m2 !! sig_id s = Some domain).
Proof.
  intros H. split.
  - intros test cases. rewrite (add_statement_app _ _ _ _ _ _ H). reflexivity.
  - intros lhs rhs pre signal post cd_curr Hlhs Hpre Hs Hne.
    rewrite (add_statement_app _ _ _ _ _ _ H).
    destruct (drive_all_ok domain pre m1 Hpre) as (m2 & H2 & Hst & Hnew & Hold).
    exists m2. split; [|split; [exact Hst | exact Hnew]].
    simpl. apply bind_err. apply bind_err. rewrite Hlhs, for_each_app.
    rewrite (bind_ok _ _ _ _ _ H2). simpl. apply bind_err.
    unfold drive. rewrite (Hold _ _ Hs). now rewrite decide_False by exact Hne.
Qed.

(** With [a] driven from ["comb"]: a batch with a branch node in second
    place, and the assignment [Cat(b, a).eq(0)] added under ["sync"]. *)
Lemma add_statement_batch_witness :
  _add_statement ([y_is 1] ++ [Ast.Switch (Sig sig_a) []; y_is 0]) "comb" 0 Module_init
    = (Err (SyntaxError (OnlyAssignments "comb")),
       snd (_add_statement [y_is 1] "comb" 0 Module_init))
  /\ exists m2,
       _add_statement ([] ++ [Assign (Cat [Sig sig_b; Sig sig_a]) (Const 0 2)]) "sync" 0
         (built [CAdd "comb" [eq_ sig_a (Const 1 1)]])
         = (Err (SyntaxError (DriverConflict sig_a "sync" "comb")), m2)
       /\ _driving m2 !! sig_id sig_b = Some "sync"%string.
Proof.
  split.
  - apply (proj1 (add_statement_batch_stops_at_first_refusal
                    [y_is 1] [y_is 0] "comb" 0 Module_init
                    (snd (_add_statement [y_is 1] "comb" 0 Module_init))
                    eq_refl)).
  - destruct (proj2 (add_statement_batch_stops_at_first_refusal
                       [] [] "sync" 0 (built [CAdd "comb" [eq_ sig_a (Const 1 1)]])
                       (built [CAdd "comb" [eq_ sig_a (Const 1 1)]]) eq_refl)
                (Cat [Sig sig_b; Sig sig_a]) (Const 0 2) [sig_b] sig_a [] "comb"%string)
      as (m2 & H1 & _ & H3).
    + reflexivity.
    + constructor; [left; reflexivity | constructor].
    + reflexivity.
    + discriminate.
    + exists m2. split; [exact H1|]. apply H3. left.
Defined.

Lemma FSM_enter_reset domain name r m :
  _ctrl_context m = None ->
  domain <> "comb"%string ->
  FSM_enter None domain name (Some r) m =
    FSM_enter (Some r) domain name None
      (set_warnings (warnings m ++ [ResetDeprecated]) m).
Proof.
  intros Hctx Hne. unfold FSM_enter.
  erewrite bind_ok by (unfold _check_context; now rewrite decide_True by exact Hctx).
  erewrite bind_ok by (now rewrite decide_False by exact Hne).
  erewrite bind_ok by reflexivity.
  symmetry.
  erewrite bind_ok
    by (unfold _check_context; simpl; now rewrite decide_True by exact Hctx).
  erewrite bind_ok by (now rewrite decide_False by exact Hne).
  erewrite bind_ok by reflexivity.
  reflexivity.
Qed.

(** X13: [reset=] is another way of writing [init=]: opening an FSM with
    [reset] alone does what opening it with that [init] does, after the
    warning that [reset=] is deprecated; giving both is a [ValueError]
    that leaves the builder as it was. *)
Theorem FSM_reset_is_init domain name body m :
  _ctrl_context m = None ->
  domain <> "comb"%string ->
  (forall init r,
     FSM (Some init) domain name (Some r) body m = (Err (ValueError ResetAndInit), m))
  /\ (forall r,
        FSM None domain name (Some r) body m =
          FSM (Some r) domain name None body
            (set_warnings (warnings m ++ [ResetDeprecated]) m)).
Proof.
  intros Hctx Hne. split.
  - intros init r. apply with_enter_raises. unfold FSM_enter, bind, _check_context.
    rewrite decide_True by exact Hctx. now rewrite decide_False by exact Hne.
  - intros r. unfold FSM, with_. unfold bind at 1 3.
    now rewrite (FSM_enter_reset _ _ _ _ Hctx Hne).
Qed.

(** [with m.FSM(reset="A"): with m.State("A"): pass] on a fresh builder. *)
Lemma FSM_reset_is_init_witness :
  FSM (Some "B"%string) "sync" "fsm" (Some "A"%string) (fun _ => run [CState "A" []])
    Module_init = (Err (ValueError ResetAndInit), Module_init)
  /\ FSM None "sync" "fsm" (Some "A"%string) (fun _ => run [CState "A" []]) Module_init =
       FSM (Some "A"%string) "sync" "fsm" None (fun _ => run [CState "A" []])
         (set_warnings [ResetDeprecated] Module_init).
Proof.
  destruct (FSM_reset_is_init "sync" "fsm" (fun _ => run [CState "A" []]) Module_init
              eq_refl) as [H1 H2]; [discriminate|].
  split; [apply H1 | apply H2].
Defined.




Lemma switch_cases_order domain (cases : list (list Pat * Stmts))
    (acc : list (CaseKey * list Statement)) :
  NoDup (od_keys cases) ->
  (forall ps, ps ∈ od_keys cases -> od_mem (KeyPatterns ps) acc = false) ->
  foldl (fun domain_cases ps =>
           od_set (KeyPatterns (fst ps)) (stmts_get domain (snd ps)) domain_cases)
        acc cases =
    acc ++ map (fun c => (KeyPatterns (fst c), stmts_get domain (snd c))) cases.
Proof.
  revert acc. induction cases as [|[ps body] cases IH]; intros acc Hnd Hfresh; simpl.
  - now rewrite app_nil_r.
  - simpl in Hnd. apply NoDup_cons in Hnd as [Hps Hnd].
    rewrite IH; [| exact Hnd |].
    + rewrite od_set_fresh by (apply Hfresh; left).
      now rewrite <- app_assoc.
    + intros ps' Hin. unfold od_mem.
      rewrite od_get_set_ne by (intros [= ->]; contradiction).
      apply (Hfresh ps'). now right.
Qed.

(** X15: popping the frame of a [Switch] returns and appends, for each
    domain that some registered body has statements for and for no other
    domain, one branch node on the switch value to that domain's
    statements.  The node holds every registered case, in the order of
    registration, each with the statements its body has for the domain
    (none, if the body has none); a [Switch] none of whose cases has a
    statement adds nothing at all. *)
Theorem Switch_lowering m r rest data :
  _ctrl_stack m = (NameSwitch, r) :: rest ->
  switch_store m !! r = Some data ->
  NoDup (od_keys (switch_cases data)) ->
  let bodies := map snd (switch_cases data) in
  let node domain :=
    Ast.Switch (switch_test data)
      (map (fun c => (KeyPatterns (fst c), stmts_get domain (snd c)))
         (switch_cases data)) in
  exists m',
    _pop_ctrl m = (Ok tt, m')
    /\ _ctrl_stack m' = rest
    /\ (forall domain,
          stmts_get domain (_statements m') =
            stmts_get domain (_statements m)
              ++ (if decide (domain ∈ touched bodies) then [node domain] else []))
    /\ (forall domain,
          domain ∈ touched bodies
          <-> exists body : Stmts, body ∈ bodies /\ domain ∈ od_keys body)
    /\ (Forall (fun body : Stmts => body = []) bodies -> _statements m' = _statements m).
Proof.
  intros Hs Hd Hnd bodies node.
  eexists. split; [|split; [|split; [|split]]].
  - rewrite (pop_ctrl_top _ NameSwitch r rest) by exact Hs.
    unfold pop_Switch. erewrite bind_ok by (unfold load; simpl; now rewrite Hd).
    apply for_each_add.
  - reflexivity.
  - intros domain. simpl.
    rewrite stmts_get_foldl by apply touched_NoDup.
    fold bodies. destruct (decide (domain ∈ touched bodies)); [|reflexivity].
    unfold switch_switch, node. rewrite switch_cases_order; [reflexivity | exact Hnd |].
    reflexivity.
  - intros domain. apply touched_spec.
  - intros Hempty. simpl. fold bodies.
    assert (E : touched bodies = []).
    { destruct (touched bodies) as [|d ds] eqn:E; [reflexivity|].
      assert (Hin : d ∈ touched bodies) by (rewrite E; left).
      apply touched_spec in Hin as (body & Hb & Hk).
      rewrite Forall_forall in Hempty. rewrite (Hempty body Hb) in Hk. inversion Hk. }
    now rewrite E.
Qed.

Lemma Switch_lowering_witness :
  exists m',
    _pop_ctrl before_switch_pop = (Ok tt, m')
    /\ stmts_get "comb" (_statements m') =
         [Ast.Switch (Sig sig_x2)
            [(KeyPatterns [PatStr "01"], [y_is 1]); (KeyPatterns [], [])]]
    /\ stmts_get "sync" (_statements m') =
         [Ast.Switch (Sig sig_x2)
            [(KeyPatterns [PatStr "01"], []);
             (KeyPatterns [], [eq_ sig_b (Const 0 1)])]].
Proof.
  destruct (Switch_lowering before_switch_pop 0 []
              (mkSwitchData (Sig sig_x2)
                 [([PatStr "01"], [("comb"%string, [y_is 1])]);
                  ([], [("sync"%string, [eq_ sig_b (Const 0 1)])])]))
    as (m' & H1 & _ & H3 & _).
  - reflexivity.
  - reflexivity.
  - apply (bool_decide_unpack _). vm_compute. exact I.
  - exists m'. split; [exact H1|]. split.
    + rewrite (H3 "comb"%string). reflexivity.
    + rewrite (H3 "sync"%string). reflexivity.
Defined.

(** *** Well-bracketed stacks *)

Lemma Inv_core D b s m m' :
  core m' = core m -> Inv D b s m -> Inv D b s m'.
Proof.
  intros [= Hd Hs Hi]. unfold Inv, well_bracketed. now rewrite Hd, Hs, Hi.
Qed.

Lemma keeps_core_Inv {A} (c : M A) D b s :
  keeps core c -> preserves (Inv D b s) c.
Proof.
  intros K m H. apply (Inv_core D b s m); [|exact H].
  apply (keeps_eq core _ K).
Qed.

Lemma base_length D stack : D <= length stack -> length (base D stack) = D.
Proof. intros H. unfold base. rewrite length_drop. lia. Qed.

Lemma base_all stack : base (length stack) stack = stack.
Proof. unfold base. now rewrite Nat.sub_diag, drop_0. Qed.

Lemma base_cons D x stack : D <= length stack -> base D (x :: stack) = base D stack.
Proof.
  intros H. unfold base. simpl.
  replace (S (length stack) - D) with (S (length stack - D)) by lia. reflexivity.
Qed.

Lemma base_base D D' stack :
  D <= D' -> D' <= length stack -> base D (base D' stack) = base D stack.
Proof.
  intros H1 H2. unfold base. rewrite length_drop, drop_drop. f_equal. lia.
Qed.

Lemma placed_drop store stack n : placed store stack -> placed store (drop n stack).
Proof.
  revert n. induction stack as [|[name r] rest IH]; intros n H; [now rewrite drop_nil|].
  destruct n; [exact H|]. simpl. apply IH, H.
Qed.

Lemma placed_mono store store' stack :
  (forall r data, store !! r = Some data ->
     exists data', store' !! r = Some data' /\ if_depth data' = if_depth data) ->
  placed store stack -> placed store' stack.
Proof.
  intros Hm. induction stack as [|[name r] rest IH]; [auto|].
  intros [H1 H2]. split; [|auto].
  intros Hn. destruct (H1 Hn) as (data & Hd & Hp).
  destruct (Hm _ _ Hd) as (data' & Hd' & Hp'). exists data'. split; [exact Hd' | congruence].
Qed.

Lemma frames_of_app store x stack :
  placed store stack -> frames_of (store ++ [x]) stack = frames_of store stack.
Proof.
  induction stack as [|[name r] rest IH]; [reflexivity|].
  intros [H1 H2]. simpl. rewrite (IH H2). f_equal.
  destruct name; try reflexivity.
  destruct (H1 eq_refl) as (data & Hd & _). simpl.
  rewrite Hd. now apply lookup_app_l_Some.
Qed.

Lemma frames_of_insert store r x stack :
  Forall (fun f => f <> (NameIf, r)) stack ->
  frames_of (<[r := x]> store) stack = frames_of store stack.
Proof.
  induction 1 as [|[name r'] rest Hne _ IH]; [reflexivity|].
  simpl. rewrite IH. f_equal. destruct name; try reflexivity. simpl.
  apply list_lookup_insert_ne. congruence.
Qed.

(** An [If] frame whose depth is not the height of any frame of the stack
    is not on the stack. *)
Lemma placed_absent store stack r data :
  placed store stack ->
  store !! r = Some data ->
  length stack <= if_depth data ->
  Forall (fun f => f <> (NameIf, r)) stack.
Proof.
  intros Hp Hd. induction stack as [|[name r'] rest IH]; intros Hlen; [constructor|].
  destruct Hp as [H1 H2]. simpl in Hlen. constructor; [|apply IH; [exact H2 | lia]].
  intros [= -> ->]. destruct (H1 eq_refl) as (data' & Hd' & Hp'). 
  rewrite Hd in Hd'. injection Hd' as <-. lia.
Qed.

Lemma preserves_while_cond P fuel cond body :
  (forall m, P m -> cond m = true -> P (snd (body m))) ->
  preserves P (while_ fuel cond body).
Proof.
  intros Hb. induction fuel as [|n IH]; simpl; [intros m H; exact H|].
  intros m H. destruct (cond m) eqn:Hc; [|exact H].
  unfold bind. specialize (Hb m H Hc).
  destruct (body m) as [[[]|e] m1]; simpl in *; [now apply IH | exact Hb].
Qed.

Lemma keeps_if_store_pop_ctrl : keeps if_store _pop_ctrl.
Proof. keeps_tac. Qed.

Lemma Inv_pop_ctrl D b s m :
  Inv D b s m -> _depth m < length (_ctrl_stack m) -> Inv D b s (snd (_pop_ctrl m)).
Proof.
  intros (HD & [Hj Hp] & Hb & Hs) Hlt.
  pose proof (pop_ctrl_stack m) as Es.
  pose proof (keeps_eq _depth _ keeps_depth_pop_ctrl m) as Ed.
  pose proof (keeps_eq if_store _ keeps_if_store_pop_ctrl m) as Ei.
  unfold Inv, well_bracketed. rewrite Es, Ed, Ei.
  destruct (_ctrl_stack m) as [|x rest]; [simpl in Hlt; lia|]. simpl in *.
  repeat split; [exact HD | lia | destruct x; apply Hp | | exact Hs].
  rewrite <- Hb. symmetry. apply base_cons. lia.
Qed.

Lemma Inv_flush_ctrl D b s : preserves (Inv D b s) _flush_ctrl.
Proof.
  intros m H. unfold _flush_ctrl.
  apply (preserves_while_cond (Inv D b s)); [|exact H].
  intros m' H' Hc. apply Nat.ltb_lt in Hc. now apply Inv_pop_ctrl.
Qed.

(** After a flush that returns there are exactly as many frames as open
    constructs. *)
Lemma Inv_flushed D b s m m' :
  Inv D b s m -> _flush_ctrl m = (Ok tt, m') ->
  Inv D b s m' /\ _depth m' = _depth m /\ length (_ctrl_stack m') = _depth m
  /\ _ctrl_stack m' = base (_depth m) (_ctrl_stack m)
  /\ if_store m' = if_store m.
Proof.
  intros H Hf. pose proof (Inv_flush_ctrl D b s m H) as H'. rewrite Hf in H'. simpl in H'.
  destruct (flush_ctrl_ok_stack _ _ Hf) as (Hs & Hd & Hle).
  assert (Ki : keeps if_store _flush_ctrl) by keeps_tac.
  pose proof (keeps_eq _ _ Ki m) as Ei. rewrite Hf in Ei. simpl in Ei.
  split; [exact H'|]. destruct H' as (HD' & [Hj' Hp'] & Hrest). rewrite Hd in *.
  split; [reflexivity|]. split; [lia|]. split; [exact Hs | exact Ei].
Qed.

Lemma Inv_push D b s m name r :
  Inv D b s m ->
  length (_ctrl_stack m) = _depth m ->
  (name = NameIf ->
   exists data, if_store m !! r = Some data /\ if_depth data = _depth m) ->
  Inv D b s (set_ctrl_stack ((name, r) :: _ctrl_stack m) m).
Proof.
  intros (HD & [Hj Hp] & Hb & Hs) Hlen Hnew.
  unfold Inv, well_bracketed. simpl. repeat split; auto; try lia.
  - now rewrite Hlen.
  - rewrite <- Hb. apply base_cons. lia.
Qed.

Lemma Inv_incr D b s m :
  Inv D b s m -> _depth m < length (_ctrl_stack m) ->
  Inv D b s (set_depth (S (_depth m)) m).
Proof.
  intros (HD & [Hj Hp] & Hb & Hs) Hlt.
  unfold Inv, well_bracketed. simpl. repeat split; auto; lia.
Qed.

Lemma Inv_new_if D b s m data :
  Inv D b s m -> Inv D b s (set_if_store (if_store m ++ [data]) m).
Proof.
  intros (HD & [Hj Hp] & Hb & Hs).
  unfold Inv, well_bracketed. simpl. repeat split; auto.
  - eapply placed_mono; [|exact Hp]. intros r d Hr. exists d.
    split; [now apply lookup_app_l_Some | reflexivity].
  - rewrite <- Hs. apply frames_of_app. rewrite <- Hb. now apply placed_drop.
Qed.

Lemma check_context_cases construct context m :
  _check_context construct context m = (Ok tt, m)
  \/ exists e, _check_context construct context m = (Err e, m).
Proof.
  unfold _check_context. destruct (decide _); [now left|].
  right. destruct (_ctrl_context m); eauto.
Qed.

(** [_set_ctrl] in a well-bracketed builder: the new frame lands on top of
    the frames of the open constructs. *)
Lemma Inv_set_ctrl D b s name r m :
  Inv D b s m ->
  (name = NameIf ->
   exists data, if_store m !! r = Some data /\ if_depth data = _depth m) ->
  match _set_ctrl name r m with
  | (Ok _, m1) =>
      Inv D b s m1 /\ _depth m1 = _depth m
      /\ _ctrl_stack m1 = (name, r) :: base (_depth m) (_ctrl_stack m)
      /\ length (_ctrl_stack m1) = S (_depth m)
      /\ if_store m1 = if_store m
  | (Err _, m1) => Inv D b s m1
  end.
Proof.
  intros H Hnew. unfold _set_ctrl, bind.
  destruct (_flush_ctrl m) as [[[]|e] m'] eqn:Hf.
  - destruct (Inv_flushed _ _ _ _ _ H Hf) as (H' & Hd & Hlen & Hs & Hi).
    simpl. split; [|split; [exact Hd | split; [now rewrite Hs | split; [now rewrite Hlen | exact Hi]]]].
    apply Inv_push; [exact H' | congruence |]. now rewrite Hi, Hd.
  - pose proof (Inv_flush_ctrl D b s m H) as H'. now rewrite Hf in H'.
Qed.

Lemma enter_spec_keeps enter :
  keeps core enter -> enter_spec 0 anywhere enter.
Proof.
  intros K D b s m H. pose proof (keeps_eq core _ K m) as E.
  destruct (enter m) as [[l|e] m1]; simpl in E.
  - split; [now apply (Inv_core D b s m) | split; [|exact I]].
    now injection E as -> _ _.
  - now apply (Inv_core D b s m).
Qed.

Lemma enter_spec_If cond : enter_spec 1 on_top (If_enter cond).
Proof.
  intros D b s m H. unfold If_enter.
  destruct (check_context_cases "If" None m) as [Hc|[e Hc]];
    [|now rewrite (bind_err _ _ _ _ _ Hc)].
  rewrite (bind_ok _ _ _ _ _ Hc).
  erewrite bind_ok by reflexivity. erewrite bind_ok by reflexivity.
  erewrite bind_ok by reflexivity.
  pose proof (Inv_set_ctrl D b s NameIf (length (if_store m))
                (set_if_store (if_store m ++ [mkIfData (_depth m) [] []]) m)
                (Inv_new_if _ _ _ _ _ H)) as K.
  unfold bind at 1.
  destruct (_set_ctrl _ _ _) as [[[]|e] m1].
  - destruct K as (H1 & Hd & Hs & Hlen & Hi).
    { intros _. exists (mkIfData (_depth m) [] []). split; [|reflexivity].
      simpl. now apply list_lookup_middle. }
    simpl in *. unfold capture, bind, gets, modify, incr_depth, ret. simpl.
    split; [|split].
    + apply (Inv_incr D b s (set_statements [] m1)); [|simpl; lia].
      now apply (Inv_core D b s m1).
    + now rewrite Hd.
    + eexists. split; [exact Hs|]. apply base_length. apply H.
  - apply K. intros _. exists (mkIfData (_depth m) [] []). split; [|reflexivity].
    simpl. now apply list_lookup_middle.
Qed.

Lemma preceding_if_cases e m :
  (exists r rest data,
     preceding_if e m = (Ok r, m)
     /\ _ctrl_stack m = (NameIf, r) :: rest
     /\ if_store m !! r = Some data
     /\ if_depth data = _depth m)
  \/ exists e', preceding_if e m = (Err e', m).
Proof.
  unfold preceding_if, bind, _get_ctrl, gets.
  destruct (_ctrl_stack m) as [|[name r] rest] eqn:Hs; [right; eauto|].
  destruct (decide (name = NameIf)) as [->|]; [|right; eauto].
  unfold load. destruct (if_store m !! r) as [data|] eqn:Hd; [|right; eauto].
  destruct (decide (if_depth data = _depth m)) as [E|]; [|right; eauto].
  left. exists r, rest, data. auto.
Qed.

(** [Elif] and [Else] find their [If] frame on top of the frames of the
    enclosing constructs. *)
Lemma enter_spec_preceding_if e (k : nat -> M Locals) :
  (forall r, k r = (l <- capture r [] ;; incr_depth ;; ret l)) ->
  enter_spec 1 on_top (if_data <- preceding_if e ;; k if_data).
Proof.
  intros Hk D b s m H.
  destruct (preceding_if_cases e m) as [(r & rest & data & Hp & Hs & Hd & Hdepth)|[e' Hp]];
    [|now rewrite (bind_err _ _ _ _ _ Hp)].
  rewrite (bind_ok _ _ _ _ _ Hp), Hk.
  unfold capture, bind, gets, modify, incr_depth, ret. simpl.
  assert (Hlen : length rest = _depth m).
  { destruct H as (_ & [_ Hpl] & _). rewrite Hs in Hpl. destruct Hpl as [H1 _].
    destruct (H1 eq_refl) as (data' & Hd' & Hlen). congruence. }
  split; [|split].
  - apply (Inv_incr D b s (set_statements [] m)); [now apply (Inv_core D b s m)|].
    simpl. rewrite Hs. simpl. lia.
  - reflexivity.
  - exists rest. auto.
Qed.

Lemma enter_spec_Elif cond : enter_spec 1 on_top (Elif_enter cond).
Proof.
  intros D b s m H. unfold Elif_enter.
  destruct (check_context_cases "Elif" None m) as [Hc|[e Hc]];
    [|now rewrite (bind_err _ _ _ _ _ Hc)].
  rewrite (bind_ok _ _ _ _ _ Hc). erewrite bind_ok by reflexivity.
  now apply (enter_spec_preceding_if ElifWithoutIf
               (fun r => l <- capture r [] ;; incr_depth ;; ret l)).
Qed.

Lemma enter_spec_Else : enter_spec 1 on_top Else_enter.
Proof.
  intros D b s m H. unfold Else_enter.
  destruct (check_context_cases "Else" None m) as [Hc|[e Hc]];
    [|now rewrite (bind_err _ _ _ _ _ Hc)].
  rewrite (bind_ok _ _ _ _ _ Hc).
  now apply (enter_spec_preceding_if ElseWithoutIf
               (fun r => l <- capture r [] ;; incr_depth ;; ret l)).
Qed.

Lemma enter_spec_Switch test : enter_spec 1 anywhere (Switch_enter test).
Proof.
  intros D b s m H. unfold Switch_enter.
  destruct (check_context_cases "Switch" None m) as [Hc|[e Hc]];
    [|now rewrite (bind_err _ _ _ _ _ Hc)].
  rewrite (bind_ok _ _ _ _ _ Hc). erewrite bind_ok by reflexivity.
  pose proof (Inv_set_ctrl D b s NameSwitch (length (switch_store m))
                (set_switch_store (switch_store m ++ [mkSwitchData test []]) m)) as K.
  unfold bind at 1.
  destruct (_set_ctrl _ _ _) as [[[]|e] m1].
  - destruct K as (H1 & Hd & Hs & Hlen & Hi);
      [now apply (Inv_core D b s m) | discriminate |].
    simpl in *. unfold bind, modify, incr_depth, ret. simpl.
    split; [|split; [now rewrite Hd | exact I]].
    apply (Inv_incr D b s (set_ctrl_context (Some CtxSwitch) m1)); [|simpl; lia].
    now apply (Inv_core D b s m1).
  - apply K; [now apply (Inv_core D b s m) | discriminate].
Qed.

Lemma enter_spec_FSM init domain name reset :
  enter_spec 1 anywhere (FSM_enter init domain name reset).
Proof.
  intros D b s m H. unfold FSM_enter.
  destruct (check_context_cases "FSM" None m) as [Hc|[e Hc]];
    [|now rewrite (bind_err _ _ _ _ _ Hc)].
  rewrite (bind_ok _ _ _ _ _ Hc).
  destruct (decide (domain = "comb"%string)); [exact H|].
  erewrite bind_ok by reflexivity.
  assert (Hinit : exists init' m0,
             (match reset with
              | Some r =>
                  match init with
                  | Some _ => raise (ValueError ResetAndInit)
                  | None => warn ResetDeprecated ;; ret (Some r)
                  end
              | None => ret init
              end) m = (init', m0) /\ core m0 = core m).
  { destruct reset as [r|]; [destruct init|]; eexists _, _; split; reflexivity. }
  destruct Hinit as (init' & m0 & Hi0 & Hcore). unfold bind at 1. rewrite Hi0.
  assert (H0 : Inv D b s m0) by now apply (Inv_core D b s m).
  destruct init' as [init'|e]; [|exact H0].
  erewrite bind_ok by reflexivity.
  pose proof (Inv_set_ctrl D b s NameFSM (length (fsm_store m0))
                (set_fsm_store
                   (fsm_store m0 ++ [mkFSMData name init' domain [] [] [] [] None]) m0)) as K.
  unfold bind at 1.
  destruct (_set_ctrl _ _ _) as [[[]|e] m1].
  - destruct K as (H1 & Hd & Hs & Hlen & Hi);
      [now apply (Inv_core D b s m0) | discriminate |].
    simpl in *. unfold bind, modify, incr_depth, ret. simpl.
    injection Hcore as Hcd _ _.
    split; [|split; [now rewrite Hd, Hcd | exact I]].
    apply (Inv_incr D b s
             (set_ctrl_context (Some CtxFSM)
                (set_generated (od_set name (length (fsm_store m0)) (_generated m1)) m1)));
      [|simpl; lia].
    now apply (Inv_core D b s m1).
  - apply K; [now apply (Inv_core D b s m0) | discriminate].
Qed.

Lemma with_Inv k G enter leave fin post body :
  enter_spec k G enter ->
  (forall l D b s, preserves (Inv D b s) (body l)) ->
  (forall l, keeps _depth (body l)) ->
  (forall l D b s d m1 m,
     G d l m1 -> D <= d -> _depth m = k + d ->
     Inv D b s m ->
     Inv (k + d) (base (k + d) (_ctrl_stack m1))
       (frames_of (if_store m1) (base (k + d) (_ctrl_stack m1))) m ->
     Inv D b s (snd (leave l m)) /\ _depth (snd (leave l m)) = k + d) ->
  (forall l m,
     exists m', fin l m = (Ok tt, m') /\ _depth m' = _depth m - k
                /\ _ctrl_stack m' = _ctrl_stack m /\ if_store m' = if_store m) ->
  (forall l D b s m,
     Inv D b s m -> k + _depth m <= length (_ctrl_stack m) ->
     Inv D b s (snd (post l m))) ->
  forall D b s, preserves (Inv D b s) (with_ enter leave fin post body).
Proof.
  intros He Hb Hbd Hl Hf Hp D b s m H. unfold with_, bind at 1 2.
  specialize (He D b s m H). destruct (enter m) as [[l|e] m1]; simpl; [|exact He].
  destruct He as (H1 & Hd1 & HG).
  set (b1 := base (k + _depth m) (_ctrl_stack m1)).
  set (s1 := frames_of (if_store m1) b1).
  assert (Hin1 : Inv (k + _depth m) b1 s1 m1).
  { repeat split; try apply H1. lia. }
  unfold try_finally.
  assert (Hmid : Inv D b s (snd ((body l ;; leave l) m1))
                 /\ _depth (snd ((body l ;; leave l) m1)) = k + _depth m).
  { unfold bind.
    pose proof (Hb l D b s m1 H1) as H2. pose proof (Hb l _ b1 s1 m1 Hin1) as Hin2.
    pose proof (keeps_eq _ _ (Hbd l) m1) as Hd2.
    destruct (body l m1) as [[[]|e] m2]; simpl in *.
    - apply (Hl l D b s (_depth m) m1 m2); auto; try lia. apply H.
    - split; [exact H2 | lia]. }
  destruct ((body l ;; leave l) m1) as [r m3]; simpl in Hmid.
  destruct Hmid as [H3 Hd3].
  destruct (Hf l m3) as (m4 & Hfin & Hd4 & Hs4 & Hi4). rewrite Hfin.
  assert (H4 : Inv D b s m4 /\ k + _depth m4 <= length (_ctrl_stack m4)).
  { destruct H3 as (HD3 & [Hj3 Hp3] & Hb3 & Hc3). destruct H as (HD & _).
    unfold Inv, well_bracketed. rewrite Hd4, Hs4, Hi4.
    repeat split; auto; lia. }
  destruct r as [[]|e]; simpl; [|apply H4].
  apply Hp; apply H4.
Qed.

Lemma leave_flat (leave : Locals -> M unit) k (G : nat -> Locals -> Builder -> Prop) :
  (forall l D b s, preserves (Inv D b s) (leave l)) ->
  (forall l, keeps _depth (leave l)) ->
  forall l D b s d m1 m,
    G d l m1 -> D <= d -> _depth m = k + d ->
    Inv D b s m ->
    Inv (k + d) (base (k + d) (_ctrl_stack m1))
      (frames_of (if_store m1) (base (k + d) (_ctrl_stack m1))) m ->
    Inv D b s (snd (leave l m)) /\ _depth (snd (leave l m)) = k + d.
Proof.
  intros Hl Hk l D b s d m1 m _ HD Hd H Hin. split; [now apply Hl|].
  now rewrite (keeps_eq _ _ (Hk l)).
Qed.

Lemma Inv_if_record D b s r test m rest :
  Inv D b s m ->
  _ctrl_stack m = (NameIf, r) :: rest ->
  D <= length rest ->
  Inv D b s (snd (if_record r test m)).
Proof.
  intros (HD & [Hj Hp] & Hb & Hs) Hstack Hle.
  unfold if_record, bind, load, gets.
  destruct (if_store m !! r) as [data|] eqn:Hd; [|repeat split; auto].
  simpl. unfold Inv, well_bracketed. simpl.
  split; [exact HD|]. split; [split; [exact Hj|]|split; [exact Hb|]].
  - eapply placed_mono; [|exact Hp]. intros r' d' Hr'.
    destruct (decide (r = r')) as [<-|Hne].
    + rewrite list_lookup_insert_eq by (now apply lookup_lt_Some in Hd).
      eexists. split; [reflexivity|]. simpl. congruence.
    + rewrite list_lookup_insert_ne by exact Hne. eauto.
  - rewrite <- Hs. apply frames_of_insert.
    rewrite Hstack in Hp, Hb. destruct Hp as [H1 Hp].
    destruct (H1 eq_refl) as (data' & Hd' & Hlen).
    rewrite base_cons in Hb by exact Hle. rewrite <- Hb. unfold base.
    apply Forall_drop. apply (placed_absent (if_store m) rest r data'); auto. lia.
Qed.

Lemma leave_If test :
  forall l D b s d m1 m,
    on_top d l m1 -> D <= d -> _depth m = 1 + d ->
    Inv D b s m ->
    Inv (1 + d) (base (1 + d) (_ctrl_stack m1))
      (frames_of (if_store m1) (base (1 + d) (_ctrl_stack m1))) m ->
    Inv D b s (snd (If_leave test l m)) /\ _depth (snd (If_leave test l m)) = 1 + d.
Proof.
  intros l D b s d m1 m (rest & Hs1 & Hlen) HD Hd H Hin.
  assert (Kd : keeps _depth (If_leave test l)) by keeps_tac.
  split; [|now rewrite (keeps_eq _ _ Kd)].
  unfold If_leave, bind.
  destruct (_flush_ctrl m) as [[[]|e] m'] eqn:Hf.
  - destruct (Inv_flushed _ _ _ _ _ H Hf) as (H' & Hd' & Hlen' & Hs' & Hi').
    destruct Hin as (_ & _ & Hbase & _).
    assert (Hstack : _ctrl_stack m' = (NameIf, ctrl_data l) :: rest).
    { rewrite Hs', Hd, Hbase, Hs1. simpl. rewrite <- Hlen. apply (base_all (_ :: rest)). }
    apply (Inv_if_record D b s _ test m' rest); auto. lia.
  - pose proof (Inv_flush_ctrl D b s m H) as K. now rewrite Hf in K.
Qed.

Lemma Inv_add_statement D b s assigns domain depth :
  preserves (Inv D b s) (_add_statement assigns domain depth).
Proof.
  unfold _add_statement. apply preserves_bind; [apply Inv_flush_ctrl | intros _].
  apply keeps_core_Inv. keeps_tac.
Qed.

Lemma Inv_flush_then D b s (record : M unit) :
  keeps core record -> preserves (Inv D b s) (_flush_ctrl ;; record).
Proof.
  intros K. apply preserves_bind; [apply Inv_flush_ctrl | intros _].
  now apply keeps_core_Inv.
Qed.

Lemma fin_If l m :
  exists m', If_finally l m = (Ok tt, m') /\ _depth m' = _depth m - 1
             /\ _ctrl_stack m' = _ctrl_stack m /\ if_store m' = if_store m.
Proof. eexists. split; [reflexivity|]. simpl. repeat split. lia. Qed.

Lemma fin_Switch l m :
  exists m', Switch_finally l m = (Ok tt, m') /\ _depth m' = _depth m - 1
             /\ _ctrl_stack m' = _ctrl_stack m /\ if_store m' = if_store m.
Proof. eexists. split; [reflexivity|]. simpl. repeat split. lia. Qed.

Lemma fin_Case l m :
  exists m', Case_finally l m = (Ok tt, m') /\ _depth m' = _depth m - 0
             /\ _ctrl_stack m' = _ctrl_stack m /\ if_store m' = if_store m.
Proof. eexists. split; [reflexivity|]. simpl. repeat split. lia. Qed.

Lemma fin_State l m :
  exists m', State_finally l m = (Ok tt, m') /\ _depth m' = _depth m - 0
             /\ _ctrl_stack m' = _ctrl_stack m /\ if_store m' = if_store m.
Proof. eexists. split; [reflexivity|]. simpl. repeat split. lia. Qed.

Lemma post_none (l : Locals) D b s m :
  Inv D b s m -> Inv D b s (snd (no_post l m)).
Proof. auto. Qed.

Lemma post_pop D b s m :
  Inv D b s m -> 1 + _depth m <= length (_ctrl_stack m) ->
  Inv D b s (snd (_pop_ctrl m)).
Proof. intros H Hlt. apply Inv_pop_ctrl; [exact H | lia]. Qed.

(** The invariant holds after every call made in a state where it holds,
    whether the call returns or raises. *)
Lemma Inv_exec c : forall D b s, preserves (Inv D b s) (exec c).
Proof.
  induction c as [c IH] using Cmd_body_ind.
  assert (Hbody : forall D b s, preserves (Inv D b s) (for_each exec (body_of c))).
  { intros D b s. apply preserves_run. eapply Forall_impl; [exact IH|].
    intros c' H; apply H. }
  assert (Hdepth : keeps _depth (for_each exec (body_of c))).
  { apply keeps_depth_run. }
  assert (Hnone : forall (l : Locals) D b s m,
             Inv D b s m -> 0 + _depth m <= length (_ctrl_stack m) ->
             Inv D b s (snd (no_post l m))) by (intros; assumption).
  assert (Hnone1 : forall (l : Locals) D b s m,
             Inv D b s m -> 1 + _depth m <= length (_ctrl_stack m) ->
             Inv D b s (snd (no_post l m))) by (intros; assumption).
  assert (Hpop : forall (l : Locals) D b s m,
             Inv D b s m -> 1 + _depth m <= length (_ctrl_stack m) ->
             Inv D b s (snd (_pop_ctrl m))) by (intros l; apply post_pop).
  assert (Hrecord : forall (record : Locals -> M unit),
             (forall l, keeps core (record l)) ->
             forall l D b s d m1 m,
               anywhere d l m1 -> D <= d -> _depth m = 0 + d ->
               Inv D b s m ->
               Inv (0 + d) (base (0 + d) (_ctrl_stack m1))
                 (frames_of (if_store m1) (base (0 + d) (_ctrl_stack m1))) m ->
               Inv D b s (snd ((_flush_ctrl ;; record l) m))
               /\ _depth (snd ((_flush_ctrl ;; record l) m)) = 0 + d).
  { intros record K. apply (leave_flat (fun l => _flush_ctrl ;; record l)).
    - intros l D b s. apply Inv_flush_then, K.
    - intros l v. apply preserves_bind; [apply keeps_depth_flush_ctrl|].
      intros _ m H. pose proof (keeps_eq core _ (K l) m) as E.
      injection E as E _ _. congruence. }
  intros D b s. destruct c; simpl in Hbody, Hdepth; simpl exec.
  - apply preserves_bind; [apply preserves_gets | intros d].
    apply Inv_add_statement.
  - apply (with_Inv 1 on_top);
      [apply enter_spec_If | intros _; apply Hbody | intros _; apply Hdepth
      | apply leave_If | apply fin_If | apply Hnone1].
  - apply (with_Inv 1 on_top);
      [apply enter_spec_Elif | intros _; apply Hbody | intros _; apply Hdepth
      | apply leave_If | apply fin_If | apply Hnone1].
  - apply (with_Inv 1 on_top);
      [apply enter_spec_Else | intros _; apply Hbody | intros _; apply Hdepth
      | apply leave_If | apply fin_If | apply Hpop].
  - apply (with_Inv 1 anywhere);
      [apply enter_spec_Switch | intros _; apply Hbody | intros _; apply Hdepth
      | | apply fin_Switch | apply Hpop].
    apply leave_flat; [intros l D' b' s' m H; exact H | intros l; keeps_tac].
  - apply (with_Inv 0 anywhere);
      [apply enter_spec_keeps; keeps_tac | intros _; apply Hbody
      | intros _; apply Hdepth | | apply fin_Case | apply Hnone].
    apply (Hrecord (fun l => case_record (ctrl_data l) (new_patterns l))).
    intros l. keeps_tac.
  - apply (with_Inv 0 anywhere);
      [apply enter_spec_keeps; keeps_tac | intros _; apply Hbody
      | intros _; apply Hdepth | | apply fin_Case | apply Hnone].
    apply (Hrecord (fun l => default_record (ctrl_data l))).
    intros l. keeps_tac.
  - apply (with_Inv 1 anywhere);
      [apply enter_spec_FSM | intros l; apply Hbody | intros l; apply Hdepth
      | | apply fin_Switch | ].
    + apply leave_flat; [|intros l; keeps_tac].
      intros l D' b' s'. apply keeps_core_Inv. keeps_tac.
    + intros l D' b' s' m H Hlt. unfold FSM_post, bind.
      pose proof (post_pop _ _ _ _ H Hlt) as K.
      destruct (_pop_ctrl m) as [[[]|e] m1]; simpl in *; [|exact K].
      revert K. apply keeps_core_Inv. keeps_tac.
  - apply (with_Inv 0 anywhere);
      [apply enter_spec_keeps; keeps_tac | intros _; apply Hbody
      | intros _; apply Hdepth | | apply fin_State | apply Hnone].
    apply (Hrecord (fun l => state_record (ctrl_data l) name)).
    intros l. keeps_tac.
  - unfold next. apply preserves_bind; [apply preserves_gets | intros context].
    apply preserves_bind; [apply preserves_gets | intros stack].
    destruct (decide _); [apply preserves_raise|].
    destruct (innermost_fsm stack); [|apply preserves_raise].
    apply preserves_bind; [apply keeps_core_Inv; keeps_tac | intros _].
    apply preserves_bind; [apply preserves_load | intros data].
    apply Inv_add_statement.
  - apply keeps_core_Inv. keeps_tac.
  - apply preserves_raise.
  - apply preserves_try_except_pass, Hbody.
Qed.

Lemma Inv_run prog D b s : preserves (Inv D b s) (run prog).
Proof.
  apply preserves_run, Forall_forall. intros c _. apply Inv_exec.
Qed.

Lemma Inv_here m :
  well_bracketed m ->
  Inv (_depth m) (base (_depth m) (_ctrl_stack m))
    (frames_of (if_store m) (base (_depth m) (_ctrl_stack m))) m.
Proof. intros H. repeat split; try apply H. lia. Qed.

(** X16: a builder in which there are at least as many frames as open
    constructs, and every [If] frame sits at the height its ["depth"]
    field records, is still such a builder after any sequence of calls,
    however the calls end; a fresh builder is one.  And the calls leave the
    frames of the constructs that are open around them alone: these are
    still the bottom frames of the stack, in the same order, and the [If]
    frames among them hold the same tests and bodies. *)
Theorem calls_keep_enclosing_frames prog m :
  well_bracketed Module_init
  /\ (well_bracketed m ->
      let m' := snd (run prog m) in
      let enclosing := base (_depth m) (_ctrl_stack m) in
      well_bracketed m'
      /\ base (_depth m) (_ctrl_stack m') = enclosing
      /\ frames_of (if_store m') enclosing = frames_of (if_store m) enclosing).
Proof.
  split; [split; [simpl; lia | exact I]|].
  intros H. pose proof (Inv_run prog _ _ _ m (Inv_here m H)) as (_ & Hw & Hb & Hs).
  auto.
Qed.

Lemma calls_keep_enclosing_frames_witness :
  let m' := snd (run [CIf (Sig sig_b) [CAdd "comb" [y_is 1]]; CElse []] in_if) in
  well_bracketed m'
  /\ base 1 (_ctrl_stack m') = [(NameIf, 0)]
  /\ frames_of (if_store m') [(NameIf, 0)] = [Some (mkIfData 0 [] [])].
Proof.
  apply (proj2 (calls_keep_enclosing_frames
                  [CIf (Sig sig_b) [CAdd "comb" [y_is 1]]; CElse []] in_if)).
  split; [vm_compute; lia|].
  split; [|exact I]. intros _. eexists. split; reflexivity.
Defined.




(** A body that returns, followed by a flush that returns, leaves the
    stack it was started with and the [If] frames on it as they were. *)
Lemma body_keeps_frames body m1 m2 m3 :
  well_bracketed m1 ->
  length (_ctrl_stack m1) = _depth m1 ->
  run body m1 = (Ok tt, m2) ->
  _flush_ctrl m2 = (Ok tt, m3) ->
  _ctrl_stack m3 = _ctrl_stack m1
  /\ frames_of (if_store m3) (_ctrl_stack m1) = frames_of (if_store m1) (_ctrl_stack m1)
  /\ _depth m3 = _depth m1.
Proof.
  intros Hw Hlen Hb Hf.
  pose proof (Inv_run body _ _ _ m1 (Inv_here m1 Hw)) as H2. rewrite Hb in H2.
  simpl in H2.
  pose proof (keeps_eq _ _ (keeps_depth_run body) m1) as Hd2. rewrite Hb in Hd2.
  simpl in Hd2.
  destruct (Inv_flushed _ _ _ _ _ H2 Hf) as (H3 & Hd3 & _ & Hs3 & Hi3).
  destruct H2 as (_ & _ & Hbase & Hfr).
  rewrite <- Hlen, base_all in Hbase, Hfr.
  rewrite Hs3, Hd2, Hi3. rewrite <- Hlen at 1. rewrite <- Hbase at 2.
  rewrite Hlen. repeat split; auto. congruence.
Qed.






Lemma with_ok_inv enter leave fin post body m m' :
  with_ enter leave fin post body m = (Ok tt, m') ->
  exists l m1 m2 m3 m4,
    enter m = (Ok l, m1) /\ body l m1 = (Ok tt, m2) /\ leave l m2 = (Ok tt, m3)
    /\ fin l m3 = (Ok tt, m4) /\ post l m4 = (Ok tt, m').
Proof.
  unfold with_. intros H.
  apply bind_inv_ok in H as (l & m1 & He & H).
  apply bind_inv_ok in H as ([] & m4 & Ht & H).
  unfold try_finally, bind in Ht.
  destruct (body l m1) as [[[]|e] m2] eqn:Hb.
  - destruct (leave l m2) as [[[]|e] m3] eqn:Hl.
    + destruct (fin l m3) as [[[]|e] m4'] eqn:Hf; [|discriminate].
      injection Ht as <-. exists l, m1, m2, m3, m4'. auto.
    + destruct (fin l m3) as [[[]|e'] m4']; discriminate.
  - destruct (fin l m2) as [[[]|e'] m4']; discriminate.
Qed.












(** What a successful entry of [State] tells. *)
Lemma State_enter_ok name m l m1 :
  State_enter name m = (Ok l, m1) ->
  exists rest,
    _ctrl_context m = Some CtxFSM
    /\ _ctrl_stack m = (NameFSM, ctrl_data l) :: rest
    /\ core m1 = core m.
Proof.
  intros H.
  assert (K : keeps core (State_enter name)) by keeps_tac.
  pose proof (keeps_eq _ _ K m) as E. rewrite H in E. simpl in E.
  unfold State_enter in H.
  apply bind_inv_ok in H as (u0 & m0 & H0 & H).
  apply check_context_ok in H0 as [-> Hctx].
  apply bind_inv_ok in H as (top & m0' & H1 & H).
  unfold _get_ctrl, gets in H1. injection H1 as <- <-.
  destruct (_ctrl_stack m) as [|[top_name top_data] rest] eqn:Hs;
    [apply bind_inv_ok in H as (? & ? & [=] & _)|].
  destruct (decide (top_name = NameFSM)) as [->|];
    [|apply bind_inv_ok in H as (? & ? & [=] & _)].
  apply bind_inv_ok in H as (r & m2 & H2 & H). injection H2 as <- <-.
  apply bind_inv_ok in H as (data & m3 & _ & H).
  apply bind_inv_ok in H as (u4 & m4 & _ & H).
  apply bind_inv_ok in H as (u5 & m5 & _ & H).
  apply bind_inv_ok in H as (l' & m6 & H6 & H).
  unfold capture, bind, gets, modify, ret in H6. injection H6 as <- <-.
  unfold bind, modify, ret in H. injection H as <- _.
  exists rest. simpl. auto.
Qed.

(** X19: a state can be given one body only.  When [State] has returned,
    in a well-bracketed builder with no frame pending, a [State] of the
    same name in the same FSM raises the [NameError] for a state that is
    already defined, whatever its body, and leaves the builder as it
    was. *)
Theorem State_defined_once name body m m' :
  well_bracketed m ->
  length (_ctrl_stack m) = _depth m ->
  exec (CState name body) m = (Ok tt, m') ->
  forall body',
    exec (CState name body') m' = (Err (NameError (StateAlreadyDefined name)), m').
Proof.
  intros Hw Hlen H body'. simpl exec in H.
  apply with_ok_inv in H as (l & m1 & m2 & m3 & m4 & He & Hb & Hl & Hf & Hp).
  injection Hp as <-. injection Hf as <-.
  destruct (State_enter_ok _ _ _ _ He) as (rest & Hctx & Hs & Hcore).
  injection Hcore as Hd1 Hs1 Hi1.
  assert (Hw1 : well_bracketed m1).
  { unfold well_bracketed. now rewrite Hd1, Hs1, Hi1. }
  unfold State_leave in Hl. apply bind_inv_ok in Hl as ([] & m3a & Hflush & Hrec).
  destruct (body_keeps_frames body m1 m2 m3a Hw1) as (Hs3 & _ & _);
    [congruence | exact Hb | exact Hflush |].
  unfold state_record, bind, load, gets in Hrec.
  destruct (fsm_store m3a !! ctrl_data l) as [data|] eqn:Hdata; [|discriminate].
  injection Hrec as <-.
  simpl exec. apply with_enter_raises. unfold State_enter.
  erewrite bind_ok by reflexivity.
  erewrite bind_ok
    by (unfold _get_ctrl, gets; simpl; rewrite Hs3, Hs1, Hs; reflexivity).
  rewrite decide_True by reflexivity.
  erewrite bind_ok by reflexivity.
  erewrite bind_ok.
  2:{ unfold load. simpl.
      now rewrite list_lookup_insert_eq by (now apply lookup_lt_Some in Hdata). }
  simpl. rewrite od_mem_set_eq. reflexivity.
Qed.

(** [with m.State("A"): pass] twice inside an FSM. *)
Lemma State_defined_once_witness :
  exec (CState "A" [CNext "A"]) (snd (exec (CState "A" []) in_fsm))
    = (Err (NameError (StateAlreadyDefined "A")), snd (exec (CState "A" []) in_fsm)).
Proof.
  apply (State_defined_once "A" [] in_fsm).
  - split; [vm_compute; lia | split; [discriminate | exact I]].
  - reflexivity.
  - vm_compute. reflexivity.
Defined.

(** *** The registries of submodules and clock domains *)

Lemma each_call_app {A} (f : A -> RegistryCall) l1 l2 r :
  each_call f (l1 ++ l2) r =
    match each_call f l1 r with
    | (None, r') => each_call f l2 r'
    | (Some e, r') => (Some e, r')
    end.
Proof.
  revert r. induction l1 as [|x l1 IH]; intros r; simpl; [reflexivity|].
  destruct (f x r) as [[e|] r']; [reflexivity | apply IH].
Qed.

(** A property of the state that no call destroys holds after a loop. *)
Lemma each_call_keeps {A} (P : Registries -> Prop) (f : A -> RegistryCall) l r :
  (forall x r, P r -> P (snd (f x r))) -> P r -> P (snd (each_call f l r)).
Proof.
  intros Hf. revert r. induction l as [|x l IH]; intros r H; simpl; [exact H|].
  specialize (Hf x r H). destruct (f x r) as [[e|] r']; simpl in *; auto.
Qed.

Lemma add_submodule_keeps_binding submodule name n s r :
  od_get n (_named_submodules r) = Some s ->
  od_get n (_named_submodules (snd (_add_submodule submodule name r))) = Some s.
Proof.
  intros H. unfold _add_submodule.
  destruct (negb (has_elaborate submodule)); [exact H|].
  destruct name as [name|]; [|exact H].
  destruct (od_mem name (_named_submodules r)) eqn:Hm; [exact H|]. simpl.
  rewrite od_get_set_ne; [exact H|].
  intros ->. unfold od_mem in Hm. now rewrite H in Hm.
Qed.

Lemma add_domain_keeps_binding cd n d r :
  od_get n (_domains r) = Some d ->
  od_get n (_domains (snd (_add_domain cd r))) = Some d.
Proof.
  intros H. unfold _add_domain.
  destruct (od_mem (cd_name cd) (_domains r)) eqn:Hm; [exact H|]. simpl.
  rewrite od_get_set_ne; [exact H|].
  intros E. subst n. unfold od_mem in Hm. now rewrite H in Hm.
Qed.

Lemma call_keeps_bindings op r :
  (forall n s, od_get n (_named_submodules r) = Some s ->
               od_get n (_named_submodules (snd (registry_call op r))) = Some s)
  /\ (forall n d, od_get n (_domains r) = Some d ->
                  od_get n (_domains (snd (registry_call op r))) = Some d).
Proof.
  destruct op as [modules|name submodule|domains|name domain]; simpl.
  - split; intros n x H.
    + apply (each_call_keeps (fun r => od_get n (_named_submodules r) = Some x)); [|exact H].
      intros m r'. apply add_submodule_keeps_binding.
    + apply (each_call_keeps (fun r => od_get n (_domains r) = Some x)); [|exact H].
      intros m r' H'. unfold _add_submodule.
      destruct (negb _); [exact H'|]. exact H'.
  - split; intros n x H.
    + now apply add_submodule_keeps_binding.
    + unfold submodules_setattr, _add_submodule.
      destruct (negb _); [exact H|]. now destruct (od_mem _ _).
  - split; intros n x H.
    + apply (each_call_keeps (fun r => od_get n (_named_submodules r) = Some x)); [|exact H].
      intros [cd|] r' H'; [|exact H']. unfold _add_domain. now destruct (od_mem _ _).
    + apply (each_call_keeps (fun r => od_get n (_domains r) = Some x)); [|exact H].
      intros [cd|] r' H'; [|exact H']. now apply add_domain_keeps_binding.
  - unfold domains_setattr. destruct domain as [cd|]; [|split; auto].
    destruct (decide _); [|split; auto].
    split; intros n x H.
    + unfold _add_domain. now destruct (od_mem _ _).
    + now apply add_domain_keeps_binding.
Qed.

Lemma after_keeps_bindings ops r :
  (forall n s, od_get n (_named_submodules r) = Some s ->
               od_get n (_named_submodules (registries_after ops r)) = Some s)
  /\ (forall n d, od_get n (_domains r) = Some d ->
                  od_get n (_domains (registries_after ops r)) = Some d).
Proof.
  unfold registries_after. revert r. induction ops as [|op ops IH]; intros r; simpl; [auto|].
  destruct (call_keeps_bindings op r) as [H1 H2].
  destruct (IH (snd (registry_call op r))) as [K1 K2]. split; auto.
Qed.



(** X21: a clock domain is registered under its name once and for all.
    [m.domains.<name> = cd] refuses an object that is no clock domain with
    a [TypeError] and a clock domain of another name with a [NameError].
    Registering a clock domain whose name is free returns and binds the
    name to it; registering one whose name is taken raises a [NameError];
    whatever is done to the registries afterwards, a name stays bound to
    the clock domain it was first bound to.  Every refusal leaves the
    registries as they were. *)
Theorem clock_domain_is_bound_once cd r :
  (forall name,
     domains_setattr name OtherObject r = (Some NotAClockDomain, r)
     /\ (cd_name cd <> name ->
         domains_setattr name (IsClockDomain cd) r =
           (Some (DomainNameMismatch (cd_name cd) name), r)))
  /\ (od_mem (cd_name cd) (_domains r) = false ->
      exists r',
        domains_setattr (cd_name cd) (IsClockDomain cd) r = (None, r')
        /\ domains_iadd [IsClockDomain cd] r = (None, r')
        /\ (forall ops, od_get (cd_name cd) (_domains (registries_after ops r')) = Some cd)
        /\ (forall other, other <> cd_name cd ->
                          od_get other (_domains r') = od_get other (_domains r)))
  /\ (forall first,
        od_get (cd_name cd) (_domains r) = Some first ->
        domains_setattr (cd_name cd) (IsClockDomain cd) r =
          (Some (DomainExists (cd_name cd)), r)
        /\ domains_iadd [IsClockDomain cd] r = (Some (DomainExists (cd_name cd)), r)
        /\ forall ops, od_get (cd_name cd) (_domains (registries_after ops r)) = Some first).
Proof.
  split; [|split].
  - intros name. split; [reflexivity|]. intros Hne. unfold domains_setattr.
    now rewrite decide_False by exact Hne.
  - intros Hfree. unfold domains_setattr, domains_iadd, _add_domain. simpl.
    rewrite decide_True by reflexivity. unfold _add_domain. rewrite Hfree.
    eexists. split; [reflexivity|]. split; [reflexivity|]. split.
    + intros ops. apply (proj2 (after_keeps_bindings ops _)). apply od_get_set_eq.
    + intros other Hne. simpl. now rewrite od_get_set_ne by congruence.
  - intros first Hget. unfold domains_setattr, domains_iadd. simpl.
    rewrite decide_True by reflexivity. unfold _add_domain, od_mem. rewrite Hget.
    split; [reflexivity|]. split; [reflexivity|].
    intros ops. now apply (proj2 (after_keeps_bindings ops r)).
Qed.

(** The clock domain ["sync"], registered twice. *)
Lemma clock_domain_is_bound_once_witness :
  domains_setattr "pix" (IsClockDomain (mkClockDomain 1 "sync")) registries_init
    = (Some (DomainNameMismatch "sync" "pix"), registries_init)
  /\ (exists r',
        domains_iadd [IsClockDomain (mkClockDomain 1 "sync")] registries_init = (None, r')
        /\ od_get "sync"
             (_domains (registries_after [AddDomains [IsClockDomain (mkClockDomain 2 "sync")]] r'))
           = Some (mkClockDomain 1 "sync")).
Proof.
  destruct (clock_domain_is_bound_once (mkClockDomain 1 "sync") registries_init) as (H1 & H2 & _).
  split.
  - apply (H1 "pix"%string). discriminate.
  - destruct (H2 eq_refl) as (r' & _ & Hadd & Hget & _).
    exists r'. split; [exact Hadd | apply Hget].
Defined.

(** X22: [m.submodules += ...] and [m.domains += ...] go through what
    they are given in order and stop at the first object that is refused;
    what came before it stays registered.  Anonymous submodules are kept
    in the order in which they were added, and adding them never touches
    the named ones. *)
Theorem registry_batch_stops_at_first_refusal r :
  (forall good,
     forallb has_elaborate good = true ->
     submodules_iadd good r =
       (None, mkRegistries (_named_submodules r) (_anon_submodules r ++ good) (_domains r)))
  /\ (forall good bad rest,
        forallb has_elaborate good = true ->
        has_elaborate bad = false ->
        submodules_iadd (good ++ bad :: rest) r =
          (Some (NotElaboratable bad),
           mkRegistries (_named_submodules r) (_anon_submodules r ++ good) (_domains r)))
  /\ (forall before rest r1,
        domains_iadd before r = (None, r1) ->
        domains_iadd (before ++ OtherObject :: rest) r = (Some NotAClockDomain, r1)
        /\ forall cd first,
             od_get (cd_name cd) (_domains r1) = Some first ->
             domains_iadd (before ++ IsClockDomain cd :: rest) r =
               (Some (DomainExists (cd_name cd)), r1)).
Proof.
  assert (Hgood : forall good r0,
             forallb has_elaborate good = true ->
             submodules_iadd good r0 =
               (None, mkRegistries (_named_submodules r0) (_anon_submodules r0 ++ good)
                        (_domains r0))).
  { unfold submodules_iadd. induction good as [|s good IH]; intros r0 H; simpl.
    - rewrite app_nil_r. now destruct r0.
    - simpl in H. apply andb_true_iff in H as [Hs H].
      unfold _add_submodule at 1. rewrite Hs. simpl.
      rewrite (IH _ H). simpl. now rewrite <- app_assoc. }
  split; [|split].
  - intros good. apply Hgood.
  - intros good bad rest Hg Hb. unfold submodules_iadd in *.
    rewrite each_call_app, (Hgood good r Hg). simpl.
    unfold _add_submodule. now rewrite Hb.
  - intros before rest r1 H. unfold domains_iadd in *. split.
    + rewrite each_call_app, H. reflexivity.
    + intros cd first Hget. rewrite each_call_app, H. simpl.
      unfold _add_domain, od_mem. now rewrite Hget.
Qed.

(** Three objects added as submodules, the second without [elaborate]. *)
Lemma registry_batch_witness :
  submodules_iadd ([mkSubmodule 1 true] ++ mkSubmodule 2 false :: [mkSubmodule 3 true])
    registries_init
  = (Some (NotElaboratable (mkSubmodule 2 false)),
     mkRegistries [] [mkSubmodule 1 true] [])
  /\ domains_iadd ([IsClockDomain (mkClockDomain 1 "sync")] ++ OtherObject :: []) registries_init
     = (Some NotAClockDomain,
        mkRegistries [] [] [("sync"%string, mkClockDomain 1 "sync")]).
Proof.
  destruct (registry_batch_stops_at_first_refusal registries_init) as (_ & H2 & H3).
  split.
  - apply (H2 [mkSubmodule 1 true] (mkSubmodule 2 false) [mkSubmodule 3 true]);
      reflexivity.
  - apply (H3 [IsClockDomain (mkClockDomain 1 "sync")] []
              (mkRegistries [] [] [("sync"%string, mkClockDomain 1 "sync")])).
    reflexivity.
Defined.

Lemma if_cases_no_else n domain ts bodies tests cases :
  length tests + length ts = n ->
  length bodies = length ts ->
  (forall k, k ∈ od_keys cases ->
             exists j, j < length tests /\ k = KeyStr (if_match (S j) n)) ->
  if_cases n domain (combine (map Some ts ++ [None]) bodies) tests cases =
    (tests ++ map to_bit ts, cases ++ test_cases n domain (length tests) bodies).
Proof.
  revert bodies tests cases.
  induction ts as [|t ts IH]; intros bodies tests cases Hn Hb Hk.
  - destruct bodies; [|discriminate]. simpl. now rewrite !app_nil_r.
  - destruct bodies as [|body bodies]; [discriminate|].
    simpl combine. cbn [if_cases].
    assert (Hfresh : od_mem (KeyStr (if_match (length tests + 1) n)) cases = false).
    { apply od_mem_false. intros Hin'. destruct (Hk _ Hin') as (j & Hj & Hj').
      rewrite Nat.add_1_r in Hj'. injection Hj' as Hj'.
      apply if_match_inj in Hj'; simpl in *; lia. }
    rewrite IH.
    + rewrite length_app. simpl length.
      rewrite od_set_fresh by exact Hfresh.
      rewrite <- !app_assoc. simpl. f_equal. f_equal.
      unfold test_cases. simpl. rewrite Nat.add_1_r, Nat.add_0_r.
      f_equal. apply imap_ext. intros j b _. simpl.
      now replace (length tests + S j) with (S (length tests + j)) by lia.
    + rewrite length_app. simpl in *. lia.
    + simpl in *. lia.
    + intros k Hin. rewrite length_app. simpl length.
      rewrite length_app in Hin. simpl length in Hin.
      rewrite od_set_fresh in Hin by exact Hfresh.
      unfold od_keys in Hin. rewrite map_app in Hin.
      apply elem_of_app in Hin as [Hin|Hin].
      * destruct (Hk _ Hin) as (j & Hj & ->). exists j. split; [lia | reflexivity].
      * simpl in Hin. inversion Hin as [|? ? ? H']; [|inversion H']. subst.
        exists (length tests). split; [lia|]. now rewrite Nat.add_1_r.
Qed.

Lemma if_switch_open_chain data domain :
  length (if_bodies data) = length (if_tests data) ->
  if_switch data domain =
    Ast.Switch (Cat (map to_bit (if_tests data)))
      (test_cases (length (if_tests data)) domain 0 (if_bodies data)).
Proof.
  intros H. unfold if_switch. rewrite if_cases_no_else; auto.
  intros k Hk. inversion Hk.
Qed.

(** X23: popping the frame of an [If]/[Elif] chain that has no [Else] (as
    many bodies as tests) returns and appends, for each domain some body
    has statements for, one branch node whose test is the concatenation of
    the tests, each reduced to one bit.  The node has one case for each
    test, in order, with the pattern of the test's priority, and no
    default case: when no test holds, none of its statements applies. *)
Theorem If_chain_without_Else_has_no_default m r rest data :
  _ctrl_stack m = (NameIf, r) :: rest ->
  if_store m !! r = Some data ->
  length (if_bodies data) = length (if_tests data) ->
  let n := length (if_tests data) in
  let test := Cat (map to_bit (if_tests data)) in
  let cases domain := test_cases n domain 0 (if_bodies data) in
  exists m',
    _pop_ctrl m = (Ok tt, m')
    /\ (forall domain,
          stmts_get domain (_statements m') =
            stmts_get domain (_statements m)
              ++ (if decide (domain ∈ touched (if_bodies data))
                  then [Ast.Switch test (cases domain)] else []))
    /\ (forall domain, length (cases domain) = n)
    /\ (forall domain, KeyNone ∉ od_keys (cases domain))
    /\ (forall i body domain,
          if_bodies data !! i = Some body ->
          cases domain !! i = Some (KeyStr (if_match (S i) n), stmts_get domain body)).
Proof.
  intros Hs Hd Hlen n test cases.
  eexists. split; [apply (pop_If_ok r data rest); assumption|].
  split; [|split; [|split]].
  - intros domain. simpl. rewrite stmts_get_foldl by apply touched_NoDup.
    destruct (decide _); [|reflexivity].
    now rewrite if_switch_open_chain.
  - intros domain. unfold cases, test_cases. now rewrite length_imap.
  - intros domain Hin. unfold cases, test_cases, od_keys in Hin.
    apply list_elem_of_fmap in Hin as ([k v] & Hk & Hin). simpl in Hk. subst k.
    apply list_elem_of_lookup in Hin as (i & Hi).
    rewrite list_lookup_imap in Hi.
    destruct (if_bodies data !! i); discriminate.
  - intros i body domain Hi. unfold cases, test_cases.
    rewrite list_lookup_imap, Hi. reflexivity.
Qed.

(** The frame left pending by [with m.If(a): m.d.comb += y.eq(1)]. *)
Lemma If_chain_without_Else_witness :
  exists m',
    _pop_ctrl after_if = (Ok tt, m')
    /\ stmts_get "comb" (_statements m') =
         [Ast.Switch (Cat [Sig sig_a]) [(KeyStr "1", [y_is 1])]].
Proof.
  destruct (If_chain_without_Else_has_no_default after_if 0 []
              (mkIfData 0 [Sig sig_a] [[("comb"%string, [y_is 1])]]))
    as (m' & H1 & H2 & _); [reflexivity ..|].
  exists m'. split; [exact H1|]. rewrite (H2 "comb"%string). reflexivity.
Defined.

(** *** The frame of a [Switch] while a [Case] body runs *)

Lemma kept_core D r data m m' :
  switch_core m' = switch_core m -> switch_kept D r data m -> switch_kept D r data m'.
Proof. intros [= Hs Hw]. unfold switch_kept. now rewrite Hs, Hw. Qed.

Lemma keeps_core_kept {A} (c : M A) D r data :
  keeps switch_core c -> preserves (switch_kept D r data) c.
Proof.
  intros K m H. apply (kept_core D r data m); [|exact H].
  apply (keeps_eq switch_core _ K).
Qed.

Lemma take_above_tail {A} (P : A -> Prop) D x (l : list A) :
  Forall P (take (length (x :: l) - D) (x :: l)) -> Forall P (take (length l - D) l).
Proof.
  intros H. destruct (decide (D <= length l)) as [Hle|Hgt].
  - simpl length in H. replace (S (length l) - D) with (S (length l - D)) in H by lia.
    simpl in H. now inversion H.
  - replace (length l - D) with 0 by lia. constructor.
Qed.

Lemma take_above_cons {A} (P : A -> Prop) D x (l : list A) :
  P x -> Forall P (take (length l - D) l) ->
  Forall P (take (length (x :: l) - D) (x :: l)).
Proof.
  intros Hx H. destruct (decide (D <= length l)) as [Hle|Hgt].
  - simpl length. replace (S (length l) - D) with (S (length l - D)) by lia.
    simpl. now constructor.
  - simpl length. replace (S (length l) - D) with 0 by lia. constructor.
Qed.

Lemma keeps_switch_store_pop_ctrl : keeps switch_store _pop_ctrl.
Proof. keeps_tac. Qed.

Lemma kept_pop_ctrl D r data : preserves (switch_kept D r data) _pop_ctrl.
Proof.
  intros m [H1 H2]. unfold switch_kept.
  rewrite pop_ctrl_stack, (keeps_eq _ _ keeps_switch_store_pop_ctrl).
  split; [exact H1|].
  destruct (_ctrl_stack m) as [|x rest]; [exact H2|].
  simpl. now apply take_above_tail in H2.
Qed.

Lemma kept_flush_ctrl D r data : preserves (switch_kept D r data) _flush_ctrl.
Proof. apply preserves_flush_ctrl, kept_pop_ctrl. Qed.

Lemma kept_set_ctrl D r data name r' :
  (name, r') <> (NameSwitch, r) ->
  preserves (switch_kept D r data) (_set_ctrl name r').
Proof.
  intros Hne. unfold _set_ctrl.
  apply preserves_bind; [apply kept_flush_ctrl | intros _].
  apply preserves_modify. intros m [H1 H2]. split; [exact H1|].
  simpl. now apply take_above_cons.
Qed.

Lemma kept_add_statement D r data assigns domain depth :
  preserves (switch_kept D r data) (_add_statement assigns domain depth).
Proof.
  unfold _add_statement. apply preserves_bind; [apply kept_flush_ctrl | intros _].
  apply keeps_core_kept. keeps_tac.
Qed.

Lemma kept_flush_then D r data (record : M unit) :
  keeps switch_core record -> preserves (switch_kept D r data) (_flush_ctrl ;; record).
Proof.
  intros K. apply preserves_bind; [apply kept_flush_ctrl | intros _].
  now apply keeps_core_kept.
Qed.

Lemma kept_write D r data r' d m :
  r' <> r -> switch_kept D r data m ->
  switch_kept D r data (set_switch_store (<[r' := d]> (switch_store m)) m).
Proof.
  intros Hne [H1 H2]. split; [|exact H2].
  simpl. now rewrite list_lookup_insert_ne.
Qed.

Lemma kept_If_enter cond D r data : preserves (switch_kept D r data) (If_enter cond).
Proof.
  unfold If_enter.
  apply preserves_bind; [apply preserves_check_context | intros _].
  apply preserves_bind; [apply preserves_ret | intros _].
  apply preserves_bind; [apply preserves_gets | intros depth].
  apply preserves_bind; [apply keeps_core_kept; keeps_tac | intros if_data].
  apply preserves_bind; [apply kept_set_ctrl; discriminate | intros _].
  apply keeps_core_kept. keeps_tac.
Qed.

Lemma kept_Switch_enter test D r data :
  preserves (switch_kept D r data) (Switch_enter test).
Proof.
  unfold Switch_enter.
  apply preserves_bind; [apply preserves_check_context | intros _].
  intros m [H1 H2]. unfold bind at 1, new_switch.
  assert (Hne : (NameSwitch, length (switch_store m)) <> (NameSwitch, r)).
  { intros [= E]. apply lookup_lt_Some in H1. lia. }
  set (m0 := set_switch_store _ m).
  assert (H0 : switch_kept D r data m0).
  { split; [|exact H2]. simpl. now apply lookup_app_l_Some. }
  revert m0 H0.
  apply preserves_bind; [now apply kept_set_ctrl | intros _].
  apply keeps_core_kept. keeps_tac.
Qed.

Lemma kept_FSM_enter init domain name reset D r data :
  preserves (switch_kept D r data) (FSM_enter init domain name reset).
Proof.
  unfold FSM_enter.
  apply preserves_bind; [apply preserves_check_context | intros _].
  apply preserves_bind; [destruct (decide _); [apply preserves_raise | apply preserves_ret]
                        | intros _].
  apply preserves_bind; [apply keeps_core_kept; keeps_tac | intros init'].
  apply preserves_bind; [apply keeps_core_kept; keeps_tac | intros fsm_data].
  apply preserves_bind; [apply kept_set_ctrl; discriminate | intros _].
  apply keeps_core_kept. keeps_tac.
Qed.

(** The frame a [Case] or a [Default] writes to is the frame of the
    [Switch] it is directly in: one that was opened after [r]. *)
Lemma inner_top D b s r data m r' rest :
  Inv D b s m -> switch_inner D m -> switch_kept D r data m ->
  _ctrl_context m = Some CtxSwitch ->
  _ctrl_stack m = (NameSwitch, r') :: rest ->
  r' <> r.
Proof.
  intros (_ & [Hw _] & _) Hi [_ Hk] Hctx Hs E. subst r'.
  specialize (Hi Hctx). rewrite Hs in Hk, Hw. simpl in Hk, Hw.
  replace (S (length rest) - D) with (S (length rest - D)) in Hk by lia.
  simpl in Hk. inversion Hk as [|? ? Hx _]. now apply Hx.
Qed.

Lemma kept_case_record D r data r' ps :
  r' <> r -> preserves (switch_kept D r data) (case_record r' ps).
Proof.
  intros Hne. unfold case_record.
  apply preserves_bind; [apply preserves_load | intros d].
  apply preserves_bind; [apply preserves_gets | intros stmts].
  destruct (_ && _); [|apply preserves_ret].
  apply preserves_modify. intros m. now apply kept_write.
Qed.

Lemma kept_default_record D r data r' :
  r' <> r -> preserves (switch_kept D r data) (default_record r').
Proof.
  intros Hne. unfold default_record.
  apply preserves_bind; [apply preserves_load | intros d].
  apply preserves_bind; [apply preserves_gets | intros stmts].
  destruct (negb _); [|apply preserves_ret].
  apply preserves_modify. intros m. now apply kept_write.
Qed.

Lemma with_kept k G c0 c1 enter leave fin post body :
  enter_spec k G enter ->
  switches c0 c1 enter ->
  (c1 = Some CtxSwitch -> k = 1) ->
  (forall D r data, preserves (switch_kept D r data) enter) ->
  (forall D b s r data m l m1,
     Inv D b s m -> switch_inner D m -> switch_kept D r data m ->
     enter m = (Ok l, m1) -> preserves (switch_kept D r data) (leave l)) ->
  (forall l D r data, preserves (switch_kept D r data) (fin l)) ->
  (forall l D r data, preserves (switch_kept D r data) (post l)) ->
  (forall l D b s r data m,
     Inv D b s m -> switch_inner D m -> switch_kept D r data m ->
     switch_kept D r data (snd (body l m))) ->
  forall D b s r data m,
    Inv D b s m -> switch_inner D m -> switch_kept D r data m ->
    switch_kept D r data (snd (with_ enter leave fin post body m)).
Proof.
  intros He Hsw Hk Hek Hl Hf Hp Hb D b s r data m H Hi Hkept.
  unfold with_, bind at 1 2.
  pose proof (He D b s m H) as He'. pose proof (Hsw m) as Hsw'.
  pose proof (Hek D r data m Hkept) as Hek'.
  pose proof (Hl D b s r data m) as Hl'.
  destruct (enter m) as [[l|e] m1]; simpl in *; [|exact Hek'].
  destruct He' as (H1 & Hd1 & _). destruct Hsw' as [_ Hc1].
  specialize (Hl' l m1 H Hi Hkept eq_refl).
  assert (Hi1 : switch_inner D m1).
  { intros E. rewrite Hc1 in E. rewrite Hd1, (Hk E). destruct H as (HD & _). lia. }
  unfold try_finally.
  assert (Hmid : switch_kept D r data (snd ((body l ;; leave l) m1))).
  { unfold bind. pose proof (Hb l D b s r data m1 H1 Hi1 Hek') as H2.
    destruct (body l m1) as [[[]|e] m2]; simpl in *; [now apply Hl' | exact H2]. }
  destruct ((body l ;; leave l) m1) as [res m3]; simpl in Hmid.
  pose proof (Hf l D r data m3 Hmid) as H4.
  destruct (fin l m3) as [[[]|e] m4]; simpl in *; [|exact H4].
  destruct res as [[]|e]; simpl; [now apply Hp | exact H4].
Qed.

(** Whatever a call does, it leaves the frame of a [Switch] that is open
    around it as it is. *)
Lemma kept_exec c :
  forall D b s r data m,
    Inv D b s m -> switch_inner D m -> switch_kept D r data m ->
    switch_kept D r data (snd (exec c m)).
Proof.
  induction c as [c IH] using Cmd_body_ind.
  assert (Hbody : forall D b s r data m,
             Inv D b s m -> switch_inner D m -> switch_kept D r data m ->
             switch_kept D r data (snd (for_each exec (body_of c) m))).
  { intros D b s r data.
    induction (body_of c) as [|c' cs IHcs]; intros m H Hi Hk; [exact Hk|].
    inversion IH as [|? ? Hc' Hcs]; subst. simpl. unfold bind.
    pose proof (Hc' D b s r data m H Hi Hk) as Hk1.
    pose proof (Inv_exec c' D b s m H) as H1.
    pose proof (keeps_eq _ _ (keeps_context_exec c') m) as Ec.
    pose proof (keeps_eq _ _ (keeps_depth_exec c') m) as Ed.
    destruct (exec c' m) as [[[]|e] m1]; simpl in *; [|exact Hk1].
    apply IHcs; auto. intros E. rewrite Ec in E. rewrite Ed. now apply Hi. }
  assert (Hpop : forall (l : Locals) D r data,
             preserves (switch_kept D r data) _pop_ctrl)
    by (intros; apply kept_pop_ctrl).
  assert (Hnone : forall (l : Locals) D r data,
             preserves (switch_kept D r data) (no_post l))
    by (intros; apply preserves_ret).
  assert (Hfin : forall (fin : Locals -> M unit),
             (forall l, keeps switch_core (fin l)) ->
             forall l D r data, preserves (switch_kept D r data) (fin l))
    by (intros fin K l D r data; apply keeps_core_kept, K).
  intros D b s r data. destruct c; simpl in Hbody; simpl exec.
  - intros m _ _. revert m.
    apply preserves_bind; [apply preserves_gets | intros d].
    apply kept_add_statement.
  - apply (with_kept 1 on_top None None);
      [apply enter_spec_If | apply switches_If_enter | discriminate
      | apply kept_If_enter | intros; apply kept_flush_then; keeps_tac
      | apply Hfin; intros; keeps_tac | apply Hnone | intros _; apply Hbody].
  - apply (with_kept 1 on_top None None);
      [apply enter_spec_Elif | apply switches_Elif_enter | discriminate
      | intros; apply keeps_core_kept; keeps_tac
      | intros; apply kept_flush_then; keeps_tac
      | apply Hfin; intros; keeps_tac | apply Hnone | intros _; apply Hbody].
  - apply (with_kept 1 on_top None None);
      [apply enter_spec_Else | apply switches_Else_enter | discriminate
      | intros; apply keeps_core_kept; keeps_tac
      | intros; apply kept_flush_then; keeps_tac
      | apply Hfin; intros; keeps_tac | apply Hpop | intros _; apply Hbody].
  - apply (with_kept 1 anywhere None (Some CtxSwitch));
      [apply enter_spec_Switch | apply switches_Switch_enter | reflexivity
      | apply kept_Switch_enter | intros; apply preserves_ret
      | apply Hfin; intros; keeps_tac | apply Hpop | intros _; apply Hbody].
  - apply (with_kept 0 anywhere (Some CtxSwitch) None);
      [apply enter_spec_keeps; keeps_tac | apply switches_Case_enter | discriminate
      | intros; apply keeps_core_kept; keeps_tac
      | | apply Hfin; intros; keeps_tac | apply Hnone | intros _; apply Hbody].
    intros D' b' s' r' data' m l m1 H Hi Hk He.
    destruct (Case_enter_ok _ _ _ _ He) as (d & Hctx & Hs & _).
    unfold Case_leave. apply preserves_bind; [apply kept_flush_ctrl | intros _].
    apply kept_case_record. eapply inner_top; eauto.
  - apply (with_kept 0 anywhere (Some CtxSwitch) None);
      [apply enter_spec_keeps; keeps_tac | apply switches_Default_enter | discriminate
      | intros; apply keeps_core_kept; keeps_tac
      | | apply Hfin; intros; keeps_tac | apply Hnone | intros _; apply Hbody].
    intros D' b' s' r' data' m l m1 H Hi Hk He.
    destruct (Default_enter_ok _ _ _ He) as (d & Hctx & Hs & _).
    unfold Default_leave. apply preserves_bind; [apply kept_flush_ctrl | intros _].
    apply kept_default_record. eapply inner_top; eauto.
  - apply (with_kept 1 anywhere None (Some CtxFSM));
      [apply enter_spec_FSM | apply switches_FSM_enter | discriminate
      | apply kept_FSM_enter | intros; apply keeps_core_kept; keeps_tac
      | apply Hfin; intros; keeps_tac | | intros l; apply Hbody].
    intros l D' r' data'. unfold FSM_post.
    apply preserves_bind; [apply kept_pop_ctrl | intros _].
    apply keeps_core_kept. keeps_tac.
  - apply (with_kept 0 anywhere (Some CtxFSM) None);
      [apply enter_spec_keeps; keeps_tac | apply switches_State_enter | discriminate
      | intros; apply keeps_core_kept; keeps_tac
      | intros; apply kept_flush_then; keeps_tac
      | apply Hfin; intros; keeps_tac | apply Hnone | intros _; apply Hbody].
  - intros m _ _. revert m. unfold next.
    apply preserves_bind; [apply preserves_gets | intros context].
    apply preserves_bind; [apply preserves_gets | intros stack].
    destruct (decide _); [apply preserves_raise|].
    destruct (innermost_fsm stack); [|apply preserves_raise].
    apply preserves_bind; [apply keeps_core_kept; keeps_tac | intros _].
    apply preserves_bind; [apply preserves_load | intros d].
    apply kept_add_statement.
  - intros m _ _. revert m. apply keeps_core_kept. keeps_tac.
  - intros m H Hi Hk. exact Hk.
  - intros m H Hi Hk. unfold try_except_pass. simpl. now apply (Hbody D b s).
Qed.

Lemma kept_run prog D b s r data m :
  Inv D b s m -> switch_inner D m -> switch_kept D r data m ->
  switch_kept D r data (snd (run prog m)).
Proof.
  revert m. induction prog as [|c cs IH]; intros m H Hi Hk; [exact Hk|].
  unfold run in *. simpl. unfold bind.
  pose proof (kept_exec c D b s r data m H Hi Hk) as Hk1.
  pose proof (Inv_exec c D b s m H) as H1.
  pose proof (keeps_eq _ _ (keeps_context_exec c) m) as Ec.
  pose proof (keeps_eq _ _ (keeps_depth_exec c) m) as Ed.
  destruct (exec c m) as [[[]|e] m1]; simpl in *; [|exact Hk1].
  apply IH; auto. intros E. rewrite Ec in E. rewrite Ed. now apply Hi.
Qed.

Lemma Case_enter_run patterns m r rest data :
  _ctrl_context m = Some CtxSwitch ->
  _ctrl_stack m = (NameSwitch, r) :: rest ->
  switch_store m !! r = Some data ->
  forallb (pattern_ok (len (switch_test data))) patterns = true ->
  Case_enter patterns m =
    (Ok (mkLocals r (concat (map (kept (len (switch_test data))) patterns))
           (_statements m)),
     set_ctrl_context None
       (set_statements []
          (set_warnings
             (warnings m
                ++ (if od_mem [] (switch_cases data) then [CaseAfterDefault] else [])
                ++ concat (map (diagnostics (len (switch_test data))) patterns)) m))).
Proof.
  intros Hctx Hs Hd Hok. unfold Case_enter.
  erewrite bind_ok.
  2:{ unfold _check_context. now rewrite decide_True by exact Hctx. }
  erewrite bind_ok by (unfold _get_ctrl, gets; rewrite Hs; reflexivity).
  rewrite decide_True by reflexivity.
  erewrite bind_ok by reflexivity.
  rewrite (bind_ok _ _ _ _ _ (warn_after_default_run _ _ _ Hd)).
  erewrite bind_ok by (unfold load; simpl; now rewrite Hd).
  erewrite bind_ok by (now apply case_patterns_ok).
  unfold capture, bind, gets, modify, ret. simpl.
  now rewrite <- app_assoc.
Qed.

(** X24: a [Case] with acceptable patterns, called directly inside a
    [Switch] whose frame is the top one, raises what its body or the
    closing flush raises and returns when they return.  Either way the
    statements and the context of the caller are restored, so that the
    statements of the body appear nowhere but in the frame.  There the
    case is appended after the cases registered before, which are
    unchanged whatever the body did, under the tuple of the patterns kept,
    provided the call returns, the tuple is not empty and it is not
    registered already; in every other case the frame is as it was.  After
    a call that returns the frame is on top again. *)
Theorem Case_registers_its_body patterns body m r rest data :
  _ctrl_context m = Some CtxSwitch ->
  _ctrl_stack m = (NameSwitch, r) :: rest ->
  _depth m = S (length rest) ->
  placed (if_store m) rest ->
  switch_store m !! r = Some data ->
  forallb (pattern_ok (len (switch_test data))) patterns = true ->
  let width := len (switch_test data) in
  let new := concat (map (kept width) patterns) in
  let entered :=
    set_ctrl_context None
      (set_statements []
         (set_warnings
            (warnings m
               ++ (if od_mem [] (switch_cases data) then [CaseAfterDefault] else [])
               ++ concat (map (diagnostics width) patterns)) m)) in
  let outcome := (run body ;; _flush_ctrl) entered in
  let registers :=
    match fst outcome with
    | Ok _ => negb (bool_decide (new = [])) && negb (od_mem new (switch_cases data))
    | Err _ => false
    end in
  let m' := snd (exec (CCase patterns body) m) in
  fst (exec (CCase patterns body) m) = fst outcome
  /\ _statements m' = _statements m
  /\ _ctrl_context m' = Some CtxSwitch
  /\ switch_store m' !! r =
       Some (mkSwitchData (switch_test data)
               (switch_cases data
                  ++ (if registers then [(new, _statements (snd outcome))] else [])))
  /\ (fst outcome = Ok tt -> _ctrl_stack m' = _ctrl_stack m).
Proof.
  intros Hctx Hs Hdepth Hpl Hd Hok width new entered outcome registers m'.
  pose proof (Case_enter_run patterns m r rest data Hctx Hs Hd Hok) as He.
  fold width new entered in He.
  assert (Hw : well_bracketed entered).
  { split; simpl; rewrite Hs; simpl; [lia|]. split; [discriminate | exact Hpl]. }
  assert (Hlen : length (_ctrl_stack entered) = _depth entered).
  { simpl. rewrite Hs, Hdepth. reflexivity. }
  set (D := _depth entered).
  assert (HI : Inv D (base D (_ctrl_stack entered))
                 (frames_of (if_store entered) (base D (_ctrl_stack entered))) entered)
    by apply (Inv_here entered Hw).
  assert (Hi : switch_inner D entered) by (intros E; discriminate).
  assert (Hk : switch_kept D r data entered).
  { split; [exact Hd|]. unfold D. rewrite Hlen, Nat.sub_diag. constructor. }
  pose proof (kept_run body _ _ _ r data entered HI Hi Hk) as Hk2.
  pose proof (Inv_run body _ _ _ entered HI) as HI2.
  subst m' registers. simpl exec. change (for_each exec body) with (run body).
  unfold outcome, bind.
  destruct (run body entered) as [[[]|e] m2] eqn:Hb; simpl in Hk2, HI2.
  - pose proof (kept_flush_ctrl D r data m2 Hk2) as Hk3.
    destruct (_flush_ctrl m2) as [[[]|e] m3] eqn:Hf; simpl in Hk3.
    + destruct Hk3 as [Hd3 _].
      rewrite (Case_exit patterns (run body) m _ entered m2 m3 data He Hb Hf Hd3).
      simpl.
      split; [reflexivity|]. split; [reflexivity|]. split; [reflexivity|].
      destruct (body_keeps_frames body entered m2 m3 Hw Hlen Hb Hf) as (Hs3 & _ & _).
      split; [|intros _].
      * destruct (negb (bool_decide (new = [])) && negb (od_mem new (switch_cases data)))
          eqn:Hreg; simpl.
        -- rewrite list_lookup_insert_eq by (now apply lookup_lt_Some in Hd3).
           apply andb_prop in Hreg as [_ Hfresh]. apply negb_true_iff in Hfresh.
           now rewrite od_set_fresh.
        -- rewrite app_nil_r, Hd3. now destruct data.
      * destruct (_ && _); simpl; exact Hs3.
    + destruct Hk3 as [Hd3 _].
      assert (Hl : Case_leave (mkLocals r new (_statements m)) m2 = (Err e, m3)).
      { unfold Case_leave. now rewrite (bind_err _ _ _ _ _ Hf). }
      unfold Case.
      rewrite (with_leave_raises _ _ _ _ _ _ _ _ _ _ _ _ He Hb Hl eq_refl).
      simpl.
      rewrite app_nil_r, Hd3. repeat split; try discriminate. now destruct data.
  - destruct Hk2 as [Hd2 _]. unfold Case.
    rewrite (with_body_raises _ _ _ _ _ _ _ _ _ _ _ He Hb eq_refl).
    simpl.
    rewrite app_nil_r, Hd2. repeat split; try discriminate. now destruct data.
Qed.

(** In the [Switch] on the two-bit [x], after [Case("01")]: a
    [Case("1-")] whose body is a [Switch] on [a] with a [Case("1")] of
    its own.  The inner case lands in the inner frame and the outer frame
    gets the one case, holding the inner branch node. *)
Lemma Case_registers_its_body_witness :
  let inner := [CSwitch (Sig sig_a) [CCase [PStr "1"] [CAdd "comb" [y_is 0]]]] in
  let m' := snd (exec (CCase [PStr "1-"] inner) after_case_01) in
  fst (exec (CCase [PStr "1-"] inner) after_case_01) = Ok tt
  /\ _statements m' = []
  /\ switch_store m' !! 0 =
       Some (mkSwitchData (Sig sig_x2)
               [([PatStr "01"], [("comb"%string, [y_is 1])]);
                ([PatStr "1-"],
                 [("comb"%string,
                   [Ast.Switch (Sig sig_a) [(KeyPatterns [PatStr "1"], [y_is 0])]])])]).
Proof.
  intros inner m'.
  destruct (Case_registers_its_body [PStr "1-"] inner after_case_01 0 []
              (mkSwitchData (Sig sig_x2) [([PatStr "01"], [("comb"%string, [y_is 1])])]))
    as (H1 & H2 & _ & H4 & _);
    [reflexivity | reflexivity | reflexivity | exact I | reflexivity | reflexivity |].
  split; [|split].
  - rewrite H1. reflexivity.
  - unfold m'. rewrite H2. reflexivity.
  - unfold m'. rewrite H4. reflexivity.
Defined.

(** *** The number and the indicator of a state *)

Lemma state_bound_write r name n sig r' d' m :
  state_bound r name n sig m ->
  (forall data,
     fsm_store m !! r = Some data -> r' = r ->
     od_get name (fsm_encoding d') = od_get name (fsm_encoding data)
     /\ od_get name (fsm_ongoing d') = od_get name (fsm_ongoing data)) ->
  state_bound r name n sig (set_fsm_store (<[r' := d']> (fsm_store m)) m).
Proof.
  intros (data & Hd & He & Ho) Hsame. unfold state_bound. simpl.
  destruct (decide (r' = r)) as [->|Hne].
  - destruct (Hsame data Hd eq_refl) as [He' Ho'].
    exists d'. rewrite list_lookup_insert_eq by (now apply lookup_lt_Some in Hd).
    split; [reflexivity|]. split; congruence.
  - exists data. now rewrite list_lookup_insert_ne.
Qed.

Lemma state_bound_run r name n sig prog :
  preserves (state_bound r name n sig) (run prog).
Proof.
  assert (Hnew : forall name' init domain,
             preserves (state_bound r name n sig)
               (new_fsm (mkFSMData name' init domain [] [] [] [] None))).
  { intros name' init domain m (data & Hd & He & Ho). exists data. simpl.
    split; [now apply lookup_app_l_Some | auto]. }
  assert (Href : forall r' name',
             preserves (state_bound r name n sig) (reference_state r' name')).
  { intros r' name' m H. unfold reference_state, bind, load.
    destruct (fsm_store m !! r') as [d|] eqn:E; [|exact H].
    destruct (od_mem name' (fsm_encoding d)) eqn:Em; [exact H|].
    apply state_bound_write; [exact H|]. intros data Hd ->. simpl.
    assert (d = data) as -> by congruence.
    destruct H as (data' & Hd' & He & Ho).
    assert (data' = data) as -> by congruence.
    assert (name' <> name).
    { intros ->. unfold od_mem in Em. now rewrite He in Em. }
    now rewrite !od_get_set_ne. }
  assert (Hstate : forall r' name',
             preserves (state_bound r name n sig) (state_record r' name')).
  { intros r' name' m H. unfold state_record, bind, load, gets.
    destruct (fsm_store m !! r') as [d|] eqn:E; [|exact H].
    apply state_bound_write; [exact H|]. intros data Hd ->. simpl.
    assert (d = data) as -> by congruence. auto. }
  assert (Hpop : forall r', preserves (state_bound r name n sig) (pop_FSM r')).
  { intros r' m H. unfold pop_FSM. unfold bind at 1, load.
    destruct (fsm_store m !! r') as [d|] eqn:E; [|exact H].
    destruct (fsm_states d) as [|[first body] others].
    - apply state_bound_write; [exact H|]. intros data Hd ->. simpl.
      assert (d = data) as -> by congruence. auto.
    - unfold bind at 1, od_index.
      destruct (od_get _ _) as [init|]; [|exact H]. cbn [ret]. cbv zeta.
      erewrite bind_ok by reflexivity.
      match goal with
      | |- state_bound _ _ _ _ (snd (?c ?m')) =>
          assert (Hc : preserves (state_bound r name n sig) c) by pres; apply Hc
      end.
      apply state_bound_write; [exact H|]. intros data Hd ->. simpl.
      assert (d = data) as -> by congruence. auto. }
  apply invariant_run; auto; try (intros; pres); try (intros ? ? H; exact H).
Qed.

(** X25: the number of a state of an FSM and its indicator signal are given
    once: whatever is called afterwards, and however the calls end, the
    state keeps its number and its signal, and [fsm.ongoing] of that state
    returns that signal again and changes nothing. *)
Theorem FSM_state_number_and_indicator_are_permanent prog m r name n sig :
  state_bound r name n sig m ->
  let m' := snd (run prog m) in
  state_bound r name n sig m'
  /\ ongoing r name m' = (Ok sig, m').
Proof.
  intros H m'. pose proof (state_bound_run r name n sig prog m H) as H'.
  split; [exact H'|]. destruct H' as (data & Hd & He & Ho). fold m' in Hd.
  unfold ongoing, reference_state, bind, load. rewrite Hd.
  unfold od_mem. rewrite He. simpl. rewrite Hd.
  unfold od_index. now rewrite Ho.
Qed.

(** In the state [A] of an FSM: [fsm.ongoing("A")] after a transition to a
    new state [B] and an [If] returns the indicator made when [A] was
    opened. *)
Lemma FSM_state_number_and_indicator_witness :
  let prog := [CNext "B"; CIf (Sig sig_a) [CAdd "comb" [y_is 1]]] in
  let sig := mkSignal (OngoingSig 0 "A") "fsm_ongoing_A" (unsigned 1) 0 in
  state_bound 0 "A" 0 sig (snd (run prog in_state_A))
  /\ ongoing 0 "A" (snd (run prog in_state_A)) = (Ok sig, snd (run prog in_state_A)).
Proof.
  intros prog sig.
  apply (FSM_state_number_and_indicator_are_permanent prog in_state_A 0 "A" 0 sig).
  eexists. split; [reflexivity|]. split; reflexivity.
Defined.
